(** * VCB01 marble game: a shallow embedding of [VCB01/logic.py]

    The module [logic.py] holds the simulation core of a 2D marble game:
    balls moving in a bounded world, a suction field capturing balls into an
    inventory, a spit operation releasing them, colour mixing on contact and a
    delete zone.

    Modelling conventions.
    - A Python [float] is a real number ([R]): rounding, infinities and NaN
      are outside the model.  [math.hypot], [math.exp] and [math.pi] are the
      real functions [sqrt (x² + y²)], [exp] and [PI].  Where rounding
      decides a property, module [Rounded] repeats the step with a rounding
      applied after every operation, and module [Float64] has the motion of
      one ball on binary64 numbers.
    - A Python [dict] is an association list in insertion order with unique
      keys; assignment to an existing key keeps the key's place, assignment to
      a new key appends.
    - Methods of [GameLogic] mutate [self]; here they take the world and return
      the new world together with the method's result.
    - [uuid.uuid4().hex] is an input of [add_ball] (the string the generator
      hands out at that call). *)

From Stdlib Require Import PrimFloat.
From Stdlib Require Import Reals Lra List String Bool ZArith Lia.
From Stdlib Require Import Permutation.
Import ListNotations.
Open Scope R_scope.

(** ** Python built-ins and [math] on reals *)

Module Py.

Definition ltb (a b : R) : bool := if Rlt_dec a b then true else false.
Definition leb (a b : R) : bool := if Rle_dec a b then true else false.
Definition eqb (a b : R) : bool := if Req_dec_T a b then true else false.
Definition gtb (a b : R) : bool := ltb b a.

(** [max(a, b)]: the first argument unless a later one is strictly greater. *)
Definition max (a b : R) : R := if gtb b a then b else a.
(** [min(a, b)]: the first argument unless a later one is strictly smaller. *)
Definition min (a b : R) : R := if ltb b a then b else a.
Definition max3 (a b c : R) : R := max (max a b) c.
Definition min3 (a b c : R) : R := min (min a b) c.

(** [math.hypot(x, y)] *)
Definition hypot (x y : R) : R := sqrt (x * x + y * y).

(** [x % y] on floats: the result has the sign of [y]. *)
Definition fmod (x y : R) : R := x - IZR (Int_part (x / y)) * y.

(** [int(x)]: truncation towards zero. *)
Definition int (x : R) : Z :=
  if leb 0 x then Int_part x else (- Int_part (- x))%Z.

End Py.

(** ** [dict]: insertion-ordered association lists keyed by strings *)

Section Dict.
Context {V : Type}.

Definition dict : Type := list (string * V).

Definition keys (d : dict) : list string := map fst d.
Definition values (d : dict) : list V := map snd d.

(** [d.get(k)] *)
Fixpoint dict_get (k : string) (d : dict) : option V :=
  match d with
  | [] => None
  | (k', v) :: rest => if String.eqb k k' then Some v else dict_get k rest
  end.

(** [d[k] = v] *)
Fixpoint dict_set (k : string) (v : V) (d : dict) : dict :=
  match d with
  | [] => [(k, v)]
  | (k', v') :: rest =>
      if String.eqb k k' then (k', v) :: rest else (k', v') :: dict_set k v rest
  end.

(** [del d[k]] for a key that may be absent (as [pop] with a default does) *)
Fixpoint dict_del (k : string) (d : dict) : dict :=
  match d with
  | [] => []
  | (k', v') :: rest =>
      if String.eqb k k' then rest else (k', v') :: dict_del k rest
  end.

(** [d.pop(k, None)] *)
Definition dict_pop (k : string) (d : dict) : option V * dict :=
  (dict_get k d, dict_del k d).

(** The objects held by a dict are mutable: a loop
    [for v in d.values(): v.field = ...] rewrites every value in place. *)
Definition dict_update_all (f : V -> V) (d : dict) : dict :=
  map (fun kv => (fst kv, f (snd kv))) d.

(** Assignment to the object at a given place of [list(d.values())]. *)
Fixpoint set_nth (i : nat) (v : V) (d : dict) : dict :=
  match d, i with
  | [], _ => []
  | (k, _) :: rest, O => (k, v) :: rest
  | kv :: rest, S i' => kv :: set_nth i' v rest
  end.

End Dict.

Arguments dict V : clear implicits.

(** [itertools.combinations(l, 2)] *)
Fixpoint combinations2 {A : Type} (l : list A) : list (A * A) :=
  match l with
  | [] => []
  | a :: rest => map (pair a) rest ++ combinations2 rest
  end.

(** ** Data model *)

Definition Vector : Type := (R * R)%type.
Definition ColorRGB : Type := (R * R * R)%type.

Module Rect.

Record t : Type := mk { x : R; y : R; width : R; height : R }.

Definition contains_point (self : t) (point : Vector) : bool :=
  let '(px, py) := point in
  (Py.leb (x self) px && Py.leb px (x self + width self))
  && (Py.leb (y self) py && Py.leb py (y self + height self)).

End Rect.

Module Ball.

Record t : Type := mk {
  id : string;
  position : Vector;
  velocity : Vector;
  radius : R;
  color_rgb : ColorRGB;
  mass : R
}.

(** The dataclass constructor followed by [__post_init__]. *)
Definition init (id : string) (position velocity : Vector) (radius : R)
    (color_rgb : ColorRGB) : t :=
  mk id position velocity radius color_rgb (Py.max 1e-6 (PI * radius ^ 2)).

Definition set_position (b : t) (p : Vector) : t :=
  mk (id b) p (velocity b) (radius b) (color_rgb b) (mass b).
Definition set_velocity (b : t) (v : Vector) : t :=
  mk (id b) (position b) v (radius b) (color_rgb b) (mass b).
Definition set_color_rgb (b : t) (c : ColorRGB) : t :=
  mk (id b) (position b) (velocity b) (radius b) c (mass b).

End Ball.

Module StepResult.

Record t : Type := mk {
  time_advanced_s : R;
  mixed_pairs : list (string * string);
  deleted_ball_ids : list string;
  captured_ball_ids : list string;
  released_ball_ids : list string
}.

End StepResult.

Module Suction.

Record t : Type := mk {
  is_active : bool;
  position : Vector;
  radius : R;
  strength : R;
  capture_radius : R
}.

Definition default : t := mk false (0, 0) 160 1200 28.

End Suction.

(** ** Module-level helpers of [logic.py] *)

Definition _clamp (value lo hi : R) : R := Py.max lo (Py.min hi value).

Definition _normalize (vec : Vector) : Vector :=
  let '(vx, vy) := vec in
  let mag := Py.hypot vx vy in
  if Py.eqb mag 0 then (0, 0) else (vx / mag, vy / mag).

Definition _angle_lerp (a b t : R) : R :=
  let two_pi := 2 * PI in
  let aa := a * two_pi in
  let bb := b * two_pi in
  let delta := Py.fmod (bb - aa + PI) (2 * PI) - PI in
  let out := Py.fmod (aa + delta * _clamp t 0 1) two_pi in
  out / two_pi.

(** *** [colorsys.rgb_to_hsv] and [colorsys.hsv_to_rgb]

    The two conversions come from Python's standard library; they are
    transcribed from [Lib/colorsys.py].  Division is total here; Python
    raises on a zero divisor, which channels in [[0,1]] never produce. *)

Definition rgb_to_hsv (rgb : ColorRGB) : R * R * R :=
  let '(r, g, b) := rgb in
  let maxc := Py.max3 r g b in
  let minc := Py.min3 r g b in
  let rangec := maxc - minc in
  let v := maxc in
  if Py.eqb minc maxc then (0, 0, v)
  else
    let s := rangec / maxc in
    let rc := (maxc - r) / rangec in
    let gc := (maxc - g) / rangec in
    let bc := (maxc - b) / rangec in
    let h :=
      if Py.eqb r maxc then bc - gc
      else if Py.eqb g maxc then 2 + rc - bc
      else 4 + gc - rc in
    let h := Py.fmod (h / 6) 1 in
    (h, s, v).

Definition hsv_to_rgb (hsv : R * R * R) : ColorRGB :=
  let '(h, s, v) := hsv in
  if Py.eqb s 0 then (v, v, v)
  else
    let i := Py.int (h * 6) in
    let f := h * 6 - IZR i in
    let p := v * (1 - s) in
    let q := v * (1 - s * f) in
    let t := v * (1 - s * (1 - f)) in
    let i := (i mod 6)%Z in
    match i with
    | 0%Z => (v, t, p)
    | 1%Z => (q, v, p)
    | 2%Z => (p, v, t)
    | 3%Z => (p, q, v)
    | 4%Z => (t, p, v)
    | _ => (v, p, q) (* i == 5; [i % 6] has no other value *)
    end.

Definition _mix_color_towards (src_rgb dst_rgb : ColorRGB) (t : R) : ColorRGB :=
  let '(sh, ss, sv) := rgb_to_hsv src_rgb in
  let '(dh, ds, dv) := rgb_to_hsv dst_rgb in
  let h := _angle_lerp sh dh t in
  let s_target := Py.max ss ds in
  let s := _clamp ((1 - t) * ss + t * s_target) 0.35 1 in
  let v := _clamp ((1 - t) * sv + t * dv) 0 0.92 in
  let '(r, g, b) := hsv_to_rgb (h, s, v) in
  (_clamp r 0 1, _clamp g 0 1, _clamp b 0 1).

(** ** [class GameLogic] *)

Module GameLogic.

Record t : Type := mk {
  world_width : R;
  world_height : R;
  boundary_bounce : bool;
  linear_damping_per_second : R;
  max_color_mix_factor_per_second : R;
  gravity : Vector;
  delete_zone : Rect.t;
  _balls : dict Ball.t;
  _inventory : dict Ball.t;
  _suction : Suction.t
}.

Definition with_balls (self : t) (balls : dict Ball.t) : t :=
  mk (world_width self) (world_height self) (boundary_bounce self)
     (linear_damping_per_second self) (max_color_mix_factor_per_second self)
     (gravity self) (delete_zone self) balls (_inventory self) (_suction self).

Definition with_inventory (self : t) (inventory : dict Ball.t) : t :=
  mk (world_width self) (world_height self) (boundary_bounce self)
     (linear_damping_per_second self) (max_color_mix_factor_per_second self)
     (gravity self) (delete_zone self) (_balls self) inventory (_suction self).

Definition with_suction (self : t) (suction : Suction.t) : t :=
  mk (world_width self) (world_height self) (boundary_bounce self)
     (linear_damping_per_second self) (max_color_mix_factor_per_second self)
     (gravity self) (delete_zone self) (_balls self) (_inventory self) suction.

(** [__init__]; [None] for [delete_zone] selects the default corner zone. *)
Definition init (world_width world_height : R) (delete_zone : option Rect.t)
    (boundary_bounce : bool)
    (linear_damping_per_second max_color_mix_factor_per_second : R)
    (gravity : Vector) : t :=
  mk world_width world_height boundary_bounce
     (_clamp linear_damping_per_second 0 5)
     (_clamp max_color_mix_factor_per_second 0 5)
     gravity
     (match delete_zone with
      | Some z => z
      | None => Rect.mk (world_width - 120) (world_height - 120) 120 120
      end)
     [] [] Suction.default.

(** *** World and inventory management *)

(** [ball_id or uuid.uuid4().hex]: [None] and the empty string are falsy. *)
Definition assigned_id (uuid_hex : string) (ball_id : option string) : string :=
  match ball_id with
  | Some s => if String.eqb s EmptyString then uuid_hex else s
  | None => uuid_hex
  end.

Definition add_ball (self : t) (uuid_hex : string) (position velocity : Vector)
    (radius : R) (color_rgb : ColorRGB) (ball_id : option string) : t * string :=
  let bid := assigned_id uuid_hex ball_id in
  let '(px, py) := position in
  let '(vx, vy) := velocity in
  let ball := Ball.init bid (px, py) (vx, vy) radius color_rgb in
  (with_balls self (dict_set bid ball (_balls self)), bid).

Definition remove_ball (self : t) (ball_id : string) : t * bool :=
  let '(popped, balls) := dict_pop ball_id (_balls self) in
  (with_balls self balls, match popped with Some _ => true | None => false end).

Definition get_balls_snapshot (self : t) : list Ball.t := values (_balls self).

Definition get_inventory_ids (self : t) : list string := keys (_inventory self).

Definition set_delete_zone (self : t) (rect : Rect.t) : t :=
  mk (world_width self) (world_height self) (boundary_bounce self)
     (linear_damping_per_second self) (max_color_mix_factor_per_second self)
     (gravity self) rect (_balls self) (_inventory self) (_suction self).

(** *** Suction control *)

Definition start_suction (self : t) (position : Vector)
    (radius strength capture_radius : option R) : t :=
  let s := _suction self in
  with_suction self
    (Suction.mk true (fst position, snd position)
       (match radius with Some r => r | None => Suction.radius s end)
       (match strength with Some r => r | None => Suction.strength s end)
       (match capture_radius with
        | Some r => r
        | None => Suction.capture_radius s
        end)).

Definition update_suction (self : t) (position : Vector) : t :=
  let s := _suction self in
  if negb (Suction.is_active s) then self
  else
    with_suction self
      (Suction.mk (Suction.is_active s) (fst position, snd position)
         (Suction.radius s) (Suction.strength s) (Suction.capture_radius s)).

Definition stop_suction (self : t) : t :=
  let s := _suction self in
  with_suction self
    (Suction.mk false (Suction.position s) (Suction.radius s)
       (Suction.strength s) (Suction.capture_radius s)).

(** *** Spitting *)

(** The part shared by both spit methods once a ball has left the inventory
    (lines 198-204 and 211-216): new kinematics, then [self._balls[id] = ball]. *)
Definition release (self : t) (inventory : dict Ball.t) (ball_id : string)
    (ball : Ball.t) (position direction : Vector) (speed : R) : t :=
  let '(px, py) := (fst position, snd position) in
  let '(dx, dy) := _normalize direction in
  let '(vx, vy) := (dx * speed, dy * speed) in
  let ball := Ball.set_position ball (px, py) in
  let ball := Ball.set_velocity ball (vx, vy) in
  with_balls (with_inventory self inventory) (dict_set ball_id ball (_balls self)).

Definition spit_next (self : t) (position direction : Vector) (speed : R)
    : t * option string :=
  match _inventory self with
  | [] => (self, None)
  | (ball_id, ball) :: _ =>
      (release self (dict_del ball_id (_inventory self)) ball_id ball
         position direction speed,
       Some ball_id)
  end.

Definition spit_specific (self : t) (ball_id : string)
    (position direction : Vector) (speed : R) : t * bool :=
  let '(popped, inventory) := dict_pop ball_id (_inventory self) in
  match popped with
  | None => (with_inventory self inventory, false)
  | Some ball =>
      (release self inventory ball_id ball position direction speed, true)
  end.

(** *** Simulation step *)

(** Body of the suction-force loop (lines 243-257) for one ball. *)
Definition pull (s : Suction.t) (dt : R) (ball : Ball.t) : Ball.t :=
  let '(sx, sy) := Suction.position s in
  let sr := Suction.radius s in
  let strength := Suction.strength s in
  let '(bx, by_) := Ball.position ball in
  let to_sx := sx - bx in
  let to_sy := sy - by_ in
  let dist := Py.hypot to_sx to_sy in
  if Py.leb dist sr && Py.gtb dist 1e-6 then
    let pull_dir := (to_sx / dist, to_sy / dist) in
    let falloff := 1 - dist / sr in
    let accel_mag := strength * falloff ^ 2 / Ball.mass ball in
    let ax := fst pull_dir * accel_mag in
    let ay := snd pull_dir * accel_mag in
    let '(vx, vy) := Ball.velocity ball in
    Ball.set_velocity ball (vx + ax * dt, vy + ay * dt)
  else ball.

(** One axis of the bounce policy (lines 270-275, again 277-282). *)
Definition bounce_axis (p v r limit : R) : R * R :=
  if Py.ltb (p - r) 0 then (r, Rabs v)
  else if Py.gtb (p + r) limit then (limit - r, - Rabs v)
  else (p, v).

(** One axis of the wrap policy (lines 285-288, again 289-292). *)
Definition wrap_axis (p r limit : R) : R :=
  if Py.ltb p (- r) then limit + r
  else if Py.gtb p (limit + r) then - r
  else p.

(** Body of the motion loop (lines 261-295) for one ball. *)
Definition integrate (self : t) (dt damping : R) (ball : Ball.t) : Ball.t :=
  let '(gx, gy) := gravity self in
  let vx := fst (Ball.velocity ball) + gx * dt in
  let vy := snd (Ball.velocity ball) + gy * dt in
  let vx := vx * damping in
  let vy := vy * damping in
  let px := fst (Ball.position ball) + vx * dt in
  let py := snd (Ball.position ball) + vy * dt in
  let r := Ball.radius ball in
  if boundary_bounce self then
    let '(px, vx) := bounce_axis px vx r (world_width self) in
    let '(py, vy) := bounce_axis py vy r (world_height self) in
    Ball.set_velocity (Ball.set_position ball (px, py)) (vx, vy)
  else
    let px := wrap_axis px r (world_width self) in
    let py := wrap_axis py r (world_height self) in
    Ball.set_velocity (Ball.set_position ball (px, py)) (vx, vy).

(** The capture test of line 304. *)
Definition in_mouth (s : Suction.t) (ball : Ball.t) : bool :=
  let '(sx, sy) := Suction.position s in
  let '(bx, by_) := Ball.position ball in
  Py.leb (Py.hypot (bx - sx) (by_ - sy))
         (Py.max (Suction.capture_radius s) (Ball.radius ball * 0.8)).

(** Loop of lines 307-312; the state is (balls, inventory, captured ids). *)
Fixpoint capture_loop (to_capture : list string)
    (st : dict Ball.t * dict Ball.t * list string)
    : dict Ball.t * dict Ball.t * list string :=
  match to_capture with
  | [] => st
  | bid :: rest =>
      let '(balls, inventory, captured) := st in
      match dict_pop bid balls with
      | (None, _) => capture_loop rest st
      | (Some ball, balls') =>
          capture_loop rest (balls', dict_set bid ball inventory, captured ++ [bid])
      end
  end.

(** Body of the mixing loop (lines 320-325) for the objects at places [i] and
    [j] of [balls_list].  The list holds the very objects of [self._balls], so
    an assignment to [a.color_rgb] is seen by every later read of that ball,
    the one on line 324 included. *)
Definition mix_pair (mix_t : R) (st : dict Ball.t * list (string * string))
    (ij : nat * nat) : dict Ball.t * list (string * string) :=
  let '(balls, mixed_pairs) := st in
  let '(i, j) := ij in
  match nth_error (values balls) i, nth_error (values balls) j with
  | Some a, Some b =>
      let '(ax, ay) := Ball.position a in
      let '(bx, by_) := Ball.position b in
      if Py.leb (Py.hypot (ax - bx) (ay - by_)) (Ball.radius a + Ball.radius b)
      then
        let a' :=
          Ball.set_color_rgb a
            (_mix_color_towards (Ball.color_rgb a) (Ball.color_rgb b) mix_t) in
        let b' :=
          Ball.set_color_rgb b
            (_mix_color_towards (Ball.color_rgb b) (Ball.color_rgb a') mix_t) in
        (set_nth j b' (set_nth i a' balls),
         mixed_pairs ++ [(Ball.id a, Ball.id b)])
      else st
  | _, _ => st
  end.

(** Loop of lines 332-334; the state is (balls, deleted ids). *)
Fixpoint delete_loop (to_delete : list string)
    (st : dict Ball.t * list string) : dict Ball.t * list string :=
  match to_delete with
  | [] => st
  | bid :: rest =>
      let '(balls, deleted) := st in
      match dict_pop bid balls with
      | (None, _) => delete_loop rest st
      | (Some _, balls') => delete_loop rest (balls', deleted ++ [bid])
      end
  end.

(** Lines 232-295: suction forces, then motion and boundaries; [dt] is the
    clamped, non-zero step. *)
Definition after_motion (self : t) (dt : R) : dict Ball.t :=
  let damping := exp (- linear_damping_per_second self * dt) in
  let balls :=
    if Suction.is_active (_suction self)
    then dict_update_all (pull (_suction self) dt) (_balls self)
    else _balls self in
  dict_update_all (integrate self dt damping) balls.

(** Lines 298-312: capture, on the balls as the motion phase left them. *)
Definition after_capture (self : t) (balls : dict Ball.t)
    : dict Ball.t * dict Ball.t * list string :=
  if Suction.is_active (_suction self) then
    let to_capture :=
      map Ball.id (filter (in_mouth (_suction self)) (values balls)) in
    capture_loop to_capture (balls, _inventory self, [])
  else (balls, _inventory self, []).

(** Lines 315-325: colour mixing over all pairs. *)
Definition after_mixing (self : t) (dt : R) (balls : dict Ball.t)
    : dict Ball.t * list (string * string) :=
  let mix_t := _clamp (max_color_mix_factor_per_second self * dt) 0 0.75 in
  if Py.gtb mix_t 0 then
    fold_left (mix_pair mix_t) (combinations2 (seq 0 (List.length balls))) (balls, [])
  else (balls, []).

(** Lines 328-334: the delete-zone sweep. *)
Definition after_deletion (self : t) (balls : dict Ball.t)
    : dict Ball.t * list string :=
  let to_delete :=
    map Ball.id
      (filter (fun ball => Rect.contains_point (delete_zone self) (Ball.position ball))
         (values balls)) in
  delete_loop to_delete (balls, []).

Definition step (self : t) (dt : R) : t * StepResult.t :=
  let dt := Py.max 0 dt in
  if Py.eqb dt 0 then (self, StepResult.mk dt [] [] [] [])
  else
    let balls := after_motion self dt in
    let '(balls, inventory, captured_ball_ids) := after_capture self balls in
    let '(balls, mixed_pairs) := after_mixing self dt balls in
    let '(balls, deleted_ball_ids) := after_deletion self balls in
    (with_inventory (with_balls self balls) inventory,
     StepResult.mk dt mixed_pairs deleted_ball_ids captured_ball_ids []).

End GameLogic.

Definition create_default_logic (world_size : Z * Z) : GameLogic.t :=
  let '(w, h) := world_size in
  GameLogic.init (IZR w) (IZR h) None true 0.15 0.85 (0, 0).

(** ** Sequences of calls on a world *)

Inductive call : Type :=
| AddBall (uuid_hex : string) (position velocity : Vector) (radius : R)
    (color_rgb : ColorRGB) (ball_id : option string)
| RemoveBall (ball_id : string)
| SetDeleteZone (rect : Rect.t)
| StartSuction (position : Vector) (radius strength capture_radius : option R)
| UpdateSuction (position : Vector)
| StopSuction
| SpitNext (position direction : Vector) (speed : R)
| SpitSpecific (ball_id : string) (position direction : Vector) (speed : R)
| Step (dt : R).

Definition perform (g : GameLogic.t) (c : call) : GameLogic.t :=
  match c with
  | AddBall u p v r col bid => fst (GameLogic.add_ball g u p v r col bid)
  | RemoveBall bid => fst (GameLogic.remove_ball g bid)
  | SetDeleteZone rect => GameLogic.set_delete_zone g rect
  | StartSuction p r s c => GameLogic.start_suction g p r s c
  | UpdateSuction p => GameLogic.update_suction g p
  | StopSuction => GameLogic.stop_suction g
  | SpitNext p d s => fst (GameLogic.spit_next g p d s)
  | SpitSpecific bid p d s => fst (GameLogic.spit_specific g bid p d s)
  | Step dt => fst (GameLogic.step g dt)
  end.

(** The ids a call reports as created, and as destroyed: what [add_ball]
    returns, the id [remove_ball] answers [True] for, and the
    [deleted_ball_ids] of a step. *)
Definition created (g : GameLogic.t) (c : call) : list string :=
  match c with
  | AddBall u p v r col bid => [snd (GameLogic.add_ball g u p v r col bid)]
  | _ => []
  end.

Definition destroyed (g : GameLogic.t) (c : call) : list string :=
  match c with
  | RemoveBall bid => if snd (GameLogic.remove_ball g bid) then [bid] else []
  | Step dt => StepResult.deleted_ball_ids (snd (GameLogic.step g dt))
  | _ => []
  end.

Definition mem (k : string) (l : list string) : bool := existsb (String.eqb k) l.

(** The ids of [l] that are not keys of the dict [d], in the order of [l]. *)
Definition not_held {V : Type} (d : dict V) (l : list string) : list string :=
  filter (fun k => negb (mem k (keys d))) l.

(** The ids alive after a call: those alive before and not reported destroyed,
    and those reported created. *)
Definition alive_after (alive : list string) (g : GameLogic.t) (c : call)
    : list string :=
  filter (fun k => negb (mem k (destroyed g c))) alive ++ created g c.

Fixpoint run (g : GameLogic.t) (alive : list string) (calls : list call)
    : GameLogic.t * list string :=
  match calls with
  | [] => (g, alive)
  | c :: rest => run (perform g c) (alive_after alive g c) rest
  end.

(** No id is a key of both dicts. *)
Definition disjoint_homes (g : GameLogic.t) : Prop :=
  forall k, In k (keys (GameLogic._balls g)) ->
            ~ In k (keys (GameLogic._inventory g)).

(** The alive ids are the keys of the two dicts. *)
Definition alive_have_home (g : GameLogic.t) (alive : list string) : Prop :=
  forall k, In k alive <->
            In k (keys (GameLogic._balls g)) \/ In k (keys (GameLogic._inventory g)).

(** Every [add_ball] of the sequence is given (or draws) an id that is not a
    key of the inventory at the time of the call. *)
Fixpoint adds_avoid_inventory (g : GameLogic.t) (calls : list call) : Prop :=
  match calls with
  | [] => True
  | c :: rest =>
      match c with
      | AddBall u _ _ _ _ bid =>
          ~ In (GameLogic.assigned_id u bid) (keys (GameLogic._inventory g))
      | _ => True
      end
      /\ adds_avoid_inventory (perform g c) rest
  end.

(** A dict of balls is keyed by the balls' own ids, without repetition. *)
Definition keyed (d : dict Ball.t) : Prop :=
  NoDup (keys d) /\ Forall (fun kv => Ball.id (snd kv) = fst kv) d.

Definition wf (g : GameLogic.t) : Prop :=
  keyed (GameLogic._balls g) /\ keyed (GameLogic._inventory g).

Definition unit_color (c : ColorRGB) : Prop :=
  let '(r, g, b) := c in 0 <= r <= 1 /\ 0 <= g <= 1 /\ 0 <= b <= 1.

(** A ball with its colour painted over: what the mixing phase leaves alone. *)
Definition unpainted (b : Ball.t) : Ball.t := Ball.set_color_rgb b (0, 0, 0).

(** [n] consecutive calls of [spit_next] with the same arguments; the ids
    returned, in order. *)
Fixpoint spit_many (n : nat) (g : GameLogic.t) (position direction : Vector)
    (speed : R) : GameLogic.t * list string :=
  match n with
  | O => (g, [])
  | S n' =>
      match GameLogic.spit_next g position direction speed with
      | (g', None) => (g', [])
      | (g', Some k) =>
          let '(g'', ks) := spit_many n' g' position direction speed in
          (g'', k :: ks)
      end
  end.

(** What lines 232-295 make of one ball of the active set: the suction
    force when suction is on, then motion and the boundary policy. *)
Definition moved (g : GameLogic.t) (dt : R) (b : Ball.t) : Ball.t :=
  GameLogic.integrate g dt (exp (- GameLogic.linear_damping_per_second g * dt))
    (if Suction.is_active (GameLogic._suction g)
     then GameLogic.pull (GameLogic._suction g) dt b
     else b).

(** [b] is [a] up to its colour, which is either kept or a colour with
    channels in [[0,1]]. *)
Definition repainted (a b : Ball.t) : Prop :=
  unpainted a = unpainted b
  /\ (Ball.color_rgb b = Ball.color_rgb a \/ unit_color (Ball.color_rgb b)).

(** ** Sample worlds and call sequences *)

Definition grey (v : R) : ColorRGB := (v, v, v).

Definition sample_world : GameLogic.t := create_default_logic (200, 200)%Z.

(** A ball "a" resting at (50, 50). *)
Definition add_a : call :=
  AddBall "f00d" (50, 50) (0, 0) 10 (grey 0.5) (Some "a"%string).

(** The same ball under another id. *)
Definition add_b : call :=
  AddBall "f00d" (50, 50) (0, 0) 10 (grey 0.5) (Some "b"%string).

(** Ball "a" is added, the suction mouth is put on it, a step captures it. *)
Definition capture_a : list call :=
  [add_a; StartSuction (50, 50) None None None; Step 1].

Definition ball_a : Ball.t := Ball.init "a" (50, 50) (0, 0) 10 (grey 0.5).

(** The world of [capture_a] just before its step, and just after. *)
Definition world_a : GameLogic.t :=
  perform (perform sample_world add_a) (StartSuction (50, 50) None None None).

Definition world_a_captured : GameLogic.t :=
  GameLogic.with_inventory (GameLogic.with_balls world_a [])
    [("a"%string, ball_a)].

(** A ball "z" resting inside the default delete zone, the suction mouth on it. *)
Definition ball_z : Ball.t := Ball.init "z" (150, 150) (0, 0) 10 (grey 0.5).

Definition world_z : GameLogic.t :=
  perform
    (perform sample_world
       (AddBall "f00d" (150, 150) (0, 0) 10 (grey 0.5) (Some "z"%string)))
    (StartSuction (150, 150) None None None).

(** A ball as a spit hands it back: position and velocity overwritten
    (lines 198-203 and 211-215), every other field as it was. *)
Definition released (b : Ball.t) (position direction : Vector) (speed : R) : Ball.t :=
  Ball.set_velocity (Ball.set_position b (fst position, snd position))
    (fst (_normalize direction) * speed, snd (_normalize direction) * speed).

(** A ball after the suction phase (lines 236-257). *)
Definition pulled (g : GameLogic.t) (dt : R) (b : Ball.t) : Ball.t :=
  if Suction.is_active (GameLogic._suction g)
  then GameLogic.pull (GameLogic._suction g) dt b
  else b.

(** The velocity and position that lines 261-266 compute for a ball, before
    the boundary policy looks at them. *)
Definition integrated_velocity (g : GameLogic.t) (dt : R) (b : Ball.t) : Vector :=
  let damping := exp (- GameLogic.linear_damping_per_second g * dt) in
  ((fst (Ball.velocity (pulled g dt b)) + fst (GameLogic.gravity g) * dt) * damping,
   (snd (Ball.velocity (pulled g dt b)) + snd (GameLogic.gravity g) * dt) * damping).

Definition integrated_position (g : GameLogic.t) (dt : R) (b : Ball.t) : Vector :=
  (fst (Ball.position (pulled g dt b)) + fst (integrated_velocity g dt b) * dt,
   snd (Ball.position (pulled g dt b)) + snd (integrated_velocity g dt b) * dt).

(** A ball "e" resting across the right wall of the bouncing sample world. *)
Definition ball_e : Ball.t := Ball.init "e" (195, 50) (0, 0) 10 (grey 0.5).

Definition world_e : GameLogic.t :=
  perform sample_world
    (AddBall "f00d" (195, 50) (0, 0) 10 (grey 0.5) (Some "e"%string)).

(** A wrapping world without damping; a ball "w" beyond its right edge,
    moving on. *)
Definition ball_w : Ball.t := Ball.init "w" (215, 50) (3, 4) 10 (grey 0.5).

Definition world_w : GameLogic.t :=
  perform (GameLogic.init 200 200 None false 0 0.85 (0, 0))
    (AddBall "f00d" (215, 50) (3, 4) 10 (grey 0.5) (Some "w"%string)).

(** Two overlapping grey balls at rest, a dark "a" and a light "b", in a
    world that mixes at rate 0.5 per second. *)
Definition ball_ma : Ball.t := Ball.init "a" (50, 50) (0, 0) 10 (grey 0.2).
Definition ball_mb : Ball.t := Ball.init "b" (55, 50) (0, 0) 10 (grey 0.8).

Definition world_m : GameLogic.t :=
  perform
    (perform (GameLogic.init 200 200 None true 0.15 0.5 (0, 0))
       (AddBall "f00d" (50, 50) (0, 0) 10 (grey 0.2) (Some "a"%string)))
    (AddBall "f00d" (55, 50) (0, 0) 10 (grey 0.8) (Some "b"%string)).

(** The colours the mixing phase would hand to an overlapping pair if each
    ball were mixed toward the other's colour as it was before the pair was
    processed: the reading of the specification. *)
Definition symmetric_mix (a b : Ball.t) (mix_t : R) : ColorRGB * ColorRGB :=
  (_mix_color_towards (Ball.color_rgb a) (Ball.color_rgb b) mix_t,
   _mix_color_towards (Ball.color_rgb b) (Ball.color_rgb a) mix_t).

(** The state invariant behind the membership claims: neither dict repeats
    a key, no id is a key of both, and the alive ids are exactly the keys. *)
Definition homes_ok (g : GameLogic.t) (alive : list string) : Prop :=
  NoDup (keys (GameLogic._balls g))
  /\ NoDup (keys (GameLogic._inventory g))
  /\ disjoint_homes g
  /\ alive_have_home g alive.

(** The side condition of one call in [adds_avoid_inventory]. *)
Definition add_avoids_inventory (g : GameLogic.t) (c : call) : Prop :=
  match c with
  | AddBall u _ _ _ _ bid =>
      ~ In (GameLogic.assigned_id u bid) (keys (GameLogic._inventory g))
  | _ => True
  end.

(** The mass a ball of this radius is given at construction. *)
Definition mass_ok (b : Ball.t) : Prop :=
  Ball.mass b = Py.max 1e-6 (PI * Ball.radius b ^ 2).

(** Both dicts of a world hold only balls for which [P] holds. *)
Definition all_balls (P : Ball.t -> Prop) (g : GameLogic.t) : Prop :=
  (forall k b, In (k, b) (GameLogic._balls g) -> P b)
  /\ (forall k b, In (k, b) (GameLogic._inventory g) -> P b).

(** The settings given to the constructor. *)
Definition same_settings (g g' : GameLogic.t) : Prop :=
  GameLogic.world_width g' = GameLogic.world_width g
  /\ GameLogic.world_height g' = GameLogic.world_height g
  /\ GameLogic.boundary_bounce g' = GameLogic.boundary_bounce g
  /\ GameLogic.linear_damping_per_second g' = GameLogic.linear_damping_per_second g
  /\ GameLogic.max_color_mix_factor_per_second g'
     = GameLogic.max_color_mix_factor_per_second g
  /\ GameLogic.gravity g' = GameLogic.gravity g.

(** [xy] is the pair of ids of two balls at different places of [l] whose
    centres are no farther apart than the sum of their radii (the test of
    line 322). *)
Definition overlapping_pair_of (l : list Ball.t) (xy : string * string) : Prop :=
  exists i j a b,
    i <> j /\ nth_error l i = Some a /\ nth_error l j = Some b
    /\ xy = (Ball.id a, Ball.id b)
    /\ Py.hypot (fst (Ball.position a) - fst (Ball.position b))
                (snd (Ball.position a) - snd (Ball.position b))
       <= Ball.radius a + Ball.radius b.

(** ** The step in rounded arithmetic

    A [float] operation returns the representable number nearest to its exact
    result.  The definitions of module [Rounded] repeat the motion, capture
    and delete phases of [step] (lines 232-312 and 328-334) with a rounding
    [rnd] applied to the result of every arithmetic operation and to every
    literal that is not a whole number; [math.hypot], [math.exp] and [**]
    return the rounding of the exact value.  Comparisons, [abs], unary minus
    and [max] are exact on floats.  The colours play no part in where a ball
    is or whether it stays active, so the mixing phase is the one of
    [GameLogic].  With the identity for [rnd] the definitions are those of
    [GameLogic]. *)

(** What the proofs use of a rounding [rnd] with unit roundoff [u]: it is
    monotone, leaves representable numbers (those with [rnd x = x]) alone, and
    the sum and the difference of two representable numbers are rounded with
    a relative error of at most [u].  Round-to-nearest in binary64 has these
    properties with [u = 2^-53] as long as no result overflows; exact
    arithmetic has them with [u = 0]. *)
Record rounding (rnd : R -> R) (u : R) : Prop := {
  roundoff_range : 0 <= u < 1;
  rnd_monotone : forall x y, x <= y -> rnd x <= rnd y;
  rnd_idempotent : forall x, rnd (rnd x) = rnd x;
  rnd_add_error :
    forall x y, rnd x = x -> rnd y = y ->
                Rabs (rnd (x + y) - (x + y)) <= u * Rabs (x + y);
  rnd_sub_error :
    forall x y, rnd x = x -> rnd y = y ->
                Rabs (rnd (x - y) - (x - y)) <= u * Rabs (x - y)
}.

Module Rounded.
Section Arithmetic.
Variable rnd : R -> R.

(** [math.hypot(x, y)] *)
Definition hypot (x y : R) : R := rnd (Py.hypot x y).

(** Body of the suction-force loop (lines 243-257) for one ball. *)
Definition pull (s : Suction.t) (dt : R) (ball : Ball.t) : Ball.t :=
  let '(sx, sy) := Suction.position s in
  let sr := Suction.radius s in
  let strength := Suction.strength s in
  let '(bx, by_) := Ball.position ball in
  let to_sx := rnd (sx - bx) in
  let to_sy := rnd (sy - by_) in
  let dist := hypot to_sx to_sy in
  if Py.leb dist sr && Py.gtb dist (rnd 1e-6) then
    let pull_dir := (rnd (to_sx / dist), rnd (to_sy / dist)) in
    let falloff := rnd (1 - rnd (dist / sr)) in
    let accel_mag := rnd (rnd (strength * rnd (falloff ^ 2)) / Ball.mass ball) in
    let ax := rnd (fst pull_dir * accel_mag) in
    let ay := rnd (snd pull_dir * accel_mag) in
    let '(vx, vy) := Ball.velocity ball in
    Ball.set_velocity ball (rnd (vx + rnd (ax * dt)), rnd (vy + rnd (ay * dt)))
  else ball.

(** One axis of the bounce policy (lines 270-275, again 277-282). *)
Definition bounce_axis (p v r limit : R) : R * R :=
  if Py.ltb (rnd (p - r)) 0 then (r, Rabs v)
  else if Py.gtb (rnd (p + r)) limit then (rnd (limit - r), - Rabs v)
  else (p, v).

(** One axis of the wrap policy (lines 285-288, again 289-292). *)
Definition wrap_axis (p r limit : R) : R :=
  if Py.ltb p (- r) then rnd (limit + r)
  else if Py.gtb p (rnd (limit + r)) then - r
  else p.

(** Body of the motion loop (lines 261-295) for one ball. *)
Definition integrate (self : GameLogic.t) (dt damping : R) (ball : Ball.t) : Ball.t :=
  let '(gx, gy) := GameLogic.gravity self in
  let vx := rnd (fst (Ball.velocity ball) + rnd (gx * dt)) in
  let vy := rnd (snd (Ball.velocity ball) + rnd (gy * dt)) in
  let vx := rnd (vx * damping) in
  let vy := rnd (vy * damping) in
  let px := rnd (fst (Ball.position ball) + rnd (vx * dt)) in
  let py := rnd (snd (Ball.position ball) + rnd (vy * dt)) in
  let r := Ball.radius ball in
  if GameLogic.boundary_bounce self then
    let '(px, vx) := bounce_axis px vx r (GameLogic.world_width self) in
    let '(py, vy) := bounce_axis py vy r (GameLogic.world_height self) in
    Ball.set_velocity (Ball.set_position ball (px, py)) (vx, vy)
  else
    let px := wrap_axis px r (GameLogic.world_width self) in
    let py := wrap_axis py r (GameLogic.world_height self) in
    Ball.set_velocity (Ball.set_position ball (px, py)) (vx, vy).

(** What lines 232-295 make of one ball of the active set. *)
Definition moved (self : GameLogic.t) (dt : R) (ball : Ball.t) : Ball.t :=
  integrate self dt
    (rnd (exp (rnd (- GameLogic.linear_damping_per_second self * dt))))
    (if Suction.is_active (GameLogic._suction self)
     then pull (GameLogic._suction self) dt ball
     else ball).

(** Lines 232-295: suction forces, then motion and boundaries. *)
Definition after_motion (self : GameLogic.t) (dt : R) : dict Ball.t :=
  let damping := rnd (exp (rnd (- GameLogic.linear_damping_per_second self * dt))) in
  let balls :=
    if Suction.is_active (GameLogic._suction self)
    then dict_update_all (pull (GameLogic._suction self) dt) (GameLogic._balls self)
    else GameLogic._balls self in
  dict_update_all (integrate self dt damping) balls.

(** The capture test of line 304. *)
Definition in_mouth (s : Suction.t) (ball : Ball.t) : bool :=
  let '(sx, sy) := Suction.position s in
  let '(bx, by_) := Ball.position ball in
  Py.leb (hypot (rnd (bx - sx)) (rnd (by_ - sy)))
         (Py.max (Suction.capture_radius s) (rnd (Ball.radius ball * rnd 0.8))).

(** Lines 298-312: capture, on the balls as the motion phase left them. *)
Definition after_capture (self : GameLogic.t) (balls : dict Ball.t)
    : dict Ball.t * dict Ball.t * list string :=
  if Suction.is_active (GameLogic._suction self) then
    let to_capture :=
      map Ball.id (filter (in_mouth (GameLogic._suction self)) (values balls)) in
    GameLogic.capture_loop to_capture (balls, GameLogic._inventory self, [])
  else (balls, GameLogic._inventory self, []).

(** [Rect.contains_point] *)
Definition contains_point (self : Rect.t) (point : Vector) : bool :=
  let '(px, py) := point in
  (Py.leb (Rect.x self) px && Py.leb px (rnd (Rect.x self + Rect.width self)))
  && (Py.leb (Rect.y self) py && Py.leb py (rnd (Rect.y self + Rect.height self))).

(** Lines 328-334: the delete-zone sweep. *)
Definition after_deletion (self : GameLogic.t) (balls : dict Ball.t)
    : dict Ball.t * list string :=
  let to_delete :=
    map Ball.id
      (filter (fun ball => contains_point (GameLogic.delete_zone self) (Ball.position ball))
         (values balls)) in
  GameLogic.delete_loop to_delete (balls, []).

Definition step (self : GameLogic.t) (dt : R) : GameLogic.t * StepResult.t :=
  let dt := Py.max 0 dt in
  if Py.eqb dt 0 then (self, StepResult.mk dt [] [] [] [])
  else
    let balls := after_motion self dt in
    let '(balls, inventory, captured_ball_ids) := after_capture self balls in
    let '(balls, mixed_pairs) := GameLogic.after_mixing self dt balls in
    let '(balls, deleted_ball_ids) := after_deletion self balls in
    (GameLogic.with_inventory (GameLogic.with_balls self balls) inventory,
     StepResult.mk dt mixed_pairs deleted_ball_ids captured_ball_ids []).

End Arithmetic.
End Rounded.

(** ** The motion of one ball in binary64

    Lines 261-295 for one ball on the kernel's binary64 numbers, on which the
    operations round as Python's [float] operations do.  [damping] is the
    value line 232 got from [math.exp]; for a damping rate of 0 that is
    [exp(-0.0) = 1.0]. *)

Module Float64.

Definition bounce_axis (p v r limit : float) : float * float :=
  if PrimFloat.ltb (PrimFloat.sub p r) PrimFloat.zero then (r, PrimFloat.abs v)
  else if PrimFloat.ltb limit (PrimFloat.add p r)
       then (PrimFloat.sub limit r, PrimFloat.opp (PrimFloat.abs v))
       else (p, v).

Definition wrap_axis (p r limit : float) : float :=
  if PrimFloat.ltb p (PrimFloat.opp r) then PrimFloat.add limit r
  else if PrimFloat.ltb (PrimFloat.add limit r) p then PrimFloat.opp r
  else p.

(** The position and the velocity that lines 261-295 store in a ball. *)
Definition integrate (world_width world_height : float) (boundary_bounce : bool)
    (gravity : float * float) (dt damping : float)
    (position velocity : float * float) (radius : float)
    : (float * float) * (float * float) :=
  let '(gx, gy) := gravity in
  let vx := PrimFloat.add (fst velocity) (PrimFloat.mul gx dt) in
  let vy := PrimFloat.add (snd velocity) (PrimFloat.mul gy dt) in
  let vx := PrimFloat.mul vx damping in
  let vy := PrimFloat.mul vy damping in
  let px := PrimFloat.add (fst position) (PrimFloat.mul vx dt) in
  let py := PrimFloat.add (snd position) (PrimFloat.mul vy dt) in
  if boundary_bounce then
    let '(px, vx) := bounce_axis px vx radius world_width in
    let '(py, vy) := bounce_axis py vy radius world_height in
    ((px, py), (vx, vy))
  else
    let px := wrap_axis px radius world_width in
    let py := wrap_axis py radius world_height in
    ((px, py), (vx, vy)).

(** [Rect.contains_point] *)
Definition contains_point (x y width height : float) (point : float * float) : bool :=
  let '(px, py) := point in
  (PrimFloat.leb x px && PrimFloat.leb px (PrimFloat.add x width))
  && (PrimFloat.leb y py && PrimFloat.leb py (PrimFloat.add y height)).

End Float64.

(** A ball of radius 100 at (199.00000000000003, 150), the first coordinate
    being the float that follows 199, with velocity (1, 0), in a bouncing
    world of 300 by 300 without gravity, suction or damping: its position and
    velocity after the motion phase of [step(1.0)]. *)
Definition moved_o : (float * float) * (float * float) :=
  Float64.integrate 300%float 300%float true (0%float, 0%float) 1%float 1%float
    (0x1.8e00000000001p+7%float, 150%float) (1%float, 0%float) 100%float.

(** A rounding that is not exact, for trying the definitions of [Rounded]:
    numbers up to 256 in absolute value are kept, larger ones go to the
    nearest even whole number (the upper one of two equally near). *)
Definition coarse (x : R) : R :=
  if Rle_dec (Rabs x) 256 then x else 2 * IZR (Int_part (x / 2 + 1 / 2)).

(** A ball "o" of radius 100 at (199.5, 150) moving right at speed 1, in a
    bouncing world of 300 by 300 without damping. *)
Definition ball_o : Ball.t := Ball.init "o" (199.5, 150) (1, 0) 100 (grey 0.5).

Definition world_o : GameLogic.t :=
  perform (GameLogic.init 300 300 None true 0 0.85 (0, 0))
    (AddBall "f00d" (199.5, 150) (1, 0) 100 (grey 0.5) (Some "o"%string)).

(** * Properties *)

(** ** Comparisons, [max], [min] and [_clamp] *)

Lemma ltb_true (a b : R) : a < b -> Py.ltb a b = true.
Proof. intros H. unfold Py.ltb. destruct (Rlt_dec a b); [reflexivity | contradiction]. Qed.

Lemma ltb_false (a b : R) : b <= a -> Py.ltb a b = false.
Proof. intros H. unfold Py.ltb. destruct (Rlt_dec a b); [lra | reflexivity]. Qed.

Lemma leb_true (a b : R) : a <= b -> Py.leb a b = true.
Proof. intros H. unfold Py.leb. destruct (Rle_dec a b); [reflexivity | contradiction]. Qed.

Lemma leb_false (a b : R) : b < a -> Py.leb a b = false.
Proof. intros H. unfold Py.leb. destruct (Rle_dec a b); [lra | reflexivity]. Qed.

Lemma eqb_true (a b : R) : a = b -> Py.eqb a b = true.
Proof. intros H. unfold Py.eqb. destruct (Req_dec_T a b); [reflexivity | contradiction]. Qed.

Lemma eqb_false (a b : R) : a <> b -> Py.eqb a b = false.
Proof. intros H. unfold Py.eqb. destruct (Req_dec_T a b); [contradiction | reflexivity]. Qed.

Lemma max_is_Rmax (a b : R) : Py.max a b = Rmax a b.
Proof.
  unfold Py.max, Py.gtb, Py.ltb.
  destruct (Rlt_dec a b); [rewrite Rmax_right | rewrite Rmax_left]; lra.
Qed.

Lemma min_is_Rmin (a b : R) : Py.min a b = Rmin a b.
Proof.
  unfold Py.min, Py.ltb.
  destruct (Rlt_dec b a); [rewrite Rmin_right | rewrite Rmin_left]; lra.
Qed.

Lemma clamp_range (value lo hi : R) :
  lo <= hi -> lo <= _clamp value lo hi <= hi.
Proof.
  intros H. unfold _clamp. rewrite max_is_Rmax, min_is_Rmin.
  split.
  - apply Rmax_l.
  - apply Rmax_lub; [assumption | apply Rmin_l].
Qed.

Lemma clamp_inside (value lo hi : R) :
  lo <= value <= hi -> _clamp value lo hi = value.
Proof.
  intros [H1 H2]. unfold _clamp. rewrite max_is_Rmax, min_is_Rmin.
  rewrite Rmin_right by assumption. apply Rmax_right; assumption.
Qed.

(** Evaluation of comparisons between concrete reals. *)
Ltac decide_cmp :=
  repeat match goal with
  | |- context [Py.ltb ?a ?b] =>
      first [ rewrite (ltb_true a b) by lra | rewrite (ltb_false a b) by lra ]
  | |- context [Py.leb ?a ?b] =>
      first [ rewrite (leb_true a b) by lra | rewrite (leb_false a b) by lra ]
  | |- context [Py.eqb ?a ?b] =>
      first [ rewrite (eqb_true a b) by lra | rewrite (eqb_false a b) by lra ]
  end.

(** ** Dicts *)

Section DictFacts.
Context {V : Type}.
Implicit Types (d : dict V) (k : string) (v : V).

Lemma dict_get_none k d : dict_get k d = None <-> ~ In k (keys d).
Proof.
  induction d as [|[k' v'] d IH]; simpl.
  - split; auto.
  - destruct (String.eqb_spec k k') as [->|Hne].
    + split; [discriminate | intros H; exfalso; apply H; now left].
    + rewrite IH. split; intros H; [intros [E|I]; [congruence | auto] | auto].
Qed.

Lemma dict_get_in k v d : dict_get k d = Some v -> In (k, v) d.
Proof.
  induction d as [|[k' v'] d IH]; simpl; [discriminate|].
  destruct (String.eqb_spec k k') as [->|Hne].
  - intros [= ->]. now left.
  - intros H. right. auto.
Qed.

Lemma in_dict_get k v d : NoDup (keys d) -> In (k, v) d -> dict_get k d = Some v.
Proof.
  induction d as [|[k' v'] d IH]; simpl; [contradiction|].
  intros Hnd [E|I].
  - inversion E; subst. now rewrite String.eqb_refl.
  - inversion Hnd as [|? ? Hk Hd]; subst.
    destruct (String.eqb_spec k k') as [->|Hne].
    + exfalso. apply Hk. change k' with (fst (k', v)). now apply in_map.
    + auto.
Qed.

Lemma in_keys k v d : In (k, v) d -> In k (keys d).
Proof. intros H. change k with (fst (k, v)). now apply in_map. Qed.

Lemma keys_dict_set k v d :
  keys (dict_set k v d) = if mem k (keys d) then keys d else keys d ++ [k].
Proof.
  induction d as [|[k' v'] d IH]; simpl; [reflexivity|].
  destruct (String.eqb_spec k k') as [->|Hne]; simpl; [reflexivity|].
  rewrite IH. fold (mem k (keys d)). now destruct (mem k (keys d)).
Qed.

Lemma mem_iff k (l : list string) : mem k l = true <-> In k l.
Proof.
  unfold mem. rewrite existsb_exists. split.
  - intros (x & Hx & E). apply String.eqb_eq in E. now subst.
  - intros H. exists k. split; [assumption | apply String.eqb_refl].
Qed.

Lemma in_keys_dict_set k k' v d :
  In k' (keys (dict_set k v d)) <-> k' = k \/ In k' (keys d).
Proof.
  rewrite keys_dict_set. destruct (mem k (keys d)) eqn:E.
  - apply mem_iff in E. split; [auto | intros [->|H]; auto].
  - rewrite in_app_iff. simpl. intuition.
Qed.

Lemma nodup_dict_set k v d : NoDup (keys d) -> NoDup (keys (dict_set k v d)).
Proof.
  intros H. rewrite keys_dict_set. destruct (mem k (keys d)) eqn:E; [assumption|].
  assert (Hn : ~ In k (keys d)) by (rewrite <- mem_iff; congruence).
  clear E. induction (keys d) as [|x l IH]; simpl.
  - constructor; [auto | constructor].
  - inversion H; subst. constructor.
    + rewrite in_app_iff. simpl. intros [I|[E|[]]]; [auto | subst; apply Hn; now left].
    + apply IH; [assumption | intros I; apply Hn; now right].
Qed.

Lemma dict_get_set_same k v d : dict_get k (dict_set k v d) = Some v.
Proof.
  induction d as [|[k' v'] d IH]; simpl.
  - now rewrite String.eqb_refl.
  - destruct (String.eqb_spec k k') as [->|Hne]; simpl.
    + now rewrite String.eqb_refl.
    + destruct (String.eqb_spec k k'); [contradiction | assumption].
Qed.

Lemma dict_get_set_other k k' v d :
  k' <> k -> dict_get k' (dict_set k v d) = dict_get k' d.
Proof.
  intros Hne. induction d as [|[k0 v0] d IH]; simpl.
  - destruct (String.eqb_spec k' k); [contradiction | reflexivity].
  - destruct (String.eqb_spec k k0) as [->|Hne0]; simpl.
    + destruct (String.eqb_spec k' k0); [contradiction | reflexivity].
    + destruct (String.eqb_spec k' k0); [reflexivity | assumption].
Qed.

End DictFacts.

Section DictMoreFacts.
Context {V : Type}.
Implicit Types (d : dict V) (k : string) (v : V).

Lemma dict_del_absent k d : ~ In k (keys d) -> dict_del k d = d.
Proof.
  induction d as [|[k' v'] d IH]; simpl; [reflexivity|].
  intros H. destruct (String.eqb_spec k k') as [->|Hne].
  - exfalso. apply H. now left.
  - f_equal. apply IH. intros I. apply H. now right.
Qed.

Lemma in_dict_del_sub (kv : string * V) k d : In kv (dict_del k d) -> In kv d.
Proof.
  induction d as [|[k' v'] d IH]; simpl; [auto|].
  destruct (String.eqb_spec k k'); [now right|].
  intros [E|I]; [now left | right; auto].
Qed.

Lemma in_dict_del k k' v d :
  NoDup (keys d) ->
  (In (k', v) (dict_del k d) <-> k' <> k /\ In (k', v) d).
Proof.
  induction d as [|[k0 v0] d IH]; simpl; [intuition|].
  intros Hnd. inversion Hnd as [|? ? Hk Hd]; subst.
  destruct (String.eqb_spec k k0) as [->|Hne].
  - split.
    + intros I. split; [|now right].
      intros ->. apply Hk. now apply in_keys with v.
    + intros [Hne [E|I]]; [congruence | assumption].
  - simpl. rewrite IH by assumption. split.
    + intros [E|[H1 H2]]; [inversion E; subst; split; [congruence | now left] | split; [assumption | now right]].
    + intros [H1 [E|I]]; [now left | right; split; assumption].
Qed.

Lemma in_keys_dict_del k k' d :
  NoDup (keys d) ->
  (In k' (keys (dict_del k d)) <-> k' <> k /\ In k' (keys d)).
Proof.
  intros Hnd. unfold keys. rewrite !in_map_iff. split.
  - intros ([k0 v0] & E & I). simpl in E. subst k0.
    apply in_dict_del in I; [|assumption]. destruct I as [H1 H2].
    split; [assumption | exists (k', v0); auto].
  - intros [Hne ([k0 v0] & E & I)]. simpl in E. subst k0.
    exists (k', v0). split; [reflexivity | apply in_dict_del; auto].
Qed.

Lemma nodup_dict_del k d : NoDup (keys d) -> NoDup (keys (dict_del k d)).
Proof.
  induction d as [|[k' v'] d IH]; simpl; [auto|].
  intros Hnd. inversion Hnd as [|? ? Hk Hd]; subst.
  destruct (String.eqb_spec k k'); [assumption|].
  simpl. constructor; [|auto].
  intros I. apply Hk. apply in_keys_dict_del in I; tauto.
Qed.

Lemma dict_get_del_other k k' d :
  k' <> k -> dict_get k' (dict_del k d) = dict_get k' d.
Proof.
  intros Hne. induction d as [|[k0 v0] d IH]; simpl; [reflexivity|].
  destruct (String.eqb_spec k k0) as [->|Hne0]; simpl.
  - destruct (String.eqb_spec k' k0); [contradiction | reflexivity].
  - destruct (String.eqb_spec k' k0); [reflexivity | assumption].
Qed.

Lemma dict_get_del_same k d : NoDup (keys d) -> dict_get k (dict_del k d) = None.
Proof.
  intros Hnd. apply dict_get_none. rewrite in_keys_dict_del by assumption. tauto.
Qed.

Lemma in_dict_set k k' v v' d :
  In (k', v') (dict_set k v d) -> (k' = k /\ v' = v) \/ In (k', v') d.
Proof.
  induction d as [|[k0 v0] d IH]; simpl.
  - intros [E|[]]. inversion E. auto.
  - destruct (String.eqb_spec k k0) as [->|Hne]; simpl.
    + intros [E|I]; [inversion E; auto | auto].
    + intros [E|I]; [auto | destruct (IH I); auto].
Qed.

Lemma Forall_dict_set (P : string * V -> Prop) k v d :
  Forall P d -> P (k, v) -> Forall P (dict_set k v d).
Proof.
  intros Hd Hp. induction Hd as [|[k0 v0] d H0 Hd IH]; simpl.
  - constructor; [assumption | constructor].
  - destruct (String.eqb_spec k k0) as [->|Hne]; constructor; assumption.
Qed.

Lemma Forall_dict_del (P : string * V -> Prop) k d :
  Forall P d -> Forall P (dict_del k d).
Proof.
  intros Hd. rewrite Forall_forall in *. intros kv I.
  apply Hd. now apply in_dict_del_sub with k.
Qed.

Lemma keys_update_all (f : V -> V) d : keys (dict_update_all f d) = keys d.
Proof.
  unfold keys, dict_update_all. rewrite map_map. simpl. reflexivity.
Qed.

Lemma in_update_all (f : V -> V) k v' d :
  In (k, v') (dict_update_all f d) <-> exists v, In (k, v) d /\ v' = f v.
Proof.
  unfold dict_update_all. rewrite in_map_iff. split.
  - intros ([k0 v0] & E & I). simpl in E. inversion E; subst. eauto.
  - intros (v & I & ->). exists (k, v). auto.
Qed.

Lemma keys_set_nth i v d : keys (set_nth i v d) = keys d.
Proof.
  revert i. induction d as [|[k0 v0] d IH]; intros [|i]; simpl; try reflexivity.
  now rewrite IH.
Qed.

Lemma length_set_nth i v d : List.length (set_nth i v d) = List.length d.
Proof.
  revert i. induction d as [|[k0 v0] d IH]; intros [|i]; simpl; try reflexivity.
  now rewrite IH.
Qed.

End DictMoreFacts.

(** ** The capture loop *)

Lemma capture_loop_cons bid rest balls inv cap :
  GameLogic.capture_loop (bid :: rest) (balls, inv, cap)
  = match dict_get bid balls with
    | None => GameLogic.capture_loop rest (balls, inv, cap)
    | Some ball =>
        GameLogic.capture_loop rest
          (dict_del bid balls, dict_set bid ball inv, cap ++ [bid])
    end.
Proof. simpl. unfold dict_pop. now destruct (dict_get bid balls). Qed.

Lemma capture_loop_balls to_capture :
  forall balls inv cap balls' inv' cap',
  GameLogic.capture_loop to_capture (balls, inv, cap) = (balls', inv', cap') ->
  NoDup (keys balls) ->
  NoDup (keys balls')
  /\ forall k b, In (k, b) balls' <-> In (k, b) balls /\ ~ In k to_capture.
Proof.
  induction to_capture as [|bid rest IH]; intros balls inv cap balls' inv' cap' E Hnd.
  - simpl in E. inversion E; subst. split; [assumption | intuition].
  - rewrite capture_loop_cons in E. destruct (dict_get bid balls) as [ball|] eqn:G.
    + apply IH in E; [|now apply nodup_dict_del]. destruct E as [H1 H2].
      split; [assumption|]. intros k b. rewrite H2, in_dict_del by assumption.
      simpl. intuition.
    + apply IH in E; [|assumption]. destruct E as [H1 H2].
      split; [assumption|]. intros k b. rewrite H2. simpl.
      apply dict_get_none in G. split.
      * intros [I N]. split; [assumption|]. intros [->|I']; [|auto].
        apply G. now apply in_keys with b.
      * intuition.
Qed.

Lemma capture_loop_inventory_keys to_capture :
  forall balls inv cap balls' inv' cap',
  GameLogic.capture_loop to_capture (balls, inv, cap) = (balls', inv', cap') ->
  NoDup (keys balls) ->
  (NoDup (keys inv) -> NoDup (keys inv'))
  /\ forall k, In k (keys inv') <->
               In k (keys inv) \/ (In k (keys balls) /\ In k to_capture).
Proof.
  induction to_capture as [|bid rest IH]; intros balls inv cap balls' inv' cap' E Hnd.
  - simpl in E. inversion E; subst. split; [auto | simpl; intuition].
  - rewrite capture_loop_cons in E. destruct (dict_get bid balls) as [ball|] eqn:G.
    + apply IH in E; [|now apply nodup_dict_del]. destruct E as [H1 H2].
      split; [intros H; apply H1; now apply nodup_dict_set|].
      intros k. rewrite H2, in_keys_dict_set, in_keys_dict_del by assumption.
      assert (Hb : In bid (keys balls)) by (apply dict_get_in in G; now apply in_keys with ball).
      simpl. destruct (String.eqb_spec k bid) as [->|Hne]; intuition congruence.
    + apply IH in E; [|assumption]. destruct E as [H1 H2].
      split; [assumption|]. intros k. rewrite H2. simpl.
      apply dict_get_none in G. intuition congruence.
Qed.

Lemma capture_loop_captured to_capture :
  forall balls inv cap balls' inv' cap',
  GameLogic.capture_loop to_capture (balls, inv, cap) = (balls', inv', cap') ->
  NoDup (keys balls) ->
  forall k, In k cap' <-> In k cap \/ (In k (keys balls) /\ In k to_capture).
Proof.
  induction to_capture as [|bid rest IH]; intros balls inv cap balls' inv' cap' E Hnd k.
  - simpl in E. inversion E; subst. simpl. intuition.
  - rewrite capture_loop_cons in E. destruct (dict_get bid balls) as [ball|] eqn:G.
    + rewrite (IH _ _ _ _ _ _ E) by now apply nodup_dict_del.
      rewrite in_app_iff, in_keys_dict_del by assumption.
      assert (Hb : In bid (keys balls)) by (apply dict_get_in in G; now apply in_keys with ball).
      simpl. destruct (String.eqb_spec k bid) as [->|Hne]; intuition congruence.
    + rewrite (IH _ _ _ _ _ _ E) by assumption. simpl.
      apply dict_get_none in G. intuition congruence.
Qed.

Lemma capture_loop_inventory_entries to_capture :
  forall balls inv cap balls' inv' cap',
  GameLogic.capture_loop to_capture (balls, inv, cap) = (balls', inv', cap') ->
  forall k b, In (k, b) inv' -> In (k, b) inv \/ In (k, b) balls.
Proof.
  induction to_capture as [|bid rest IH]; intros balls inv cap balls' inv' cap' E k b I.
  - simpl in E. inversion E; subst. now left.
  - rewrite capture_loop_cons in E. destruct (dict_get bid balls) as [ball|] eqn:G.
    + destruct (IH _ _ _ _ _ _ E k b I) as [H|H].
      * apply in_dict_set in H. destruct H as [[-> ->]|H]; [|now left].
        right. now apply dict_get_in.
      * right. now apply in_dict_del_sub with bid.
    + eapply IH; eassumption.
Qed.

(** When no active id is an inventory key, the loop appends the captured
    entries to the inventory, in the order it records them. *)
Lemma capture_loop_appends to_capture :
  forall balls inv cap balls' inv' cap',
  GameLogic.capture_loop to_capture (balls, inv, cap) = (balls', inv', cap') ->
  NoDup (keys balls) ->
  (forall k, In k (keys balls) -> ~ In k (keys inv)) ->
  exists new, cap' = cap ++ new /\ keys inv' = keys inv ++ new.
Proof.
  induction to_capture as [|bid rest IH]; intros balls inv cap balls' inv' cap' E Hnd Hdis.
  - simpl in E. inversion E; subst. exists []. now rewrite !app_nil_r.
  - rewrite capture_loop_cons in E. destruct (dict_get bid balls) as [ball|] eqn:G.
    + assert (Hb : In bid (keys balls)) by (apply dict_get_in in G; now apply in_keys with ball).
      apply IH in E; [|now apply nodup_dict_del|].
      * destruct E as (new & -> & ->). exists (bid :: new).
        rewrite keys_dict_set.
        destruct (mem bid (keys inv)) eqn:M; [apply mem_iff in M; now apply Hdis in Hb|].
        now rewrite <- !app_assoc.
      * intros k. rewrite in_keys_dict_del, in_keys_dict_set by assumption.
        intros [Hne I] [->|I']; [congruence | now apply (Hdis k)].
    + eapply IH; eassumption.
Qed.

(** In general the loop appends the captured ids that the inventory does not
    hold yet, in the order it records them; an id that is already an inventory
    key keeps its place there (line 311 then replaces the ball held under
    it). *)
Lemma capture_loop_appends_new to_capture :
  forall balls inv cap balls' inv' cap',
  GameLogic.capture_loop to_capture (balls, inv, cap) = (balls', inv', cap') ->
  NoDup (keys balls) ->
  exists new, cap' = cap ++ new
              /\ (forall k, In k new -> In k (keys balls))
              /\ keys inv' = keys inv ++ not_held inv new.
Proof.
  induction to_capture as [|bid rest IH]; intros balls inv cap balls' inv' cap' E Hnd.
  - simpl in E. inversion E; subst. exists []. simpl.
    split; [now rewrite app_nil_r|]. split; [intros k []|].
    unfold not_held. simpl. now rewrite app_nil_r.
  - rewrite capture_loop_cons in E. destruct (dict_get bid balls) as [ball|] eqn:G.
    + assert (Hb : In bid (keys balls))
        by (apply dict_get_in in G; now apply in_keys with ball).
      apply IH in E; [|now apply nodup_dict_del].
      destruct E as (new & -> & Hin & Hk). exists (bid :: new).
      split; [now rewrite <- app_assoc|]. split.
      * intros k [<-|I]; [assumption|].
        apply Hin in I. now apply in_keys_dict_del in I.
      * assert (Hnew : ~ In bid new).
        { intros I. apply Hin in I. apply in_keys_dict_del in I; [|assumption].
          now destruct I. }
        assert (Hf : not_held (dict_set bid ball inv) new = not_held inv new).
        { unfold not_held. apply filter_ext_in. intros k I.
          rewrite keys_dict_set. destruct (mem bid (keys inv)); [reflexivity|].
          f_equal. unfold mem. rewrite existsb_app. simpl.
          destruct (String.eqb_spec k bid) as [->|Hne]; [contradiction|].
          now rewrite !orb_false_r. }
        rewrite Hk, Hf, keys_dict_set. unfold not_held at 2. simpl.
        destruct (mem bid (keys inv)); simpl; [reflexivity|].
        now rewrite <- app_assoc.
    + eapply IH; eassumption.
Qed.

(** ** The delete loop *)

Lemma delete_loop_cons bid rest balls del :
  GameLogic.delete_loop (bid :: rest) (balls, del)
  = match dict_get bid balls with
    | None => GameLogic.delete_loop rest (balls, del)
    | Some _ => GameLogic.delete_loop rest (dict_del bid balls, del ++ [bid])
    end.
Proof. simpl. unfold dict_pop. now destruct (dict_get bid balls). Qed.

Lemma delete_loop_balls to_delete :
  forall balls del balls' del',
  GameLogic.delete_loop to_delete (balls, del) = (balls', del') ->
  NoDup (keys balls) ->
  NoDup (keys balls')
  /\ forall k b, In (k, b) balls' <-> In (k, b) balls /\ ~ In k to_delete.
Proof.
  induction to_delete as [|bid rest IH]; intros balls del balls' del' E Hnd.
  - simpl in E. inversion E; subst. split; [assumption | intuition].
  - rewrite delete_loop_cons in E. destruct (dict_get bid balls) as [ball|] eqn:G.
    + apply IH in E; [|now apply nodup_dict_del]. destruct E as [H1 H2].
      split; [assumption|]. intros k b. rewrite H2, in_dict_del by assumption.
      simpl. intuition.
    + apply IH in E; [|assumption]. destruct E as [H1 H2].
      split; [assumption|]. intros k b. rewrite H2. simpl.
      apply dict_get_none in G. split.
      * intros [I N]. split; [assumption|]. intros [->|I']; [|auto].
        apply G. now apply in_keys with b.
      * intuition.
Qed.

Lemma delete_loop_deleted to_delete :
  forall balls del balls' del',
  GameLogic.delete_loop to_delete (balls, del) = (balls', del') ->
  NoDup (keys balls) ->
  forall k, In k del' <-> In k del \/ (In k (keys balls) /\ In k to_delete).
Proof.
  induction to_delete as [|bid rest IH]; intros balls del balls' del' E Hnd k.
  - simpl in E. inversion E; subst. simpl. intuition.
  - rewrite delete_loop_cons in E. destruct (dict_get bid balls) as [ball|] eqn:G.
    + rewrite (IH _ _ _ _ E) by now apply nodup_dict_del.
      rewrite in_app_iff, in_keys_dict_del by assumption.
      assert (Hb : In bid (keys balls)) by (apply dict_get_in in G; now apply in_keys with ball).
      simpl. destruct (String.eqb_spec k bid) as [->|Hne]; intuition congruence.
    + rewrite (IH _ _ _ _ E) by assumption. simpl.
      apply dict_get_none in G. intuition congruence.
Qed.

Lemma in_keys_iff {V : Type} (k : string) (d : dict V) :
  In k (keys d) <-> exists v, In (k, v) d.
Proof.
  unfold keys. rewrite in_map_iff. split.
  - intros ([k0 v] & E & I). simpl in E. subst. eauto.
  - intros (v & I). exists (k, v). auto.
Qed.

(** ** The mixing loop *)

Lemma repainted_refl (a : Ball.t) : repainted a a.
Proof. split; [reflexivity | now left]. Qed.

Lemma Forall2_set_nth (P : Ball.t -> Ball.t -> Prop) i v b :
  forall (d : dict Ball.t) (l0 : list Ball.t),
  Forall2 P l0 (values d) ->
  nth_error (values d) i = Some b ->
  (forall a, P a b -> P a v) ->
  Forall2 P l0 (values (set_nth i v d)).
Proof.
  induction i as [|i IH]; intros [|[k1 v1] d] l0 HF Hn Hp; simpl in *; try discriminate.
  - inversion Hn; subst. inversion HF; subst. constructor; auto.
  - inversion HF; subst. constructor; [assumption | now apply IH].
Qed.

Lemma nth_error_set_nth_other {V : Type} i j (v : V) :
  forall d : dict V, i <> j ->
  nth_error (values (set_nth i v d)) j = nth_error (values d) j.
Proof.
  revert j. induction i as [|i IH]; intros [|j] [|[k1 v1] d] Hne; simpl;
    try reflexivity; try congruence.
  apply IH. congruence.
Qed.

Lemma unit_color_mix (src dst : ColorRGB) (t : R) :
  unit_color (_mix_color_towards src dst t).
Proof.
  unfold _mix_color_towards.
  destruct (rgb_to_hsv src) as [[sh ss] sv].
  destruct (rgb_to_hsv dst) as [[dh ds] dv].
  destruct (hsv_to_rgb _) as [[r g] b]. simpl.
  repeat split; apply clamp_range; lra.
Qed.

Lemma mix_pair_repaints (mix_t : R) (l0 : list Ball.t)
    (st : dict Ball.t * list (string * string)) (ij : nat * nat) :
  fst ij <> snd ij ->
  Forall2 repainted l0 (values (fst st)) ->
  Forall2 repainted l0 (values (fst (GameLogic.mix_pair mix_t st ij)))
  /\ keys (fst (GameLogic.mix_pair mix_t st ij)) = keys (fst st)
  /\ List.length (fst (GameLogic.mix_pair mix_t st ij)) = List.length (fst st).
Proof.
  destruct st as [balls mixed], ij as [i j]. simpl. intros Hne HF.
  unfold GameLogic.mix_pair.
  destruct (nth_error (values balls) i) as [a|] eqn:Ea; [|auto].
  destruct (nth_error (values balls) j) as [b|] eqn:Eb; [|auto].
  destruct (Ball.position a) as [ax ay], (Ball.position b) as [bx by_].
  destruct (Py.leb _ _); [|auto]. simpl.
  rewrite !keys_set_nth, !length_set_nth. split; [|auto].
  eapply Forall2_set_nth with (b := b).
  - eapply Forall2_set_nth with (b := a); [eassumption | assumption |].
    intros c [H1 H2]. split; [rewrite H1; reflexivity | right; apply unit_color_mix].
  - rewrite nth_error_set_nth_other by assumption. assumption.
  - intros c [H1 H2]. split; [rewrite H1; reflexivity | right; apply unit_color_mix].
Qed.

Lemma in_combinations2 {A : Type} (x y : A) (l : list A) :
  In (x, y) (combinations2 l) ->
  exists l1 l2 l3, l = l1 ++ x :: l2 ++ y :: l3.
Proof.
  induction l as [|a l IH]; simpl; [contradiction|].
  rewrite in_app_iff, in_map_iff. intros [(y' & E & I)|I].
  - inversion E; subst. apply in_split in I. destruct I as (l2 & l3 & ->).
    now exists [], l2, l3.
  - destruct (IH I) as (l1 & l2 & l3 & ->). now exists (a :: l1), l2, l3.
Qed.

Lemma combinations2_seq_distinct (n i j : nat) :
  In (i, j) (combinations2 (seq 0 n)) -> i <> j.
Proof.
  intros I. apply in_combinations2 in I. destruct I as (l1 & l2 & l3 & E).
  pose proof (seq_NoDup n 0) as Hnd. rewrite E in Hnd.
  apply NoDup_remove_2 in Hnd. intros ->. apply Hnd.
  rewrite !in_app_iff. right. right. now left.
Qed.

Lemma fold_mix_pair_repaints (mix_t : R) (l0 : list Ball.t) (pairs : list (nat * nat)) :
  forall st,
  (forall ij, In ij pairs -> fst ij <> snd ij) ->
  Forall2 repainted l0 (values (fst st)) ->
  Forall2 repainted l0 (values (fst (fold_left (GameLogic.mix_pair mix_t) pairs st)))
  /\ keys (fst (fold_left (GameLogic.mix_pair mix_t) pairs st)) = keys (fst st).
Proof.
  induction pairs as [|ij pairs IH]; intros st Hd HF; simpl; [auto|].
  destruct (mix_pair_repaints mix_t l0 st ij) as (H1 & H2 & H3);
    [apply Hd; now left | assumption |].
  destruct (IH (GameLogic.mix_pair mix_t st ij)) as [H4 H5];
    [intros; apply Hd; now right | assumption |].
  split; [assumption | congruence].
Qed.

Lemma Forall2_refl_repainted (l : list Ball.t) : Forall2 repainted l l.
Proof. induction l; constructor; [apply repainted_refl | assumption]. Qed.

Lemma after_mixing_repaints (g : GameLogic.t) (dt : R) (balls : dict Ball.t) :
  Forall2 repainted (values balls) (values (fst (GameLogic.after_mixing g dt balls)))
  /\ keys (fst (GameLogic.after_mixing g dt balls)) = keys balls.
Proof.
  unfold GameLogic.after_mixing. destruct (Py.gtb _ _).
  - apply (fold_mix_pair_repaints _ (values balls) _ (balls, [])).
    + intros [i j] I. simpl. eapply combinations2_seq_distinct; eassumption.
    + apply Forall2_refl_repainted.
  - simpl. split; [apply Forall2_refl_repainted | reflexivity].
Qed.

(** Entries of a dict related place by place to those of another. *)
Lemma in_related_dict (P : Ball.t -> Ball.t -> Prop) :
  forall (d d' : dict Ball.t),
  keys d' = keys d -> Forall2 P (values d) (values d') ->
  forall k b', In (k, b') d' -> exists b, In (k, b) d /\ P b b'.
Proof.
  induction d as [|[k0 b0] d IH]; intros [|[k1 b1] d'] Hk HF k b' I;
    simpl in *; try discriminate; try contradiction.
  inversion Hk; subst. inversion HF; subst. destruct I as [E|I].
  - inversion E; subst. exists b0. auto.
  - destruct (IH d' H1 H5 k b' I) as (b & Hb & Hp). exists b. auto.
Qed.

(** ** The motion phase *)

Lemma pull_keeps (s : Suction.t) (dt : R) (b : Ball.t) :
  Ball.id (GameLogic.pull s dt b) = Ball.id b
  /\ Ball.position (GameLogic.pull s dt b) = Ball.position b
  /\ Ball.radius (GameLogic.pull s dt b) = Ball.radius b
  /\ Ball.color_rgb (GameLogic.pull s dt b) = Ball.color_rgb b
  /\ Ball.mass (GameLogic.pull s dt b) = Ball.mass b.
Proof.
  unfold GameLogic.pull.
  destruct (Suction.position s) as [sx sy], (Ball.position b) as [bx by_] eqn:E.
  destruct (_ && _); [|now rewrite E].
  destruct (Ball.velocity b) as [vx vy]. simpl. now rewrite E.
Qed.

Lemma integrate_keeps (g : GameLogic.t) (dt damping : R) (b : Ball.t) :
  Ball.id (GameLogic.integrate g dt damping b) = Ball.id b
  /\ Ball.radius (GameLogic.integrate g dt damping b) = Ball.radius b
  /\ Ball.color_rgb (GameLogic.integrate g dt damping b) = Ball.color_rgb b
  /\ Ball.mass (GameLogic.integrate g dt damping b) = Ball.mass b.
Proof.
  unfold GameLogic.integrate. destruct (GameLogic.gravity g) as [gx gy].
  destruct (GameLogic.boundary_bounce g).
  - do 2 destruct (GameLogic.bounce_axis _ _ _ _). simpl. auto.
  - simpl. auto.
Qed.

Lemma moved_keeps (g : GameLogic.t) (dt : R) (b : Ball.t) :
  Ball.id (moved g dt b) = Ball.id b
  /\ Ball.radius (moved g dt b) = Ball.radius b
  /\ Ball.color_rgb (moved g dt b) = Ball.color_rgb b
  /\ Ball.mass (moved g dt b) = Ball.mass b.
Proof.
  unfold moved.
  destruct (integrate_keeps g dt (exp (- GameLogic.linear_damping_per_second g * dt))
              (if Suction.is_active (GameLogic._suction g)
               then GameLogic.pull (GameLogic._suction g) dt b else b))
    as (H1 & H2 & H3 & H4).
  rewrite H1, H2, H3, H4.
  destruct (Suction.is_active _); [|auto].
  destruct (pull_keeps (GameLogic._suction g) dt b) as (P1 & P2 & P3 & P4 & P5).
  auto.
Qed.

Lemma after_motion_moved (g : GameLogic.t) (dt : R) :
  GameLogic.after_motion g dt = dict_update_all (moved g dt) (GameLogic._balls g).
Proof.
  unfold GameLogic.after_motion, moved, dict_update_all.
  destruct (Suction.is_active _); [|reflexivity].
  rewrite map_map. reflexivity.
Qed.

Lemma keys_after_motion (g : GameLogic.t) (dt : R) :
  keys (GameLogic.after_motion g dt) = keys (GameLogic._balls g).
Proof. rewrite after_motion_moved. apply keys_update_all. Qed.

Lemma in_after_motion (g : GameLogic.t) (dt : R) k bm :
  In (k, bm) (GameLogic.after_motion g dt)
  <-> exists b, In (k, b) (GameLogic._balls g) /\ bm = moved g dt b.
Proof. rewrite after_motion_moved. apply in_update_all. Qed.

Lemma keyed_after_motion (g : GameLogic.t) (dt : R) :
  keyed (GameLogic._balls g) -> keyed (GameLogic.after_motion g dt).
Proof.
  intros [Hnd Hid]. split; [now rewrite keys_after_motion|].
  rewrite Forall_forall in *. intros [k bm] I.
  apply in_after_motion in I. destruct I as (b & I & ->). simpl.
  destruct (moved_keeps g dt b) as (H1 & _). rewrite H1. apply (Hid (k, b) I).
Qed.

(** ** The phases of a step of positive length *)

Lemma step_phases (g : GameLogic.t) (dt : R) :
  0 < dt ->
  exists b1 inv cap b2 mixed b3 del,
    GameLogic.after_capture g (GameLogic.after_motion g dt) = (b1, inv, cap)
    /\ GameLogic.after_mixing g dt b1 = (b2, mixed)
    /\ GameLogic.after_deletion g b2 = (b3, del)
    /\ GameLogic.step g dt
       = (GameLogic.with_inventory (GameLogic.with_balls g b3) inv,
          StepResult.mk dt mixed del cap []).
Proof.
  intros Hdt. unfold GameLogic.step.
  assert (E : Py.max 0 dt = dt).
  { rewrite max_is_Rmax. apply Rmax_right. lra. }
  rewrite E. rewrite eqb_false by lra.
  destruct (GameLogic.after_capture g (GameLogic.after_motion g dt))
    as [[b1 inv] cap] eqn:E1.
  destruct (GameLogic.after_mixing g dt b1) as [b2 mixed] eqn:E2.
  destruct (GameLogic.after_deletion g b2) as [b3 del] eqn:E3.
  exists b1, inv, cap, b2, mixed, b3, del. auto.
Qed.

(** The ids the capture phase selects. *)
Lemma after_capture_spec (g : GameLogic.t) (m b1 inv : dict Ball.t) (cap : list string) :
  GameLogic.after_capture g m = (b1, inv, cap) ->
  NoDup (keys m) ->
  exists to_capture,
    to_capture
    = (if Suction.is_active (GameLogic._suction g)
       then map Ball.id (filter (GameLogic.in_mouth (GameLogic._suction g)) (values m))
       else [])
    /\ NoDup (keys b1)
    /\ (forall k b, In (k, b) b1 <-> In (k, b) m /\ ~ In k to_capture)
    /\ (NoDup (keys (GameLogic._inventory g)) -> NoDup (keys inv))
    /\ (forall k, In k (keys inv) <->
                  In k (keys (GameLogic._inventory g)) \/ In k cap)
    /\ (forall k, In k cap <-> In k (keys m) /\ In k to_capture)
    /\ (forall k b, In (k, b) inv ->
                    In (k, b) (GameLogic._inventory g) \/ In (k, b) m)
    /\ ((forall k, In k (keys m) -> ~ In k (keys (GameLogic._inventory g))) ->
        keys inv = keys (GameLogic._inventory g) ++ cap).
Proof.
  unfold GameLogic.after_capture. intros E Hnd.
  destruct (Suction.is_active (GameLogic._suction g)).
  - eexists. split; [reflexivity|].
    destruct (capture_loop_balls _ _ _ _ _ _ _ E Hnd) as [H1 H2].
    destruct (capture_loop_inventory_keys _ _ _ _ _ _ _ E Hnd) as [H3 H4].
    pose proof (capture_loop_captured _ _ _ _ _ _ _ E Hnd) as H5.
    pose proof (capture_loop_inventory_entries _ _ _ _ _ _ _ E) as H6.
    split; [exact H1|]. split; [exact H2|]. split; [exact H3|].
    split; [intros k; rewrite H4, H5; simpl; tauto|].
    split; [intros k; rewrite H5; simpl; tauto|].
    split; [exact H6|].
    intros Hdis.
    destruct (capture_loop_appends _ _ _ _ _ _ _ E Hnd Hdis) as (new & -> & ->).
    reflexivity.
  - inversion E; subst. exists []. simpl.
    split; [reflexivity|]. split; [assumption|].
    split; [intros k b; tauto|]. split; [auto|].
    split; [intros k; tauto|]. split; [intros k; tauto|].
    split; [auto|]. intros _. now rewrite app_nil_r.
Qed.

Lemma in_keys_of_entries {V : Type} (d d' : dict V) (P : string -> Prop) :
  (forall k b, In (k, b) d' <-> In (k, b) d /\ P k) ->
  forall k, In k (keys d') <-> In k (keys d) /\ P k.
Proof.
  intros H k. rewrite !in_keys_iff. split.
  - intros (v & I). apply H in I. destruct I. eauto.
  - intros [(v & I) Hp]. exists v. apply H. auto.
Qed.

(** What a step of positive length does to the two dicts and what it
    reports, given only that the active dict has no repeated key. *)
Lemma step_effect (g : GameLogic.t) (dt : R) :
  0 < dt ->
  NoDup (keys (GameLogic._balls g)) ->
  forall g' res, GameLogic.step g dt = (g', res) ->
  let m := GameLogic.after_motion g dt in
  let to_capture :=
    if Suction.is_active (GameLogic._suction g)
    then map Ball.id (filter (GameLogic.in_mouth (GameLogic._suction g)) (values m))
    else [] in
  NoDup (keys (GameLogic._balls g'))
  /\ (NoDup (keys (GameLogic._inventory g)) -> NoDup (keys (GameLogic._inventory g')))
  /\ (forall k, In k (StepResult.captured_ball_ids res) <->
                In k (keys (GameLogic._balls g)) /\ In k to_capture)
  /\ (forall k, In k (keys (GameLogic._inventory g')) <->
                In k (keys (GameLogic._inventory g))
                \/ In k (StepResult.captured_ball_ids res))
  /\ (forall k, In k (StepResult.deleted_ball_ids res) ->
                In k (keys (GameLogic._balls g)) /\ ~ In k to_capture)
  /\ (forall k, In k (keys (GameLogic._balls g')) <->
                In k (keys (GameLogic._balls g)) /\ ~ In k to_capture
                /\ ~ In k (StepResult.deleted_ball_ids res))
  /\ (forall k b', In (k, b') (GameLogic._balls g') ->
                   exists bm, In (k, bm) m /\ repainted bm b')
  /\ (forall k b, In (k, b) (GameLogic._inventory g') ->
                  In (k, b) (GameLogic._inventory g) \/ In (k, b) m)
  /\ ((forall k, In k (keys (GameLogic._balls g)) ->
                 ~ In k (keys (GameLogic._inventory g))) ->
      keys (GameLogic._inventory g')
      = keys (GameLogic._inventory g) ++ StepResult.captured_ball_ids res).
Proof.
  intros Hdt Hnd g' res E m to_capture.
  destruct (step_phases g dt Hdt) as (b1 & inv & cap & b2 & mixed & b3 & del & E1 & E2 & E3 & E4).
  rewrite E4 in E. inversion E; subst g' res. clear E E4. simpl.
  assert (Hm : NoDup (keys m)) by (unfold m; now rewrite keys_after_motion).
  destruct (after_capture_spec g m b1 inv cap E1 Hm)
    as (tc & Etc & C1 & C2 & C3 & C4 & C5 & C6 & C7).
  fold to_capture in Etc. subst tc.
  pose proof (in_keys_of_entries _ _ _ C2) as C2k.
  destruct (after_mixing_repaints g dt b1) as [M1 M2]. rewrite E2 in M1, M2. simpl in M1, M2.
  assert (Hb2 : NoDup (keys b2)) by now rewrite M2.
  unfold GameLogic.after_deletion in E3.
  destruct (delete_loop_balls _ _ _ _ _ E3 Hb2) as [D1 D2].
  pose proof (delete_loop_deleted _ _ _ _ _ E3 Hb2) as D3.
  pose proof (in_keys_of_entries _ _ _ D2) as D2k.
  assert (Km : forall k, In k (keys m) <-> In k (keys (GameLogic._balls g)))
    by (intros k; unfold m; now rewrite keys_after_motion).
  split; [exact D1|]. split; [exact C3|].
  split; [intros k; rewrite C5, Km; tauto|].
  split; [exact C4|].
  split.
  { intros k. rewrite D3, M2, C2k, Km. simpl. tauto. }
  split.
  { intros k. rewrite D2k, D3, M2, C2k, Km. simpl. tauto. }
  split.
  { intros k b' I. apply D2 in I. destruct I as [I _].
    destruct (in_related_dict repainted b1 b2 M2 M1 k b' I) as (b & Ib & Hr).
    exists b. split; [now apply C2 in Ib | assumption]. }
  split; [exact C6|].
  intros Hdis. apply C7. intros k. rewrite Km. apply Hdis.
Qed.

(** ** Spitting *)

Lemma release_eq (g : GameLogic.t) (inv : dict Ball.t) (k : string) (b : Ball.t)
    (p d : Vector) (s : R) :
  GameLogic.release g inv k b p d s
  = GameLogic.with_balls (GameLogic.with_inventory g inv)
      (dict_set k
         (Ball.set_velocity (Ball.set_position b (fst p, snd p))
            (fst (_normalize d) * s, snd (_normalize d) * s))
         (GameLogic._balls g)).
Proof.
  unfold GameLogic.release. simpl. destruct (_normalize d) as [dx dy]. reflexivity.
Qed.

Lemma spit_specific_eq (g : GameLogic.t) (k : string) (p d : Vector) (s : R) :
  GameLogic.spit_specific g k p d s
  = match dict_get k (GameLogic._inventory g) with
    | None => (GameLogic.with_inventory g (dict_del k (GameLogic._inventory g)), false)
    | Some b =>
        (GameLogic.release g (dict_del k (GameLogic._inventory g)) k b p d s, true)
    end.
Proof. reflexivity. Qed.

Lemma spit_next_cons (g : GameLogic.t) (k : string) (b : Ball.t)
    (rest : dict Ball.t) (p d : Vector) (s : R) :
  GameLogic._inventory g = (k, b) :: rest ->
  GameLogic.spit_next g p d s
  = (GameLogic.release g (dict_del k (GameLogic._inventory g)) k b p d s, Some k).
Proof. intros E. unfold GameLogic.spit_next. rewrite E. reflexivity. Qed.

Lemma spit_next_nil (g : GameLogic.t) (p d : Vector) (s : R) :
  GameLogic._inventory g = [] -> GameLogic.spit_next g p d s = (g, None).
Proof. intros E. unfold GameLogic.spit_next. rewrite E. reflexivity. Qed.

(** ** The membership invariant *)

Lemma filter_all {A : Type} (f : A -> bool) (l : list A) :
  (forall x, In x l -> f x = true) -> filter f l = l.
Proof.
  induction l as [|a l IH]; simpl; intros H; [reflexivity|].
  rewrite (H a) by now left. f_equal. apply IH. intros. apply H. now right.
Qed.

Lemma in_alive_after (alive : list string) (g : GameLogic.t) (c : call) (k : string) :
  In k (alive_after alive g c)
  <-> (In k alive /\ ~ In k (destroyed g c)) \/ In k (created g c).
Proof.
  unfold alive_after. rewrite in_app_iff, filter_In, negb_true_iff.
  rewrite <- (mem_iff k (destroyed g c)), not_true_iff_false. reflexivity.
Qed.

Lemma step_nonpositive (g : GameLogic.t) (dt : R) :
  dt <= 0 -> GameLogic.step g dt = (g, StepResult.mk 0 [] [] [] []).
Proof.
  intros H. unfold GameLogic.step.
  assert (E : Py.max 0 dt = 0) by (rewrite max_is_Rmax; apply Rmax_left; lra).
  rewrite E. rewrite eqb_true by reflexivity. reflexivity.
Qed.

Lemma homes_ok_same_dicts (g g' : GameLogic.t) (alive : list string) :
  GameLogic._balls g' = GameLogic._balls g ->
  GameLogic._inventory g' = GameLogic._inventory g ->
  homes_ok g alive -> homes_ok g' alive.
Proof.
  unfold homes_ok, disjoint_homes, alive_have_home. intros -> ->. auto.
Qed.

Lemma homes_ok_release (g : GameLogic.t) (alive : list string) (k : string)
    (b b' : Ball.t) :
  homes_ok g alive ->
  dict_get k (GameLogic._inventory g) = Some b ->
  homes_ok
    (GameLogic.with_balls
       (GameLogic.with_inventory g (dict_del k (GameLogic._inventory g)))
       (dict_set k b' (GameLogic._balls g)))
    alive.
Proof.
  intros (N1 & N2 & Hd & Ha) G.
  assert (Hk : In k (keys (GameLogic._inventory g)))
    by (apply dict_get_in in G; now apply in_keys with b).
  unfold homes_ok, disjoint_homes, alive_have_home in *. simpl.
  split; [now apply nodup_dict_set|]. split; [now apply nodup_dict_del|].
  split.
  - intros x. rewrite in_keys_dict_set, in_keys_dict_del by assumption.
    intros [->|I] [Hne I']; [congruence | now apply (Hd x)].
  - intros x. rewrite in_keys_dict_set, in_keys_dict_del, Ha by assumption.
    destruct (String.eqb_spec x k) as [->|Hne]; tauto.
Qed.

Lemma homes_ok_perform (g : GameLogic.t) (alive : list string) (c : call) :
  homes_ok g alive -> add_avoids_inventory g c ->
  homes_ok (perform g c) (alive_after alive g c).
Proof.
  intros Hok Hc. pose proof Hok as (N1 & N2 & Hd & Ha).
  assert (Hsame : created g c = [] -> destroyed g c = [] ->
                  alive_after alive g c = alive).
  { intros E1 E2. unfold alive_after. rewrite E1, E2, app_nil_r.
    apply filter_all. reflexivity. }
  destruct c as [u p v r col bid | bid | rect | p r s cr | p | | p d s | bid p d s | dt];
    simpl in Hc.
  - (* add_ball *)
    unfold perform, GameLogic.add_ball. destruct p as [px py], v as [vx vy]. simpl.
    unfold homes_ok, disjoint_homes, alive_have_home in *. simpl.
    split; [now apply nodup_dict_set|]. split; [assumption|]. split.
    + intros x. rewrite in_keys_dict_set. intros [->|I]; [assumption | now apply Hd].
    + intros x. rewrite in_alive_after, in_keys_dict_set, Ha. simpl. intuition.
  - (* remove_ball *)
    unfold perform, GameLogic.remove_ball, dict_pop. simpl.
    unfold homes_ok, disjoint_homes, alive_have_home in *. simpl.
    split; [now apply nodup_dict_del|]. split; [assumption|]. split.
    + intros x. rewrite in_keys_dict_del by assumption. intros [_ I]. now apply Hd.
    + intros x. rewrite in_alive_after, in_keys_dict_del, Ha by assumption.
      unfold destroyed, created, GameLogic.remove_ball, dict_pop. simpl.
      destruct (dict_get bid (GameLogic._balls g)) as [b|] eqn:G; simpl.
      * assert (Hb : In bid (keys (GameLogic._balls g)))
          by (apply dict_get_in in G; now apply in_keys with b).
        specialize (Hd bid Hb).
        destruct (String.eqb_spec x bid) as [->|Hne]; intuition congruence.
      * apply dict_get_none in G.
        destruct (String.eqb_spec x bid) as [->|Hne]; intuition congruence.
  - rewrite Hsame by reflexivity. now apply homes_ok_same_dicts with g.
  - rewrite Hsame by reflexivity. now apply homes_ok_same_dicts with g.
  - rewrite Hsame by reflexivity. apply homes_ok_same_dicts with g; try assumption;
      unfold perform, GameLogic.update_suction; now destruct (negb _).
  - rewrite Hsame by reflexivity. now apply homes_ok_same_dicts with g.
  - (* spit_next *)
    rewrite Hsame by reflexivity. unfold perform.
    destruct (GameLogic._inventory g) as [|[k b] rest] eqn:E.
    + rewrite spit_next_nil by assumption. assumption.
    + rewrite (spit_next_cons g k b rest) by assumption. simpl fst.
      rewrite release_eq. apply homes_ok_release with b; [assumption|].
      rewrite E. simpl. now rewrite String.eqb_refl.
  - (* spit_specific *)
    rewrite Hsame by reflexivity. unfold perform. rewrite spit_specific_eq.
    destruct (dict_get bid (GameLogic._inventory g)) as [b|] eqn:G; simpl fst.
    + rewrite release_eq. now apply homes_ok_release with b.
    + apply dict_get_none in G. rewrite dict_del_absent by assumption.
      now apply homes_ok_same_dicts with g.
  - (* step *)
    destruct (Rle_dec dt 0) as [Hle|Hgt].
    + rewrite Hsame; unfold perform, destroyed; try rewrite step_nonpositive by assumption;
        try reflexivity. assumption.
    + assert (Hdt : 0 < dt) by lra.
      destruct (GameLogic.step g dt) as [g' res] eqn:E.
      destruct (step_effect g dt Hdt N1 g' res E)
        as (S1 & S2 & S3 & S4 & S5 & S6 & _).
      unfold perform. rewrite E. simpl fst.
      unfold homes_ok, disjoint_homes, alive_have_home in *.
      split; [assumption|]. split; [auto|]. split.
      * intros x. rewrite S6, S4, S3. specialize (Hd x). tauto.
      * intros x. rewrite in_alive_after. unfold destroyed, created. rewrite E.
        simpl. rewrite S6, S4, S3, Ha. specialize (S5 x). specialize (Hd x).
        tauto.
Qed.

Lemma homes_ok_run (calls : list call) :
  forall g alive,
  homes_ok g alive -> adds_avoid_inventory g calls ->
  homes_ok (fst (run g alive calls)) (snd (run g alive calls)).
Proof.
  induction calls as [|c calls IH]; intros g alive Hok Hc; simpl; [assumption|].
  destruct Hc as [Hc Hrest]. apply IH; [|assumption].
  apply homes_ok_perform; [assumption|].
  destruct c; simpl; auto.
Qed.

(** ** Worlds keyed by ball ids

    Every world reached from a fresh one by calls is well keyed: the
    hypotheses [keyed] and [NoDup (keys _)] of the theorems below hold there. *)

Lemma keyed_dict_set (k : string) (b : Ball.t) (d : dict Ball.t) :
  keyed d -> Ball.id b = k -> keyed (dict_set k b d).
Proof.
  intros [Hnd HF] Hid. split; [now apply nodup_dict_set|].
  apply Forall_dict_set; assumption.
Qed.

Lemma keyed_dict_del (k : string) (d : dict Ball.t) :
  keyed d -> keyed (dict_del k d).
Proof.
  intros [Hnd HF]. split; [now apply nodup_dict_del | now apply Forall_dict_del].
Qed.

Lemma keyed_entry (k : string) (b : Ball.t) (d : dict Ball.t) :
  keyed d -> In (k, b) d -> Ball.id b = k.
Proof. intros [_ HF] I. rewrite Forall_forall in HF. apply (HF (k, b) I). Qed.

Lemma wf_release (g : GameLogic.t) (k : string) (b : Ball.t) (p d : Vector) (s : R) :
  wf g -> dict_get k (GameLogic._inventory g) = Some b ->
  wf (GameLogic.release g (dict_del k (GameLogic._inventory g)) k b p d s).
Proof.
  intros [Hb Hi] G. rewrite release_eq. split; simpl.
  - apply keyed_dict_set; [assumption|]. simpl.
    apply keyed_entry with (GameLogic._inventory g); [assumption|].
    now apply dict_get_in.
  - now apply keyed_dict_del.
Qed.

Lemma wf_step (g : GameLogic.t) (dt : R) : wf g -> wf (fst (GameLogic.step g dt)).
Proof.
  intros [Hb Hi]. destruct (Rle_dec dt 0) as [Hle|Hgt].
  - rewrite step_nonpositive by assumption. now split.
  - assert (Hdt : 0 < dt) by lra.
    destruct (GameLogic.step g dt) as [g' res] eqn:E. simpl.
    destruct (step_effect g dt Hdt (proj1 Hb) g' res E)
      as (S1 & S2 & _ & _ & _ & _ & S7 & S8 & _).
    pose proof (keyed_after_motion g dt Hb) as Hm.
    destruct Hi as [Hi1 Hi2].
    split; (split; [auto|]); rewrite Forall_forall; intros [k b] I; simpl.
    + destruct (S7 k b I) as (bm & Im & Hu & _).
      apply (f_equal Ball.id) in Hu. simpl in Hu.
      rewrite <- Hu. now apply keyed_entry with (GameLogic.after_motion g dt).
    + destruct (S8 k b I) as [I'|I'].
      * rewrite Forall_forall in Hi2. apply (Hi2 (k, b) I').
      * now apply keyed_entry with (GameLogic.after_motion g dt).
Qed.

Lemma wf_perform (g : GameLogic.t) (c : call) : wf g -> wf (perform g c).
Proof.
  intros Hwf. pose proof Hwf as [Hb Hi].
  destruct c as [u p v r col bid | bid | rect | p r s cr | p | | p d s | bid p d s | dt];
    simpl; try assumption.
  - unfold GameLogic.add_ball. destruct p as [px py], v as [vx vy]. simpl.
    split; simpl; [|assumption]. now apply keyed_dict_set.
  - split; simpl; [|assumption]. now apply keyed_dict_del.
  - unfold GameLogic.update_suction. now destruct (negb _).
  - destruct (GameLogic._inventory g) as [|[k b] rest] eqn:E.
    + now rewrite spit_next_nil.
    + rewrite (spit_next_cons g k b rest) by assumption. simpl.
      apply wf_release; [assumption|]. rewrite E. simpl. now rewrite String.eqb_refl.
  - rewrite spit_specific_eq.
    destruct (dict_get bid (GameLogic._inventory g)) as [b|] eqn:G; simpl.
    + now apply wf_release.
    + split; simpl; [assumption | now apply keyed_dict_del].
  - now apply wf_step.
Qed.

Lemma wf_run (calls : list call) :
  forall g alive, wf g -> wf (fst (run g alive calls)).
Proof.
  induction calls as [|c calls IH]; intros g alive Hwf; simpl; [assumption|].
  apply IH. now apply wf_perform.
Qed.

Lemma wf_init (w h : R) (dz : option Rect.t) (bb : bool) (ld mc : R) (gv : Vector) :
  wf (GameLogic.init w h dz bb ld mc gv).
Proof. split; (split; [constructor | constructor]). Qed.

(** ** Balls at rest, and other closed-form evaluations *)

Lemma hypot_zero (a b : R) : a = 0 -> b = 0 -> Py.hypot a b = 0.
Proof.
  intros -> ->. unfold Py.hypot.
  replace (0 * 0 + 0 * 0) with 0 by ring. apply sqrt_0.
Qed.

Lemma hypot_pos (x y : R) : (x, y) <> (0, 0) -> 0 < Py.hypot x y.
Proof.
  intros H. unfold Py.hypot. apply sqrt_lt_R0.
  destruct (Req_dec_T x 0) as [->|Hx].
  - destruct (Req_dec_T y 0) as [->|Hy]; [now elim H | nra].
  - nra.
Qed.

Lemma hypot_le (x y c : R) : 0 <= c -> x * x + y * y <= c * c -> Py.hypot x y <= c.
Proof.
  intros Hc H. unfold Py.hypot. rewrite <- (sqrt_square c) by assumption.
  apply sqrt_le_1_alt. assumption.
Qed.

Lemma pull_at_centre (s : Suction.t) (dt : R) (b : Ball.t) :
  Ball.position b = Suction.position s -> GameLogic.pull s dt b = b.
Proof.
  intros E. unfold GameLogic.pull. rewrite E.
  destruct (Suction.position s) as [sx sy].
  rewrite (hypot_zero (sx - sx) (sy - sy)) by ring.
  unfold Py.gtb. rewrite (ltb_false (1e-6) 0) by lra.
  now rewrite andb_false_r.
Qed.

Lemma bounce_axis_inside (p v r limit : R) :
  r <= p -> p + r <= limit -> GameLogic.bounce_axis p v r limit = (p, v).
Proof.
  intros H1 H2. unfold GameLogic.bounce_axis, Py.gtb.
  rewrite ltb_false by lra. rewrite ltb_false by lra. reflexivity.
Qed.

Lemma integrate_at_rest (g : GameLogic.t) (dt damping : R) (b : Ball.t) :
  GameLogic.gravity g = (0, 0) ->
  GameLogic.boundary_bounce g = true ->
  Ball.velocity b = (0, 0) ->
  Ball.radius b <= fst (Ball.position b) ->
  fst (Ball.position b) + Ball.radius b <= GameLogic.world_width g ->
  Ball.radius b <= snd (Ball.position b) ->
  snd (Ball.position b) + Ball.radius b <= GameLogic.world_height g ->
  GameLogic.integrate g dt damping b = b.
Proof.
  intros Hg Hb Hv X1 X2 Y1 Y2. unfold GameLogic.integrate.
  rewrite Hg, Hb, Hv. simpl fst. simpl snd.
  replace ((0 + 0 * dt) * damping) with 0 by ring.
  replace (fst (Ball.position b) + 0 * dt) with (fst (Ball.position b)) by ring.
  replace (snd (Ball.position b) + 0 * dt) with (snd (Ball.position b)) by ring.
  rewrite !bounce_axis_inside by assumption.
  destruct b as [i [px py] v r c m]. simpl in *. subst v. reflexivity.
Qed.

Lemma moved_at_rest (g : GameLogic.t) (dt : R) (b : Ball.t) :
  GameLogic.gravity g = (0, 0) ->
  GameLogic.boundary_bounce g = true ->
  (Suction.is_active (GameLogic._suction g) = false
   \/ Ball.position b = Suction.position (GameLogic._suction g)) ->
  Ball.velocity b = (0, 0) ->
  Ball.radius b <= fst (Ball.position b) ->
  fst (Ball.position b) + Ball.radius b <= GameLogic.world_width g ->
  Ball.radius b <= snd (Ball.position b) ->
  snd (Ball.position b) + Ball.radius b <= GameLogic.world_height g ->
  moved g dt b = b.
Proof.
  intros Hg Hb Hs Hv X1 X2 Y1 Y2. unfold moved.
  assert (E : (if Suction.is_active (GameLogic._suction g)
               then GameLogic.pull (GameLogic._suction g) dt b else b) = b).
  { destruct Hs as [->|Hs]; [reflexivity|].
    destruct (Suction.is_active _); [now apply pull_at_centre | reflexivity]. }
  rewrite E. now apply integrate_at_rest.
Qed.

Lemma in_mouth_at_centre (s : Suction.t) (b : Ball.t) :
  Ball.position b = Suction.position s ->
  0 <= Suction.capture_radius s ->
  GameLogic.in_mouth s b = true.
Proof.
  intros E H. unfold GameLogic.in_mouth. rewrite E.
  destruct (Suction.position s) as [sx sy].
  rewrite (hypot_zero (sx - sx) (sy - sy)) by ring.
  apply leb_true. rewrite max_is_Rmax.
  apply Rle_trans with (Suction.capture_radius s); [assumption | apply Rmax_l].
Qed.

Lemma step_positive (g : GameLogic.t) (dt : R) :
  0 < dt ->
  GameLogic.step g dt
  = (let '(balls, inventory, captured_ball_ids) :=
       GameLogic.after_capture g (dict_update_all (moved g dt) (GameLogic._balls g)) in
     let '(balls, mixed_pairs) := GameLogic.after_mixing g dt balls in
     let '(balls, deleted_ball_ids) := GameLogic.after_deletion g balls in
     (GameLogic.with_inventory (GameLogic.with_balls g balls) inventory,
      StepResult.mk dt mixed_pairs deleted_ball_ids captured_ball_ids [])).
Proof.
  intros Hdt. unfold GameLogic.step.
  assert (E : Py.max 0 dt = dt) by (rewrite max_is_Rmax; apply Rmax_right; lra).
  rewrite E. rewrite eqb_false by lra. now rewrite after_motion_moved.
Qed.

Lemma after_mixing_lone (g : GameLogic.t) (dt : R) (balls : dict Ball.t) :
  (List.length balls <= 1)%nat -> GameLogic.after_mixing g dt balls = (balls, []).
Proof.
  intros H. unfold GameLogic.after_mixing. destruct (Py.gtb _ _); [|reflexivity].
  destruct balls as [|kv [|kv' rest]]; simpl in *; try reflexivity. lia.
Qed.

Arguments Py.ltb : simpl never.
Arguments Py.leb : simpl never.
Arguments Py.eqb : simpl never.
Arguments Py.gtb : simpl never.
Arguments Py.hypot : simpl never.
Arguments Py.max : simpl never.
Arguments Py.min : simpl never.
Arguments Py.fmod : simpl never.
Arguments Py.int : simpl never.
Arguments _clamp : simpl never.
Arguments moved : simpl never.
Arguments GameLogic.in_mouth : simpl never.
Arguments GameLogic.after_mixing : simpl never.
Arguments Rect.contains_point : simpl never.
Arguments _mix_color_towards : simpl never.
Arguments world_a : simpl never.
Arguments ball_a : simpl never.

(** ** Runs *)

Lemma run_app (xs ys : list call) :
  forall g alive,
  run g alive (xs ++ ys) = run (fst (run g alive xs)) (snd (run g alive xs)) ys.
Proof. induction xs as [|c xs IH]; intros g alive; simpl; [reflexivity | apply IH]. Qed.

Lemma adds_avoid_inventory_app (xs ys : list call) :
  forall g alive,
  adds_avoid_inventory g xs ->
  adds_avoid_inventory (fst (run g alive xs)) ys ->
  adds_avoid_inventory g (xs ++ ys).
Proof.
  induction xs as [|c xs IH]; intros g alive Hx Hy; simpl in *; [assumption|].
  destruct Hx as [Hc Hx]. split; [assumption|]. eapply IH; eassumption.
Qed.

Lemma step_world_a :
  GameLogic.step world_a 1
  = (world_a_captured, StepResult.mk 1 [] [] ["a"%string] []).
Proof.
  rewrite step_positive by lra.
  change (GameLogic._balls world_a) with [("a"%string, ball_a)].
  cbn [dict_update_all map fst snd].
  rewrite moved_at_rest; try reflexivity; try (right; reflexivity); try (simpl; lra).
  unfold GameLogic.after_capture.
  change (Suction.is_active (GameLogic._suction world_a)) with true.
  cbn [values map filter snd].
  rewrite in_mouth_at_centre; try reflexivity; try (simpl; lra).
  change (GameLogic._inventory world_a) with (@nil (string * Ball.t)).
  cbn. change (Ball.id ball_a) with "a"%string. cbn.
  rewrite after_mixing_lone by (simpl; lia).
  reflexivity.
Qed.

Lemma run_capture_a :
  run sample_world [] capture_a = (world_a_captured, ["a"%string]).
Proof.
  unfold capture_a. cbn [run]. fold world_a.
  unfold alive_after at 1. unfold destroyed, created.
  change (perform world_a (Step 1)) with (fst (GameLogic.step world_a 1)).
  rewrite step_world_a. reflexivity.
Qed.

(** ** C1: membership in the active set and the inventory *)

(** C1, as stated, fails: the sequence add "a", start suction on it, step
    (which captures "a"), add "a" again leaves the id "a" both in the active
    set and in the inventory, because [add_ball] assigns into [_balls] without
    looking at [_inventory]. *)
Lemma add_ball_of_captured_id_breaks_disjointness :
  ~ disjoint_homes (fst (run sample_world [] (capture_a ++ [add_a]))).
Proof.
  rewrite run_app, run_capture_a. cbn. intros H.
  apply (H "a"%string); cbn; left; reflexivity.
Qed.

(** C1, amended: starting from a freshly constructed world, along every
    sequence of calls (add_ball, remove_ball, the suction calls, set_delete_zone,
    spit_next, spit_specific, step) in which no [add_ball] is given or draws an
    id that is an inventory key at that moment, no id is a key of both the
    active set and the inventory, and the ids alive (reported created and not
    yet reported destroyed by [remove_ball] or by a step's [deleted_ball_ids])
    are exactly the keys of the two dicts: each alive id is in exactly one. *)
Theorem homes_invariant (world_width world_height : R) (delete_zone : option Rect.t)
    (boundary_bounce : bool) (damping mix : R) (gravity : Vector)
    (calls : list call) :
  let g0 := GameLogic.init world_width world_height delete_zone boundary_bounce
              damping mix gravity in
  adds_avoid_inventory g0 calls ->
  disjoint_homes (fst (run g0 [] calls))
  /\ alive_have_home (fst (run g0 [] calls)) (snd (run g0 [] calls)).
Proof.
  intros g0 Hc.
  assert (H0 : homes_ok g0 []).
  { unfold homes_ok, disjoint_homes, alive_have_home. simpl.
    repeat split; try constructor; try tauto. }
  destruct (homes_ok_run calls g0 [] H0 Hc) as (_ & _ & H1 & H2). auto.
Qed.

Lemma homes_invariant_witness :
  disjoint_homes (fst (run sample_world [] (capture_a ++ [add_b])))
  /\ alive_have_home (fst (run sample_world [] (capture_a ++ [add_b])))
       (snd (run sample_world [] (capture_a ++ [add_b]))).
Proof.
  apply (homes_invariant 200 200 None true 0.15 0.85 (0, 0) (capture_a ++ [add_b])).
  apply adds_avoid_inventory_app with (alive := []).
  - cbn. repeat split; tauto.
  - change (GameLogic.init 200 200 None true 0.15 0.85 (0, 0)) with sample_world.
    rewrite run_capture_a. cbn. split; [|exact I].
    intros [E|[]]. discriminate E.
Defined.
Arguments world_z : simpl never.
Arguments ball_z : simpl never.

(** ** C2: capture before deletion *)

Lemma in_keys_dict_del_sub {V : Type} (k k' : string) (d : dict V) :
  In k' (keys (dict_del k d)) -> In k' (keys d).
Proof.
  rewrite !in_keys_iff. intros (v & I). exists v. now apply in_dict_del_sub with k.
Qed.

Lemma capture_loop_keeps_entry to_capture :
  forall balls inv cap balls' inv' cap',
  GameLogic.capture_loop to_capture (balls, inv, cap) = (balls', inv', cap') ->
  forall k, ~ In k (keys balls) -> dict_get k inv' = dict_get k inv.
Proof.
  induction to_capture as [|bid rest IH]; intros balls inv cap balls' inv' cap' E k Hk.
  - simpl in E. now inversion E.
  - rewrite capture_loop_cons in E. destruct (dict_get bid balls) as [ball|] eqn:G.
    + rewrite (IH _ _ _ _ _ _ E k).
      * apply dict_get_set_other. intros ->. apply Hk.
        apply dict_get_in in G. now apply in_keys with ball.
      * intros I. apply Hk. now apply in_keys_dict_del_sub with bid.
    + now apply (IH _ _ _ _ _ _ E k).
Qed.

Lemma capture_loop_entry to_capture :
  forall balls inv cap balls' inv' cap',
  GameLogic.capture_loop to_capture (balls, inv, cap) = (balls', inv', cap') ->
  NoDup (keys balls) ->
  forall k b, In k to_capture -> dict_get k balls = Some b ->
  dict_get k inv' = Some b.
Proof.
  induction to_capture as [|bid rest IH];
    intros balls inv cap balls' inv' cap' E Hnd k b Hin G; [contradiction|].
  rewrite capture_loop_cons in E.
  destruct (String.eqb_spec bid k) as [->|Hne].
  - rewrite G in E.
    rewrite (capture_loop_keeps_entry _ _ _ _ _ _ _ E k).
    + apply dict_get_set_same.
    + rewrite in_keys_dict_del by assumption. tauto.
  - destruct Hin as [->|Hin]; [contradiction|].
    destruct (dict_get bid balls) as [ball|] eqn:Gb.
    + apply (IH _ _ _ _ _ _ E); [now apply nodup_dict_del | assumption |].
      rewrite dict_get_del_other by congruence. assumption.
    + now apply (IH _ _ _ _ _ _ E).
Qed.

(** The inventory entry of a ball captured by a step is the ball as the
    motion phase left it. *)
Lemma step_inventory_entry (g : GameLogic.t) (dt : R) :
  0 < dt ->
  NoDup (keys (GameLogic._balls g)) ->
  Suction.is_active (GameLogic._suction g) = true ->
  forall k b,
  In (k, b) (GameLogic.after_motion g dt) ->
  In k (map Ball.id
          (filter (GameLogic.in_mouth (GameLogic._suction g))
             (values (GameLogic.after_motion g dt)))) ->
  dict_get k (GameLogic._inventory (fst (GameLogic.step g dt))) = Some b.
Proof.
  intros Hdt Hnd Hact k b Hin Htc.
  destruct (step_phases g dt Hdt)
    as (b1 & inv & cap & b2 & mixed & b3 & del & E1 & E2 & E3 & E4).
  rewrite E4. simpl. unfold GameLogic.after_capture in E1. rewrite Hact in E1.
  assert (Hm : NoDup (keys (GameLogic.after_motion g dt)))
    by now rewrite keys_after_motion.
  apply (capture_loop_entry _ _ _ _ _ _ _ E1 Hm k b Htc).
  now apply in_dict_get.
Qed.

(** C2: in a step of positive length with suction active, a ball that the
    motion phase leaves both within the capture threshold of the suction point
    and inside the delete zone is listed in [captured_ball_ids] and not in
    [deleted_ball_ids]; after the step it sits in the inventory (as the motion
    phase left it) and is no longer in the active set. *)
Theorem capture_beats_deletion (g : GameLogic.t) (dt : R) (k : string) (b : Ball.t) :
  0 < dt ->
  keyed (GameLogic._balls g) ->
  Suction.is_active (GameLogic._suction g) = true ->
  In (k, b) (GameLogic.after_motion g dt) ->
  GameLogic.in_mouth (GameLogic._suction g) b = true ->
  Rect.contains_point (GameLogic.delete_zone g) (Ball.position b) = true ->
  In k (StepResult.captured_ball_ids (snd (GameLogic.step g dt)))
  /\ ~ In k (StepResult.deleted_ball_ids (snd (GameLogic.step g dt)))
  /\ dict_get k (GameLogic._inventory (fst (GameLogic.step g dt))) = Some b
  /\ ~ In k (keys (GameLogic._balls (fst (GameLogic.step g dt)))).
Proof.
  intros Hdt Hkeyed Hact Hin Hmouth _.
  pose proof Hkeyed as [Hnd _].
  assert (Hid : Ball.id b = k).
  { destruct (keyed_after_motion g dt Hkeyed) as [_ HF].
    rewrite Forall_forall in HF. apply (HF (k, b) Hin). }
  assert (Htc : In k (map Ball.id
                        (filter (GameLogic.in_mouth (GameLogic._suction g))
                           (values (GameLogic.after_motion g dt))))).
  { rewrite <- Hid. apply in_map. apply filter_In. split; [|assumption].
    change b with (snd (k, b)). now apply in_map. }
  assert (Hk : In k (keys (GameLogic._balls g))).
  { rewrite <- (keys_after_motion g dt). now apply in_keys with b. }
  pose proof (step_inventory_entry g dt Hdt Hnd Hact k b Hin Htc) as Hinv.
  destruct (GameLogic.step g dt) as [g' res] eqn:E.
  destruct (step_effect g dt Hdt Hnd g' res E) as (_ & _ & S3 & _ & S5 & S6 & _).
  rewrite Hact in S3, S5, S6. simpl in *.
  split; [apply S3; auto|]. split; [intros I; apply S5 in I; tauto|].
  split; [assumption|]. intros I. apply S6 in I. tauto.
Qed.

Lemma capture_beats_deletion_witness :
  In "z"%string (StepResult.captured_ball_ids (snd (GameLogic.step world_z 1)))
  /\ ~ In "z"%string (StepResult.deleted_ball_ids (snd (GameLogic.step world_z 1)))
  /\ dict_get "z"%string (GameLogic._inventory (fst (GameLogic.step world_z 1)))
     = Some ball_z
  /\ ~ In "z"%string (keys (GameLogic._balls (fst (GameLogic.step world_z 1)))).
Proof.
  apply (capture_beats_deletion world_z 1 "z"%string ball_z).
  - lra.
  - split; [repeat constructor; intros [] | repeat constructor].
  - reflexivity.
  - rewrite after_motion_moved.
    change (GameLogic._balls world_z) with [("z"%string, ball_z)].
    cbn [dict_update_all map fst snd].
    rewrite moved_at_rest; try reflexivity; try (right; reflexivity);
      try (simpl; lra).
    now left.
  - apply in_mouth_at_centre; [reflexivity | simpl; lra].
  - unfold Rect.contains_point. simpl. decide_cmp. reflexivity.
Defined.

(** ** C3: a step of no length *)

(** C3: for every world, [step dt] with [dt <= 0] (the clamp makes it [0])
    returns the world untouched, so every ball keeps its position, velocity
    and colour and both dicts keep their entries, together with a result whose
    time advanced is 0 and whose four lists are empty; balls inside the delete
    zone stay. *)
Theorem step_without_time_is_noop (g : GameLogic.t) (dt : R) :
  dt <= 0 ->
  GameLogic.step g dt = (g, StepResult.mk 0 [] [] [] []).
Proof.
  intros H. unfold GameLogic.step.
  replace (Py.max 0 dt) with 0.
  - rewrite eqb_true by reflexivity. reflexivity.
  - unfold Py.max, Py.gtb. rewrite ltb_false by assumption. reflexivity.
Qed.

Lemma step_without_time_is_noop_witness :
  Rect.contains_point (GameLogic.delete_zone world_z) (Ball.position ball_z) = true
  /\ GameLogic.step world_z 0 = (world_z, StepResult.mk 0 [] [] [] [])
  /\ GameLogic.step world_z (-1) = (world_z, StepResult.mk 0 [] [] [] []).
Proof.
  split; [|split].
  - unfold Rect.contains_point. simpl. decide_cmp. reflexivity.
  - apply (step_without_time_is_noop world_z 0). lra.
  - apply (step_without_time_is_noop world_z (-1)). lra.
Defined.

(** ** C7: mass at creation *)

(** C7: the ball that [add_ball] creates with radius [r > 0] is stored under
    the returned id with radius [r] and mass [max(1e-6, pi r^2)]: the floor
    [1e-6] when [pi r^2] is below it, [pi r^2] otherwise. *)
Theorem add_ball_mass (g : GameLogic.t) (uuid_hex : string) (position velocity : Vector)
    (r : R) (color_rgb : ColorRGB) (ball_id : option string) :
  0 < r ->
  exists b,
    dict_get (snd (GameLogic.add_ball g uuid_hex position velocity r color_rgb ball_id))
      (GameLogic._balls
         (fst (GameLogic.add_ball g uuid_hex position velocity r color_rgb ball_id)))
    = Some b
    /\ Ball.radius b = r
    /\ Ball.mass b = Rmax 1e-6 (PI * r ^ 2)
    /\ (PI * r ^ 2 <= 1e-6 -> Ball.mass b = 1e-6)
    /\ (1e-6 <= PI * r ^ 2 -> Ball.mass b = PI * r ^ 2).
Proof.
  intros _. unfold GameLogic.add_ball.
  destruct position as [px py], velocity as [vx vy]. simpl fst. simpl snd.
  eexists. split; [apply dict_get_set_same|].
  unfold Ball.init. simpl Ball.radius. simpl Ball.mass.
  rewrite max_is_Rmax. split; [reflexivity|]. split; [reflexivity|].
  split; intros H; [apply Rmax_left | apply Rmax_right]; assumption.
Qed.

Lemma add_ball_mass_witness :
  exists b,
    dict_get "a"%string (GameLogic._balls (perform sample_world add_a)) = Some b
    /\ Ball.radius b = 10
    /\ Ball.mass b = Rmax 1e-6 (PI * 10 ^ 2)
    /\ (PI * 10 ^ 2 <= 1e-6 -> Ball.mass b = 1e-6)
    /\ (1e-6 <= PI * 10 ^ 2 -> Ball.mass b = PI * 10 ^ 2).
Proof.
  apply (add_ball_mass sample_world "f00d" (50, 50) (0, 0) 10 (grey 0.5)
           (Some "a"%string)).
  lra.
Defined.

(** The floor at work: a ball of radius 1e-4 has mass 1e-6, not pi * 1e-8. *)
Example tiny_ball_mass (k : string) (p v : Vector) (c : ColorRGB) :
  Ball.mass (Ball.init k p v 1e-4 c) = 1e-6.
Proof.
  unfold Ball.init. simpl. rewrite max_is_Rmax. apply Rmax_left.
  pose proof PI_4. lra.
Qed.

(** ** C8: mixed colours stay in the unit cube *)

(** C8: for colours with channels in [[0,1]] and a factor [t] in (0, 0.75],
    [_mix_color_towards] returns a colour with all three channels in [[0,1]];
    and after a step of positive length every ball of the active set carries
    either the colour it had before the step or a colour with all channels in
    [[0,1]]. *)
Theorem mixing_keeps_channels_in_unit_range :
  (forall (src dst : ColorRGB) (t : R),
     unit_color src -> unit_color dst -> 0 < t <= 0.75 ->
     unit_color (_mix_color_towards src dst t))
  /\ (forall (g : GameLogic.t) (dt : R) (k : string) (b' : Ball.t),
        0 < dt -> NoDup (keys (GameLogic._balls g)) ->
        In (k, b') (GameLogic._balls (fst (GameLogic.step g dt))) ->
        exists b, In (k, b) (GameLogic._balls g)
                  /\ (Ball.color_rgb b' = Ball.color_rgb b
                      \/ unit_color (Ball.color_rgb b'))).
Proof.
  split.
  - intros src dst t _ _ _. apply unit_color_mix.
  - intros g dt k b' Hdt Hnd Hin.
    destruct (GameLogic.step g dt) as [g' res] eqn:E.
    destruct (step_effect g dt Hdt Hnd g' res E) as (_ & _ & _ & _ & _ & _ & S7 & _).
    destruct (S7 k b' Hin) as (bm & Hm & _ & Hc).
    apply in_after_motion in Hm. destruct Hm as (b & Hb & ->).
    exists b. split; [assumption|].
    destruct (moved_keeps g dt b) as (_ & _ & Hcol & _). now rewrite <- Hcol.
Qed.

Lemma mixing_keeps_channels_in_unit_range_witness :
  unit_color (_mix_color_towards (grey 0.2) (grey 0.8) 0.5).
Proof.
  apply (proj1 mixing_keeps_channels_in_unit_range (grey 0.2) (grey 0.8) 0.5).
  - simpl. lra.
  - simpl. lra.
  - lra.
Defined.

(** ** C6 and C10: spitting *)

Lemma released_keeps (b : Ball.t) (p d : Vector) (s : R) :
  Ball.id (released b p d s) = Ball.id b
  /\ Ball.radius (released b p d s) = Ball.radius b
  /\ Ball.color_rgb (released b p d s) = Ball.color_rgb b
  /\ Ball.mass (released b p d s) = Ball.mass b
  /\ Ball.position (released b p d s) = (fst p, snd p)
  /\ Ball.velocity (released b p d s)
     = (fst (_normalize d) * s, snd (_normalize d) * s).
Proof. unfold released. simpl. repeat split. Qed.

Lemma spit_next_state (g : GameLogic.t) (k : string) (b : Ball.t)
    (rest : dict Ball.t) (p d : Vector) (s : R) :
  GameLogic._inventory g = (k, b) :: rest ->
  GameLogic.spit_next g p d s
  = (GameLogic.with_balls (GameLogic.with_inventory g rest)
       (dict_set k (released b p d s) (GameLogic._balls g)),
     Some k).
Proof.
  intros E. rewrite (spit_next_cons g k b rest) by assumption.
  rewrite release_eq, E. simpl. now rewrite String.eqb_refl.
Qed.

Lemma normalize_zero : _normalize (0, 0) = (0, 0).
Proof.
  unfold _normalize. rewrite (hypot_zero 0 0) by reflexivity.
  now rewrite eqb_true.
Qed.

(** The velocity a spit gives: the direction divided by its length, times the
    speed; zero for the zero direction. *)
Lemma released_velocity (b : Ball.t) (p d : Vector) (s : R) :
  (d <> (0, 0) ->
   Ball.velocity (released b p d s)
   = (fst d / sqrt (fst d * fst d + snd d * snd d) * s,
      snd d / sqrt (fst d * fst d + snd d * snd d) * s))
  /\ (d = (0, 0) -> Ball.velocity (released b p d s) = (0, 0)).
Proof.
  destruct d as [dx dy]. unfold released, _normalize. split.
  - intros H. pose proof (hypot_pos dx dy H) as Hm.
    rewrite eqb_false by lra. reflexivity.
  - intros E. inversion E; subst. rewrite (hypot_zero 0 0) by reflexivity.
    rewrite eqb_true by reflexivity. simpl. f_equal; ring.
Qed.

Lemma spit_many_fifo (n : nat) (p d : Vector) (s : R) :
  forall g,
  snd (spit_many n g p d s) = firstn n (keys (GameLogic._inventory g))
  /\ keys (GameLogic._inventory (fst (spit_many n g p d s)))
     = skipn n (keys (GameLogic._inventory g)).
Proof.
  induction n as [|n IH]; intros g; simpl; [auto|].
  destruct (GameLogic._inventory g) as [|[k b] rest] eqn:E.
  - rewrite spit_next_nil by assumption. simpl. now rewrite E.
  - rewrite (spit_next_state g k b rest) by assumption.
    specialize (IH (GameLogic.with_balls (GameLogic.with_inventory g rest)
                      (dict_set k (released b p d s) (GameLogic._balls g)))).
    destruct (spit_many n _ p d s) as [g'' ks]. simpl in *.
    destruct IH as [-> ->]. auto.
Qed.

(** The inventory keys after a step of positive length: the keys before,
    then the captured ids that were not inventory keys, in the order of
    [captured_ball_ids]. *)
Lemma step_inventory_keys (g : GameLogic.t) (dt : R) :
  0 < dt ->
  NoDup (keys (GameLogic._balls g)) ->
  keys (GameLogic._inventory (fst (GameLogic.step g dt)))
  = keys (GameLogic._inventory g)
    ++ not_held (GameLogic._inventory g)
         (StepResult.captured_ball_ids (snd (GameLogic.step g dt))).
Proof.
  intros Hdt Hnd.
  destruct (step_phases g dt Hdt)
    as (b1 & inv & cap & b2 & mixed & b3 & del & E1 & _ & _ & E4).
  rewrite E4. simpl. unfold GameLogic.after_capture in E1.
  destruct (Suction.is_active (GameLogic._suction g)).
  - apply capture_loop_appends_new in E1; [|now rewrite keys_after_motion].
    destruct E1 as (new & -> & _ & ->). reflexivity.
  - inversion E1; subst. unfold not_held. simpl. now rewrite app_nil_r.
Qed.

(** C6: [spit_next] answers [None] exactly when the inventory is empty and
    then leaves the world as it is; otherwise it answers the key of the first
    inventory entry, takes that entry out, and stores the ball in the active
    set under the same key and id with the given position and the velocity
    [normalize(direction) * speed]: the direction divided by its length
    [sqrt(dx² + dy²)] and multiplied by the speed, and zero for the zero
    direction.  [n] calls of [spit_next] return the first [n] inventory keys
    in order.  A step puts the ids it captures behind the keys the inventory
    already has, in the order of [captured_ball_ids] (an id the inventory holds
    already keeps its place), so the calls of [spit_next] that follow release
    the ids held before in their order and then the newly captured ones in
    the order of capture: first captured, first released. *)
Theorem spit_next_is_fifo (g : GameLogic.t) (position direction : Vector) (speed : R) :
  (snd (GameLogic.spit_next g position direction speed) = None
   <-> GameLogic._inventory g = [])
  /\ (GameLogic._inventory g = [] ->
      GameLogic.spit_next g position direction speed = (g, None))
  /\ (forall k b rest,
        GameLogic._inventory g = (k, b) :: rest ->
        let g' := fst (GameLogic.spit_next g position direction speed) in
        snd (GameLogic.spit_next g position direction speed) = Some k
        /\ GameLogic._inventory g' = rest
        /\ dict_get k (GameLogic._balls g') = Some (released b position direction speed)
        /\ Ball.id (released b position direction speed) = Ball.id b
        /\ Ball.position (released b position direction speed)
           = (fst position, snd position)
        /\ Ball.velocity (released b position direction speed)
           = (fst (_normalize direction) * speed, snd (_normalize direction) * speed)
        /\ (direction <> (0, 0) ->
            Ball.velocity (released b position direction speed)
            = (fst direction
               / sqrt (fst direction * fst direction + snd direction * snd direction)
               * speed,
               snd direction
               / sqrt (fst direction * fst direction + snd direction * snd direction)
               * speed))
        /\ (direction = (0, 0) ->
            Ball.velocity (released b position direction speed) = (0, 0)))
  /\ _normalize (0, 0) = (0, 0)
  /\ (forall n,
        snd (spit_many n g position direction speed)
        = firstn n (keys (GameLogic._inventory g)))
  /\ (forall dt,
        0 < dt -> NoDup (keys (GameLogic._balls g)) ->
        let g1 := fst (GameLogic.step g dt) in
        let captured := StepResult.captured_ball_ids (snd (GameLogic.step g dt)) in
        keys (GameLogic._inventory g1)
        = keys (GameLogic._inventory g) ++ not_held (GameLogic._inventory g) captured
        /\ ((forall k, In k captured -> ~ In k (keys (GameLogic._inventory g))) ->
            keys (GameLogic._inventory g1) = keys (GameLogic._inventory g) ++ captured)
        /\ (forall n,
              snd (spit_many n g1 position direction speed)
              = firstn n (keys (GameLogic._inventory g)
                          ++ not_held (GameLogic._inventory g) captured))).
Proof.
  split; [|split; [|split; [|split; [|split]]]].
  - destruct (GameLogic._inventory g) as [|[k b] rest] eqn:E.
    + rewrite spit_next_nil by assumption. simpl. tauto.
    + rewrite (spit_next_state g k b rest) by assumption. simpl.
      split; discriminate.
  - apply spit_next_nil.
  - intros k b rest E g'. subst g'.
    rewrite (spit_next_state g k b rest) by assumption. simpl.
    split; [reflexivity|]. split; [reflexivity|].
    split; [apply dict_get_set_same|].
    split; [reflexivity|]. split; [reflexivity|]. split; [reflexivity|].
    apply (released_velocity b position direction speed).
  - apply normalize_zero.
  - intros n. apply spit_many_fifo.
  - intros dt Hdt Hnd g1 captured.
    pose proof (step_inventory_keys g dt Hdt Hnd) as Hk.
    fold g1 captured in Hk.
    split; [exact Hk|]. split.
    + intros Hnew. rewrite Hk. f_equal. unfold not_held. apply filter_all.
      intros k I. apply negb_true_iff, not_true_iff_false.
      rewrite mem_iff. now apply Hnew.
    + intros n. rewrite <- Hk. apply spit_many_fifo.
Qed.

Lemma spit_next_is_fifo_witness :
  snd (GameLogic.spit_next world_a_captured (20, 30) (3, 4) 10) = Some "a"%string
  /\ GameLogic._inventory (fst (GameLogic.spit_next world_a_captured (20, 30) (3, 4) 10))
     = []
  /\ Ball.velocity (released ball_a (20, 30) (3, 4) 10) = (6, 8)
  /\ snd (spit_many 1 (fst (GameLogic.step world_a 1)) (20, 30) (3, 4) 10)
     = ["a"%string].
Proof.
  pose proof (spit_next_is_fifo world_a_captured (20, 30) (3, 4) 10)
    as (_ & _ & H3 & _).
  destruct (H3 "a"%string ball_a [] eq_refl) as (R1 & R2 & _ & _ & _ & _ & R7 & _).
  split; [exact R1|]. split; [exact R2|]. split.
  - rewrite R7 by (intros E; inversion E; lra). simpl.
    replace (3 * 3 + 4 * 4) with (5 * 5) by lra.
    rewrite sqrt_square by lra. f_equal; lra.
  - pose proof (spit_next_is_fifo world_a (20, 30) (3, 4) 10)
      as (_ & _ & _ & _ & _ & H6).
    destruct (H6 1) as (_ & _ & H).
    + lra.
    + repeat constructor. intros [].
    + rewrite (H 1%nat), step_world_a. reflexivity.
Defined.

(** C10: when [spit_specific] or [spit_next] releases the ball [b] held under
    the inventory key [k], the ball stored in the active set under [k] is [b]
    with new position and velocity and the same id, radius, colour and mass;
    the inventory loses the key [k] and nothing else, and under every other
    key both dicts hold what they held before. *)
Theorem spit_changes_only_kinematics (g g' : GameLogic.t) (k : string) (b : Ball.t)
    (position direction : Vector) (speed : R) :
  NoDup (keys (GameLogic._inventory g)) ->
  (dict_get k (GameLogic._inventory g) = Some b
   /\ g' = fst (GameLogic.spit_specific g k position direction speed))
  \/ (exists rest, GameLogic._inventory g = (k, b) :: rest
      /\ g' = fst (GameLogic.spit_next g position direction speed)) ->
  exists b',
    dict_get k (GameLogic._balls g') = Some b'
    /\ Ball.id b' = Ball.id b
    /\ Ball.radius b' = Ball.radius b
    /\ Ball.color_rgb b' = Ball.color_rgb b
    /\ Ball.mass b' = Ball.mass b
    /\ Ball.position b' = (fst position, snd position)
    /\ Ball.velocity b'
       = (fst (_normalize direction) * speed, snd (_normalize direction) * speed)
    /\ dict_get k (GameLogic._inventory g') = None
    /\ GameLogic._inventory g' = dict_del k (GameLogic._inventory g)
    /\ forall k', k' <> k ->
         dict_get k' (GameLogic._balls g') = dict_get k' (GameLogic._balls g)
         /\ dict_get k' (GameLogic._inventory g') = dict_get k' (GameLogic._inventory g).
Proof.
  intros Hnd H.
  assert (E : g' = GameLogic.with_balls
                     (GameLogic.with_inventory g (dict_del k (GameLogic._inventory g)))
                     (dict_set k (released b position direction speed)
                        (GameLogic._balls g))).
  { destruct H as [[G ->]|(rest & E & ->)].
    - rewrite spit_specific_eq, G. simpl. now rewrite release_eq.
    - rewrite (spit_next_cons g k b rest) by assumption. simpl.
      now rewrite release_eq. }
  subst g'. simpl. exists (released b position direction speed).
  destruct (released_keeps b position direction speed) as (R1 & R2 & R3 & R4 & R5 & R6).
  split; [apply dict_get_set_same|].
  repeat (split; [assumption|]).
  split; [now apply dict_get_del_same|]. split; [reflexivity|].
  intros k' Hne. split; [now apply dict_get_set_other | now apply dict_get_del_other].
Qed.

Lemma spit_changes_only_kinematics_witness :
  exists b',
    dict_get "a"%string
      (GameLogic._balls (fst (GameLogic.spit_specific world_a_captured "a" (20, 30) (1, 0) 5)))
    = Some b'
    /\ Ball.id b' = Ball.id ball_a
    /\ Ball.radius b' = Ball.radius ball_a
    /\ Ball.color_rgb b' = Ball.color_rgb ball_a
    /\ Ball.mass b' = Ball.mass ball_a.
Proof.
  destruct (spit_changes_only_kinematics world_a_captured
              (fst (GameLogic.spit_specific world_a_captured "a" (20, 30) (1, 0) 5))
              "a"%string ball_a (20, 30) (1, 0) 5)
    as (b' & H1 & H2 & H3 & H4 & H5 & _).
  - repeat constructor. intros [].
  - left. split; reflexivity.
  - exists b'. auto.
Defined.
Arguments world_e : simpl never.
Arguments ball_e : simpl never.
Arguments world_w : simpl never.
Arguments ball_w : simpl never.

(** ** C5 and C9: the boundary policies *)

Lemma moved_bounce (g : GameLogic.t) (dt : R) (b : Ball.t) :
  GameLogic.boundary_bounce g = true ->
  moved g dt b
  = Ball.set_velocity
      (Ball.set_position (pulled g dt b)
         (fst (GameLogic.bounce_axis (fst (integrated_position g dt b))
                 (fst (integrated_velocity g dt b)) (Ball.radius (pulled g dt b))
                 (GameLogic.world_width g)),
          fst (GameLogic.bounce_axis (snd (integrated_position g dt b))
                 (snd (integrated_velocity g dt b)) (Ball.radius (pulled g dt b))
                 (GameLogic.world_height g))))
      (snd (GameLogic.bounce_axis (fst (integrated_position g dt b))
              (fst (integrated_velocity g dt b)) (Ball.radius (pulled g dt b))
              (GameLogic.world_width g)),
       snd (GameLogic.bounce_axis (snd (integrated_position g dt b))
              (snd (integrated_velocity g dt b)) (Ball.radius (pulled g dt b))
              (GameLogic.world_height g))).
Proof.
  intros Hb. unfold moved, GameLogic.integrate, integrated_position, integrated_velocity.
  fold (pulled g dt b). rewrite Hb.
  destruct (GameLogic.gravity g) as [gx gy]. simpl fst. simpl snd.
  do 2 destruct (GameLogic.bounce_axis _ _ _ _). reflexivity.
Qed.

Lemma moved_wrap (g : GameLogic.t) (dt : R) (b : Ball.t) :
  GameLogic.boundary_bounce g = false ->
  moved g dt b
  = Ball.set_velocity
      (Ball.set_position (pulled g dt b)
         (GameLogic.wrap_axis (fst (integrated_position g dt b))
            (Ball.radius (pulled g dt b)) (GameLogic.world_width g),
          GameLogic.wrap_axis (snd (integrated_position g dt b))
            (Ball.radius (pulled g dt b)) (GameLogic.world_height g)))
      (integrated_velocity g dt b).
Proof.
  intros Hb. unfold moved, GameLogic.integrate, integrated_position, integrated_velocity.
  fold (pulled g dt b). rewrite Hb.
  destruct (GameLogic.gravity g) as [gx gy]. reflexivity.
Qed.

Lemma pulled_radius (g : GameLogic.t) (dt : R) (b : Ball.t) :
  Ball.radius (pulled g dt b) = Ball.radius b.
Proof.
  unfold pulled. destruct (Suction.is_active _); [|reflexivity].
  apply pull_keeps.
Qed.

Lemma wrap_axis_cases (p r limit : R) :
  0 < limit -> 0 < r ->
  (limit + r < p -> GameLogic.wrap_axis p r limit = - r)
  /\ (p < - r -> GameLogic.wrap_axis p r limit = limit + r)
  /\ (- r <= p <= limit + r -> GameLogic.wrap_axis p r limit = p).
Proof.
  intros Hl Hr. unfold GameLogic.wrap_axis, Py.gtb, Py.ltb.
  destruct (Rlt_dec p (- r)); destruct (Rlt_dec (limit + r) p);
    repeat split; intros; try reflexivity; lra.
Qed.

(** The kinematics of a ball that is still active after a step are those the
    motion phase gave it. *)
Lemma step_active_kinematics (g : GameLogic.t) (dt : R) (k : string) (b' : Ball.t) :
  0 < dt ->
  NoDup (keys (GameLogic._balls g)) ->
  In (k, b') (GameLogic._balls (fst (GameLogic.step g dt))) ->
  exists b, In (k, b) (GameLogic._balls g)
            /\ Ball.position b' = Ball.position (moved g dt b)
            /\ Ball.velocity b' = Ball.velocity (moved g dt b)
            /\ Ball.radius b' = Ball.radius b.
Proof.
  intros Hdt Hnd Hin.
  destruct (GameLogic.step g dt) as [g' res] eqn:E.
  destruct (step_effect g dt Hdt Hnd g' res E) as (_ & _ & _ & _ & _ & _ & S7 & _).
  destruct (S7 k b' Hin) as (bm & Hm & Hu & _).
  apply in_after_motion in Hm. destruct Hm as (b & Hb & ->).
  exists b. split; [assumption|].
  unfold unpainted, Ball.set_color_rgb in Hu. inversion Hu.
  destruct (moved_keeps g dt b) as (_ & Hr & _). rewrite <- Hr. auto.
Qed.

Lemma moved_e_position : Ball.position (moved world_e 1 ball_e) = (190, 50).
Proof.
  rewrite moved_bounce by reflexivity.
  unfold integrated_position, integrated_velocity, pulled.
  change (Suction.is_active (GameLogic._suction world_e)) with false.
  cbn. unfold GameLogic.bounce_axis. decide_cmp. simpl.
  unfold Py.gtb. decide_cmp. simpl. f_equal; lra.
Qed.

Lemma step_world_e :
  GameLogic._balls (fst (GameLogic.step world_e 1))
  = [("e"%string, moved world_e 1 ball_e)].
Proof.
  rewrite step_positive by lra.
  change (GameLogic._balls world_e) with [("e"%string, ball_e)].
  cbn [dict_update_all map fst snd].
  unfold GameLogic.after_capture.
  change (Suction.is_active (GameLogic._suction world_e)) with false.
  cbv iota.
  rewrite after_mixing_lone by (simpl; lia).
  unfold GameLogic.after_deletion. cbn [values map filter snd].
  rewrite moved_e_position.
  change (GameLogic.delete_zone world_e) with (Rect.mk (200 - 120) (200 - 120) 120 120).
  unfold Rect.contains_point. cbn. decide_cmp. reflexivity.
Qed.

(** C5: with [boundary_bounce] on, every active ball should be left with
    [radius <= x <= width - radius] after a step.  Lines 273-274 mean to see
    to that on the right, but they test the sum [px + radius] against the
    width and clamp to [width - radius], and in binary64 the two do not
    agree.  For the ball [moved_o] (radius 100, within half the world of 300
    by 300): the integrated position is 200.00000000000003; [px + radius]
    rounds to 300.0, which is not greater than the width, so the test of
    line 273 fails and the position is stored as it is, beyond
    [width - radius = 200.0]; the ball is outside the default delete zone, so
    it is still active after the step. *)
Theorem bounce_overshoots_right_wall_in_binary64 :
  PrimFloat.leb 100%float (PrimFloat.div 300%float 2%float) = true
  /\ fst moved_o = (0x1.9000000000001p+7%float, 150%float)
  /\ PrimFloat.ltb 300%float (PrimFloat.add (fst (fst moved_o)) 100%float) = false
  /\ PrimFloat.ltb (PrimFloat.sub 300%float 100%float) (fst (fst moved_o)) = true
  /\ Float64.contains_point (PrimFloat.sub 300%float 120%float)
       (PrimFloat.sub 300%float 120%float) 120%float 120%float (fst moved_o)
     = false.
Proof. repeat split; vm_compute; reflexivity. Qed.

Lemma integrated_velocity_free (g : GameLogic.t) (dt : R) (b : Ball.t) :
  Suction.is_active (GameLogic._suction g) = false ->
  GameLogic.gravity g = (0, 0) ->
  GameLogic.linear_damping_per_second g = 0 ->
  integrated_velocity g dt b = Ball.velocity b.
Proof.
  intros Hs Hg Hd. unfold integrated_velocity, pulled. rewrite Hs, Hg, Hd.
  replace (- 0 * dt) with 0 by ring. rewrite exp_0.
  destruct (Ball.velocity b) as [vx vy]. simpl. f_equal; ring.
Qed.

(** C9: with the wrap policy ([boundary_bounce] off), in a step of positive
    length a ball whose integrated x position (line 265) exceeds
    [world_width + radius] is left at [x = - radius], one below [- radius] at
    [world_width + radius], and likewise on the y axis with [world_height];
    the boundary handling does not touch the velocity: the ball keeps both
    components of the velocity that lines 261-264 computed, which is the
    velocity it had before the step when there is no suction, gravity or
    damping. *)
Theorem wrap_teleports_and_keeps_velocity (g : GameLogic.t) (dt : R) (k : string)
    (b b' : Ball.t) :
  GameLogic.boundary_bounce g = false ->
  0 < dt ->
  0 < GameLogic.world_width g ->
  0 < GameLogic.world_height g ->
  0 < Ball.radius b ->
  NoDup (keys (GameLogic._balls g)) ->
  In (k, b) (GameLogic._balls g) ->
  In (k, b') (GameLogic._balls (fst (GameLogic.step g dt))) ->
  Ball.velocity b' = integrated_velocity g dt b
  /\ (GameLogic.world_width g + Ball.radius b < fst (integrated_position g dt b) ->
      fst (Ball.position b') = - Ball.radius b)
  /\ (fst (integrated_position g dt b) < - Ball.radius b ->
      fst (Ball.position b') = GameLogic.world_width g + Ball.radius b)
  /\ (GameLogic.world_height g + Ball.radius b < snd (integrated_position g dt b) ->
      snd (Ball.position b') = - Ball.radius b)
  /\ (snd (integrated_position g dt b) < - Ball.radius b ->
      snd (Ball.position b') = GameLogic.world_height g + Ball.radius b)
  /\ (Suction.is_active (GameLogic._suction g) = false ->
      GameLogic.gravity g = (0, 0) ->
      GameLogic.linear_damping_per_second g = 0 ->
      Ball.velocity b' = Ball.velocity b).
Proof.
  intros Hb Hdt HW HH Hr Hnd Ib Ib'.
  destruct (step_active_kinematics g dt k b' Hdt Hnd Ib') as (b0 & Ib0 & Hp & Hv & _).
  assert (b0 = b).
  { apply (in_dict_get k b0) in Ib0; [|assumption].
    apply (in_dict_get k b) in Ib; [|assumption]. congruence. }
  subst b0. rewrite Hp, Hv, (moved_wrap g dt b Hb). simpl.
  rewrite pulled_radius.
  destruct (wrap_axis_cases (fst (integrated_position g dt b)) (Ball.radius b)
              (GameLogic.world_width g) HW Hr) as (X1 & X2 & _).
  destruct (wrap_axis_cases (snd (integrated_position g dt b)) (Ball.radius b)
              (GameLogic.world_height g) HH Hr) as (Y1 & Y2 & _).
  repeat split; try assumption.
  intros Hs Hg Hd. now apply integrated_velocity_free.
Qed.

Lemma no_damping_in_world_w :
  exp (- GameLogic.linear_damping_per_second world_w * 1) = 1.
Proof.
  change (GameLogic.linear_damping_per_second world_w) with (_clamp 0 0 5).
  rewrite clamp_inside by lra. replace (- 0 * 1) with 0 by ring. apply exp_0.
Qed.

Lemma integrated_w :
  integrated_velocity world_w 1 ball_w = (3, 4)
  /\ integrated_position world_w 1 ball_w = (218, 54).
Proof.
  unfold integrated_position, integrated_velocity, pulled.
  change (Suction.is_active (GameLogic._suction world_w)) with false.
  cbv iota. rewrite no_damping_in_world_w.
  change (GameLogic.gravity world_w) with (0, 0).
  change (Ball.velocity ball_w) with (3, 4).
  change (Ball.position ball_w) with (215, 50).
  cbn [fst snd]. split; f_equal; lra.
Qed.

Lemma moved_w_position : Ball.position (moved world_w 1 ball_w) = (- 10, 54).
Proof.
  rewrite moved_wrap by reflexivity.
  destruct integrated_w as [_ ->]. rewrite pulled_radius.
  change (Ball.radius ball_w) with 10.
  change (GameLogic.world_width world_w) with 200.
  change (GameLogic.world_height world_w) with 200.
  cbn. unfold GameLogic.wrap_axis, Py.gtb. decide_cmp. reflexivity.
Qed.

Lemma step_world_w :
  GameLogic._balls (fst (GameLogic.step world_w 1))
  = [("w"%string, moved world_w 1 ball_w)].
Proof.
  rewrite step_positive by lra.
  change (GameLogic._balls world_w) with [("w"%string, ball_w)].
  cbn [dict_update_all map fst snd].
  unfold GameLogic.after_capture.
  change (Suction.is_active (GameLogic._suction world_w)) with false.
  cbv iota.
  rewrite after_mixing_lone by (simpl; lia).
  unfold GameLogic.after_deletion. cbn [values map filter snd].
  rewrite moved_w_position.
  change (GameLogic.delete_zone world_w) with (Rect.mk (200 - 120) (200 - 120) 120 120).
  unfold Rect.contains_point. cbn. decide_cmp. reflexivity.
Qed.

Lemma wrap_teleports_and_keeps_velocity_witness :
  Ball.velocity (moved world_w 1 ball_w) = Ball.velocity ball_w
  /\ fst (Ball.position (moved world_w 1 ball_w)) = - Ball.radius ball_w.
Proof.
  destruct (wrap_teleports_and_keeps_velocity world_w 1 "w"%string ball_w
              (moved world_w 1 ball_w))
    as (_ & H2 & _ & _ & _ & H6).
  - reflexivity.
  - lra.
  - simpl. lra.
  - simpl. lra.
  - simpl. lra.
  - repeat constructor. intros [].
  - now left.
  - rewrite step_world_w. now left.
  - split.
    + apply H6; try reflexivity.
      change (GameLogic.linear_damping_per_second world_w) with (_clamp 0 0 5).
      apply clamp_inside. lra.
    + apply H2. destruct integrated_w as [_ ->]. simpl. lra.
Defined.
Arguments world_m : simpl never.
Arguments ball_ma : simpl never.
Arguments ball_mb : simpl never.

(** ** C4: the mixing of a pair *)

Lemma triple_eq (a b c a' b' c' : R) :
  a = a' -> b = b' -> c = c' -> (a, b, c) = (a', b', c').
Proof. now intros -> -> ->. Qed.

Lemma Int_part_unit (x : R) : 0 <= x < 1 -> Int_part x = 0%Z.
Proof. intros H. symmetry. apply Int_part_spec. simpl. lra. Qed.

Lemma fmod_small (x y : R) : 0 < y -> 0 <= x < y -> Py.fmod x y = x.
Proof.
  intros Hy [H0 H1]. unfold Py.fmod. rewrite Int_part_unit; [simpl; ring|].
  unfold Rdiv. pose proof (Rinv_0_lt_compat y Hy) as Hi.
  assert (E : y * / y = 1) by (apply Rinv_r; lra).
  split; nra.
Qed.

Lemma int_zero (x : R) : x = 0 -> Py.int x = 0%Z.
Proof.
  intros ->. unfold Py.int. rewrite leb_true by lra. apply Int_part_unit. lra.
Qed.

Lemma angle_lerp_zero (t : R) : _angle_lerp 0 0 t = 0.
Proof.
  unfold _angle_lerp. pose proof PI_RGT_0 as Hpi.
  replace (0 * (2 * PI) - 0 * (2 * PI) + PI) with PI by ring.
  rewrite (fmod_small PI (2 * PI)) by lra.
  replace (0 * (2 * PI) + (PI - PI) * _clamp t 0 1) with 0 by ring.
  rewrite (fmod_small 0 (2 * PI)) by lra.
  unfold Rdiv. ring.
Qed.

Lemma rgb_to_hsv_grey (v : R) : rgb_to_hsv (v, v, v) = (0, 0, v).
Proof.
  unfold rgb_to_hsv, Py.max3, Py.min3, Py.max, Py.min, Py.gtb.
  decide_cmp. reflexivity.
Qed.

(** On channels in [[0,1]] the divisions of [rgb_to_hsv] have non-zero
    divisors, so Python raises no [ZeroDivisionError] there. *)
Lemma rgb_to_hsv_divisors (r g b : R) :
  unit_color (r, g, b) ->
  Py.min3 r g b <> Py.max3 r g b ->
  0 < Py.max3 r g b /\ 0 < Py.max3 r g b - Py.min3 r g b.
Proof.
  unfold Py.max3, Py.min3. rewrite !max_is_Rmax, !min_is_Rmin.
  unfold Rmax, Rmin. simpl. intros (H1 & H2 & H3).
  repeat destruct (Rle_dec _ _); lra.
Qed.

(** A colour whose green and blue are equal and below its red has hue 0. *)
Lemma rgb_to_hsv_red_tint (v c : R) :
  c < v -> rgb_to_hsv (v, c, c) = (0, (v - c) / v, v).
Proof.
  intros H. unfold rgb_to_hsv, Py.max3, Py.min3, Py.max, Py.min, Py.gtb.
  decide_cmp.
  replace (((v - c) / (v - c) - (v - c) / (v - c)) / 6) with 0
    by (unfold Rdiv; ring).
  rewrite (fmod_small 0 1) by lra. reflexivity.
Qed.

Lemma hsv_to_rgb_hue_zero (s v : R) :
  s <> 0 -> hsv_to_rgb (0, s, v) = (v, v * (1 - s), v * (1 - s)).
Proof.
  intros Hs. unfold hsv_to_rgb. rewrite eqb_false by assumption.
  rewrite (int_zero (0 * 6)) by ring. simpl. apply triple_eq; ring.
Qed.

(** Mixing two colours of hue 0. *)
Lemma mix_hue_zero (src dst : ColorRGB) (t ss sv ds dv : R) :
  rgb_to_hsv src = (0, ss, sv) ->
  rgb_to_hsv dst = (0, ds, dv) ->
  _mix_color_towards src dst t
  = (_clamp (_clamp ((1 - t) * sv + t * dv) 0 0.92) 0 1,
     _clamp (_clamp ((1 - t) * sv + t * dv) 0 0.92
             * (1 - _clamp ((1 - t) * ss + t * Py.max ss ds) 0.35 1)) 0 1,
     _clamp (_clamp ((1 - t) * sv + t * dv) 0 0.92
             * (1 - _clamp ((1 - t) * ss + t * Py.max ss ds) 0.35 1)) 0 1).
Proof.
  intros Hs Hd. unfold _mix_color_towards. rewrite Hs, Hd.
  rewrite angle_lerp_zero.
  rewrite hsv_to_rgb_hue_zero; [reflexivity|].
  pose proof (clamp_range ((1 - t) * ss + t * Py.max ss ds) 0.35 1). lra.
Qed.

Lemma clamp_below (value lo hi : R) :
  value <= lo -> lo <= hi -> _clamp value lo hi = lo.
Proof.
  intros H1 H2. unfold _clamp. rewrite max_is_Rmax, min_is_Rmin.
  apply Rmax_left. apply Rle_trans with value; [apply Rmin_r | assumption].
Qed.

Lemma mix_dark_towards_light :
  _mix_color_towards (grey 0.2) (grey 0.8) 0.5 = (0.5, 0.325, 0.325).
Proof.
  rewrite (mix_hue_zero _ _ _ 0 0.2 0 0.8) by apply rgb_to_hsv_grey.
  replace (Py.max 0 0) with 0 by (rewrite max_is_Rmax, Rmax_left; lra).
  rewrite (clamp_below ((1 - 0.5) * 0 + 0.5 * 0) 0.35 1) by lra.
  rewrite (clamp_inside ((1 - 0.5) * 0.2 + 0.5 * 0.8) 0 0.92) by lra.
  rewrite !clamp_inside by lra. apply triple_eq; lra.
Qed.

Lemma mix_light_towards_dark :
  _mix_color_towards (grey 0.8) (grey 0.2) 0.5 = (0.5, 0.325, 0.325).
Proof.
  rewrite (mix_hue_zero _ _ _ 0 0.8 0 0.2) by apply rgb_to_hsv_grey.
  replace (Py.max 0 0) with 0 by (rewrite max_is_Rmax, Rmax_left; lra).
  rewrite (clamp_below ((1 - 0.5) * 0 + 0.5 * 0) 0.35 1) by lra.
  rewrite (clamp_inside ((1 - 0.5) * 0.8 + 0.5 * 0.2) 0 0.92) by lra.
  rewrite !clamp_inside by lra. apply triple_eq; lra.
Qed.

Lemma mix_light_towards_mixed_dark :
  _mix_color_towards (grey 0.8) (0.5, 0.325, 0.325) 0.5 = (0.65, 0.4225, 0.4225).
Proof.
  rewrite (mix_hue_zero _ _ _ 0 0.8 ((0.5 - 0.325) / 0.5) 0.5);
    [| apply rgb_to_hsv_grey | apply rgb_to_hsv_red_tint; lra].
  replace (Py.max 0 ((0.5 - 0.325) / 0.5)) with 0.35
    by (rewrite max_is_Rmax, Rmax_right; lra).
  rewrite (clamp_below ((1 - 0.5) * 0 + 0.5 * 0.35) 0.35 1) by lra.
  rewrite (clamp_inside ((1 - 0.5) * 0.8 + 0.5 * 0.5) 0 0.92) by lra.
  rewrite !clamp_inside by lra. apply triple_eq; lra.
Qed.

Lemma mix_t_world_m :
  _clamp (GameLogic.max_color_mix_factor_per_second world_m * 1) 0 0.75 = 0.5.
Proof.
  change (GameLogic.max_color_mix_factor_per_second world_m) with (_clamp 0.5 0 5).
  rewrite (clamp_inside 0.5 0 5) by lra. rewrite clamp_inside by lra. lra.
Qed.

(** C4 at a concrete world: two overlapping grey balls, "a" of value 0.2 and
    "b" of value 0.8, mixed with factor 0.5.  Ball "a" gets the mix of its
    colour toward "b"'s colour, (0.5, 0.325, 0.325); ball "b" gets the mix of
    its colour toward that new colour of "a", (0.65, 0.4225, 0.4225), where
    mixing toward the colour "a" had before the pair was processed gives
    (0.5, 0.325, 0.325). *)
Theorem mixing_second_ball_sees_updated_first :
  GameLogic.step world_m 1
  = (GameLogic.with_balls world_m
       [("a"%string, Ball.set_color_rgb ball_ma (0.5, 0.325, 0.325));
        ("b"%string, Ball.set_color_rgb ball_mb (0.65, 0.4225, 0.4225))],
     StepResult.mk 1 [("a"%string, "b"%string)] [] [] [])
  /\ symmetric_mix ball_ma ball_mb 0.5
     = ((0.5, 0.325, 0.325), (0.5, 0.325, 0.325))
  /\ (0.65, 0.4225, 0.4225) <> (0.5, 0.325, 0.325).
Proof.
  split; [|split].
  - rewrite step_positive by lra.
    change (GameLogic._balls world_m) with [("a"%string, ball_ma); ("b"%string, ball_mb)].
    cbn [dict_update_all map fst snd].
    rewrite !moved_at_rest; try reflexivity; try (left; reflexivity);
      try (simpl; lra).
    unfold GameLogic.after_capture.
    change (Suction.is_active (GameLogic._suction world_m)) with false.
    cbv iota.
    unfold GameLogic.after_mixing. rewrite mix_t_world_m.
    unfold Py.gtb. rewrite (ltb_true 0 0.5) by lra.
    cbn [combinations2 seq List.length map app fold_left].
    unfold GameLogic.mix_pair. cbn [values map nth_error snd].
    change (Ball.position ball_ma) with (50, 50).
    change (Ball.position ball_mb) with (55, 50).
    change (Ball.radius ball_ma) with 10.
    change (Ball.radius ball_mb) with 10.
    cbv iota beta.
    rewrite leb_true by (apply hypot_le; lra).
    cbn [Ball.color_rgb Ball.set_color_rgb set_nth Ball.id].
    change (Ball.color_rgb ball_ma) with (grey 0.2).
    change (Ball.color_rgb ball_mb) with (grey 0.8).
    rewrite mix_dark_towards_light, mix_light_towards_mixed_dark.
    unfold GameLogic.after_deletion. cbn [values map filter snd].
    change (GameLogic.delete_zone world_m) with (Rect.mk (200 - 120) (200 - 120) 120 120).
    unfold Rect.contains_point. cbn [Ball.position Ball.set_color_rgb].
    change (Ball.position ball_ma) with (50, 50).
    change (Ball.position ball_mb) with (55, 50).
    cbn. decide_cmp. reflexivity.
  - unfold symmetric_mix.
    change (Ball.color_rgb ball_ma) with (grey 0.2).
    change (Ball.color_rgb ball_mb) with (grey 0.8).
    now rewrite mix_dark_towards_light, mix_light_towards_dark.
  - intros E. inversion E. lra.
Qed.

(** * Further properties of [logic.py] *)

(** ** [_clamp], [_normalize] and [Rect.contains_point] *)

(** [_clamp]: with ordered bounds the result lies between them, a value
    already between them is returned as it is, and clamping twice is clamping
    once; with the bounds the wrong way round ([hi < lo]) the result is [lo]
    whatever the value. *)
Theorem clamp_contract (value lo hi : R) :
  (lo <= hi ->
   lo <= _clamp value lo hi <= hi
   /\ (lo <= value <= hi -> _clamp value lo hi = value)
   /\ _clamp (_clamp value lo hi) lo hi = _clamp value lo hi)
  /\ (hi < lo -> _clamp value lo hi = lo).
Proof.
  split.
  - intros H. pose proof (clamp_range value lo hi H) as Hr.
    split; [assumption|]. split; [apply clamp_inside|].
    now apply clamp_inside.
  - intros H. unfold _clamp. rewrite max_is_Rmax, min_is_Rmin.
    apply Rmax_left. apply Rle_trans with hi; [apply Rmin_l | lra].
Qed.

Lemma clamp_contract_witness :
  0 <= _clamp 7 0 5 <= 5 /\ _clamp 3 0 5 = 3 /\ _clamp 3 5 0 = 5.
Proof.
  destruct (clamp_contract 7 0 5) as [H1 _].
  destruct (clamp_contract 3 0 5) as [H2 _].
  destruct (clamp_contract 3 5 0) as [_ H3].
  split; [apply H1; lra|]. split; [apply H2; lra | apply H3; lra].
Defined.

Lemma hypot_ge (x y : R) : Rabs x <= Py.hypot x y /\ Rabs y <= Py.hypot x y.
Proof.
  unfold Py.hypot. split.
  - rewrite <- (sqrt_Rsqr_abs x). apply sqrt_le_1_alt. unfold Rsqr. nra.
  - rewrite <- (sqrt_Rsqr_abs y). apply sqrt_le_1_alt. unfold Rsqr. nra.
Qed.

Lemma div_by_longer (x m : R) :
  0 < m -> Rabs x <= m ->
  -1 <= x / m <= 1 /\ (0 <= x -> 0 <= x / m) /\ (x <= 0 -> x / m <= 0).
Proof.
  intros Hm Hx. pose proof (Rinv_0_lt_compat m Hm) as Hi.
  assert (E : m * / m = 1) by (apply Rinv_r; lra).
  assert (H1 : - m <= x <= m) by (unfold Rabs in Hx; destruct (Rcase_abs x); lra).
  unfold Rdiv. repeat split; intros; nra.
Qed.

(** [_normalize] never returns a component larger than 1 in absolute value,
    and never turns a component round: a non-negative component stays
    non-negative, a non-positive one non-positive.  The zero vector is
    returned as the zero vector, without a division. *)
Theorem normalize_is_bounded_and_keeps_signs (vx vy : R) :
  -1 <= fst (_normalize (vx, vy)) <= 1
  /\ -1 <= snd (_normalize (vx, vy)) <= 1
  /\ (0 <= vx -> 0 <= fst (_normalize (vx, vy)))
  /\ (vx <= 0 -> fst (_normalize (vx, vy)) <= 0)
  /\ (0 <= vy -> 0 <= snd (_normalize (vx, vy)))
  /\ (vy <= 0 -> snd (_normalize (vx, vy)) <= 0)
  /\ _normalize (0, 0) = (0, 0).
Proof.
  assert (Hz : _normalize (0, 0) = (0, 0)).
  { unfold _normalize. rewrite (hypot_zero 0 0) by reflexivity.
    now rewrite eqb_true. }
  destruct (hypot_ge vx vy) as [Gx Gy].
  unfold _normalize.
  destruct (Req_dec_T (Py.hypot vx vy) 0) as [E|E].
  - rewrite eqb_true by assumption. simpl.
    rewrite E in Gx, Gy.
    pose proof (Rabs_pos vx). pose proof (Rabs_pos vy).
    repeat split; try lra. exact Hz.
  - rewrite eqb_false by assumption. simpl.
    assert (Hm : 0 < Py.hypot vx vy).
    { pose proof (Rabs_pos vx). lra. }
    destruct (div_by_longer vx _ Hm Gx) as (X1 & X2 & X3).
    destruct (div_by_longer vy _ Hm Gy) as (Y1 & Y2 & Y3).
    repeat split; try lra; try assumption.
Qed.

(** [Rect.contains_point]: a point is inside exactly when both coordinates
    lie between the edges, edges included; so both the near and the far
    corner of a rectangle of non-negative size are inside, and a rectangle of
    negative width or height contains no point. *)
Theorem contains_point_is_inclusive (r : Rect.t) (px py : R) :
  (Rect.contains_point r (px, py) = true <->
   Rect.x r <= px <= Rect.x r + Rect.width r
   /\ Rect.y r <= py <= Rect.y r + Rect.height r)
  /\ (0 <= Rect.width r -> 0 <= Rect.height r ->
      Rect.contains_point r (Rect.x r, Rect.y r) = true
      /\ Rect.contains_point r (Rect.x r + Rect.width r, Rect.y r + Rect.height r) = true)
  /\ (Rect.width r < 0 \/ Rect.height r < 0 -> Rect.contains_point r (px, py) = false).
Proof.
  assert (Hiff : forall qx qy,
            Rect.contains_point r (qx, qy) = true <->
            Rect.x r <= qx <= Rect.x r + Rect.width r
            /\ Rect.y r <= qy <= Rect.y r + Rect.height r).
  { intros qx qy. unfold Rect.contains_point, Py.leb.
    repeat destruct (Rle_dec _ _); simpl; split; intros; try discriminate;
      try reflexivity; lra. }
  split; [apply Hiff|]. split.
  - intros Hw Hh. split; apply Hiff; lra.
  - intros H. apply not_true_is_false. rewrite Hiff. lra.
Qed.

Lemma contains_point_is_inclusive_witness :
  Rect.contains_point (Rect.mk 80 80 120 120) (80, 80) = true
  /\ Rect.contains_point (Rect.mk 80 80 120 120) (200, 200) = true
  /\ Rect.contains_point (Rect.mk 80 80 (-1) 120) (80, 80) = false.
Proof.
  destruct (contains_point_is_inclusive (Rect.mk 80 80 120 120) 0 0) as (_ & H & _).
  destruct (contains_point_is_inclusive (Rect.mk 80 80 (-1) 120) 80 80) as (_ & _ & H').
  simpl in H, H'. destruct H as [H1 H2]; try lra.
  replace (80 + 120) with 200 in H2 by lra.
  split; [exact H1|]. split; [exact H2|]. apply H'. lra.
Defined.

(** ** Hue interpolation and [rgb_to_hsv] *)

Lemma fmod_range (x y : R) : 0 < y -> 0 <= Py.fmod x y < y.
Proof.
  intros Hy. unfold Py.fmod.
  destruct (base_Int_part (x / y)) as [H1 H2].
  set (n := IZR (Int_part (x / y))) in *.
  assert (E : x = x / y * y) by (field; lra).
  split; nra.
Qed.

Lemma angle_lerp_range (a b t : R) : 0 <= _angle_lerp a b t < 1.
Proof.
  unfold _angle_lerp. pose proof PI_RGT_0 as Hpi.
  set (x := a * (2 * PI) + _ * _).
  destruct (fmod_range x (2 * PI)) as [H1 H2]; [lra|].
  assert (Hi : 0 < / (2 * PI)) by (apply Rinv_0_lt_compat; lra).
  assert (E : 2 * PI * / (2 * PI) = 1) by (apply Rinv_r; lra).
  unfold Rdiv. split; nra.
Qed.

(** [_angle_lerp] answers a hue between 0 and 1 for every pair of
    arguments and every factor, also for arguments outside that range; the
    angle it interpolates along, from the first hue to the second, is at most
    half a turn either way. *)
Theorem angle_lerp_stays_a_hue (a b t : R) :
  0 <= _angle_lerp a b t <= 1
  /\ - PI <= Py.fmod (b * (2 * PI) - a * (2 * PI) + PI) (2 * PI) - PI <= PI.
Proof.
  split; [pose proof (angle_lerp_range a b t); lra|].
  pose proof PI_RGT_0.
  destruct (fmod_range (b * (2 * PI) - a * (2 * PI) + PI) (2 * PI)); lra.
Qed.

Lemma max3_spec (r g b : R) :
  r <= Py.max3 r g b /\ g <= Py.max3 r g b /\ b <= Py.max3 r g b
  /\ (Py.max3 r g b = r \/ Py.max3 r g b = g \/ Py.max3 r g b = b).
Proof.
  unfold Py.max3. rewrite !max_is_Rmax. unfold Rmax.
  repeat destruct (Rle_dec _ _); lra.
Qed.

Lemma min3_spec (r g b : R) :
  Py.min3 r g b <= r /\ Py.min3 r g b <= g /\ Py.min3 r g b <= b
  /\ (Py.min3 r g b = r \/ Py.min3 r g b = g \/ Py.min3 r g b = b).
Proof.
  unfold Py.min3. rewrite !min_is_Rmin. unfold Rmin.
  repeat destruct (Rle_dec _ _); lra.
Qed.

(** [rgb_to_hsv] on channels in [[0,1]]: hue, saturation and value all lie
    in [[0,1]], and the value is the largest channel. *)
Theorem rgb_to_hsv_ranges (r g b : R) :
  unit_color (r, g, b) ->
  0 <= fst (fst (rgb_to_hsv (r, g, b))) <= 1
  /\ 0 <= snd (fst (rgb_to_hsv (r, g, b))) <= 1
  /\ 0 <= snd (rgb_to_hsv (r, g, b)) <= 1
  /\ snd (rgb_to_hsv (r, g, b)) = Rmax (Rmax r g) b.
Proof.
  intros (Hr & Hg & Hb).
  destruct (max3_spec r g b) as (M1 & M2 & M3 & M4).
  destruct (min3_spec r g b) as (N1 & N2 & N3 & N4).
  assert (Hv : Py.max3 r g b = Rmax (Rmax r g) b)
    by (unfold Py.max3; now rewrite !max_is_Rmax).
  unfold rgb_to_hsv.
  destruct (Req_dec_T (Py.min3 r g b) (Py.max3 r g b)) as [E|E].
  - rewrite eqb_true by assumption. simpl. repeat split; try lra.
  - rewrite eqb_false by assumption. simpl.
    split.
    { match goal with
      | |- 0 <= Py.fmod ?x 1 <= 1 =>
          destruct (fmod_range x 1); lra
      end. }
    split; [|split; [lra | assumption]].
    set (mx := Py.max3 r g b) in *. set (mn := Py.min3 r g b) in *.
    assert (Hmx : 0 < mx) by lra.
    assert (Hi : 0 < / mx) by now apply Rinv_0_lt_compat.
    assert (E1 : mx * / mx = 1) by (apply Rinv_r; lra).
    unfold Rdiv. split; nra.
Qed.

Lemma rgb_to_hsv_ranges_witness :
  0 <= fst (fst (rgb_to_hsv (0.9, 0.1, 0.4))) <= 1
  /\ 0 <= snd (fst (rgb_to_hsv (0.9, 0.1, 0.4))) <= 1
  /\ 0 <= snd (rgb_to_hsv (0.9, 0.1, 0.4)) <= 1
  /\ snd (rgb_to_hsv (0.9, 0.1, 0.4)) = Rmax (Rmax 0.9 0.1) 0.4.
Proof.
  apply (rgb_to_hsv_ranges 0.9 0.1 0.4). simpl. lra.
Defined.

(** ** Adding and removing balls *)

Lemma with_balls_same (g : GameLogic.t) : GameLogic.with_balls g (GameLogic._balls g) = g.
Proof. now destruct g. Qed.

Lemma with_inventory_same (g : GameLogic.t) :
  GameLogic.with_inventory g (GameLogic._inventory g) = g.
Proof. now destruct g. Qed.

Lemma dict_del_set_fresh {V : Type} (k : string) (v : V) (d : dict V) :
  ~ In k (keys d) -> dict_del k (dict_set k v d) = d.
Proof.
  induction d as [|[k' v'] d IH]; simpl; intros H.
  - now rewrite String.eqb_refl.
  - destruct (String.eqb_spec k k') as [->|Hne]; [exfalso; apply H; now left|].
    simpl. destruct (String.eqb_spec k k'); [contradiction|].
    f_equal. apply IH. intros I. apply H. now right.
Qed.

(** [add_ball]: the answer is the given id, or the drawn one when none (or
    the empty string) is given; looking that id up afterwards gives a ball
    with exactly the given position, velocity, radius and colour; every other
    id of the active set keeps its ball and the inventory is not touched; an
    id that was already active keeps its place in the iteration order (its
    ball is replaced), a new one goes to the end. *)
Theorem add_ball_then_lookup (g : GameLogic.t) (uuid_hex : string)
    (position velocity : Vector) (radius : R) (color_rgb : ColorRGB)
    (ball_id : option string) :
  let k := snd (GameLogic.add_ball g uuid_hex position velocity radius color_rgb ball_id) in
  let g' := fst (GameLogic.add_ball g uuid_hex position velocity radius color_rgb ball_id) in
  (forall s, ball_id = Some s -> s <> EmptyString -> k = s)
  /\ (ball_id = None \/ ball_id = Some EmptyString -> k = uuid_hex)
  /\ (exists b, dict_get k (GameLogic._balls g') = Some b
                /\ Ball.id b = k /\ Ball.position b = position
                /\ Ball.velocity b = velocity /\ Ball.radius b = radius
                /\ Ball.color_rgb b = color_rgb)
  /\ (forall k', k' <> k ->
        dict_get k' (GameLogic._balls g') = dict_get k' (GameLogic._balls g))
  /\ GameLogic._inventory g' = GameLogic._inventory g
  /\ (In k (keys (GameLogic._balls g)) ->
      keys (GameLogic._balls g') = keys (GameLogic._balls g))
  /\ (~ In k (keys (GameLogic._balls g)) ->
      keys (GameLogic._balls g') = keys (GameLogic._balls g) ++ [k]).
Proof.
  unfold GameLogic.add_ball. destruct position as [px py], velocity as [vx vy].
  simpl. split; [|split; [|split; [|split; [|split; [|split]]]]].
  - intros s -> Hs. simpl. destruct (String.eqb_spec s EmptyString); [contradiction | reflexivity].
  - intros [->| ->]; reflexivity.
  - eexists. split; [apply dict_get_set_same|]. simpl. repeat split.
  - intros k' Hne. now apply dict_get_set_other.
  - reflexivity.
  - intros H. rewrite keys_dict_set. apply mem_iff in H. now rewrite H.
  - intros H. rewrite keys_dict_set.
    destruct (mem _ _) eqn:E; [apply mem_iff in E; contradiction | reflexivity].
Qed.

Lemma add_ball_then_lookup_witness :
  snd (GameLogic.add_ball sample_world "f00d" (1, 2) (3, 4) 5 (grey 0.5) (Some "a"%string))
  = "a"%string
  /\ snd (GameLogic.add_ball sample_world "f00d" (1, 2) (3, 4) 5 (grey 0.5) (Some ""%string))
     = "f00d"%string.
Proof.
  pose proof (add_ball_then_lookup sample_world "f00d" (1, 2) (3, 4) 5 (grey 0.5)
                (Some "a"%string)) as (H1 & _).
  pose proof (add_ball_then_lookup sample_world "f00d" (1, 2) (3, 4) 5 (grey 0.5)
                (Some ""%string)) as (_ & H2 & _).
  split; [apply (H1 "a"%string eq_refl); discriminate | apply H2; now right].
Defined.

(** [remove_ball] on a world whose active dict repeats no key: the answer is
    [True] exactly when the id was active; afterwards the id is not active,
    every other active id keeps its ball and the inventory is untouched; for
    an id that is not active, one held in the inventory included, the world
    stays as it is. *)
Theorem remove_ball_contract (g : GameLogic.t) (ball_id : string) :
  NoDup (keys (GameLogic._balls g)) ->
  (snd (GameLogic.remove_ball g ball_id) = true
   <-> In ball_id (keys (GameLogic._balls g)))
  /\ dict_get ball_id (GameLogic._balls (fst (GameLogic.remove_ball g ball_id))) = None
  /\ (forall k', k' <> ball_id ->
        dict_get k' (GameLogic._balls (fst (GameLogic.remove_ball g ball_id)))
        = dict_get k' (GameLogic._balls g))
  /\ GameLogic._inventory (fst (GameLogic.remove_ball g ball_id)) = GameLogic._inventory g
  /\ (~ In ball_id (keys (GameLogic._balls g)) ->
      GameLogic.remove_ball g ball_id = (g, false)).
Proof.
  intros Hnd. unfold GameLogic.remove_ball, dict_pop. simpl.
  split; [|split; [|split; [|split]]].
  - destruct (dict_get ball_id (GameLogic._balls g)) as [b|] eqn:G.
    + split; [intros _|reflexivity]. apply dict_get_in in G. now apply in_keys with b.
    + apply dict_get_none in G. split; [discriminate | contradiction].
  - now apply dict_get_del_same.
  - intros k' Hne. now apply dict_get_del_other.
  - reflexivity.
  - intros H. rewrite dict_del_absent by assumption.
    apply dict_get_none in H. rewrite H. now rewrite with_balls_same.
Qed.

Lemma remove_ball_contract_witness :
  (snd (GameLogic.remove_ball world_a_captured "a") = true
   <-> In "a"%string (keys (GameLogic._balls world_a_captured)))
  /\ GameLogic.remove_ball world_a_captured "a" = (world_a_captured, false).
Proof.
  destruct (remove_ball_contract world_a_captured "a"%string) as (H1 & _ & _ & _ & H5).
  - constructor.
  - split; [exact H1 | apply H5; intros []].
Defined.

(** Adding a ball under an id that is not active and removing that id again
    gives the world back: [remove_ball] answers [True] and the active dict is
    the one before the [add_ball], order included. *)
Theorem add_then_remove_restores (g : GameLogic.t) (uuid_hex : string)
    (position velocity : Vector) (radius : R) (color_rgb : ColorRGB)
    (ball_id : option string) :
  ~ In (GameLogic.assigned_id uuid_hex ball_id) (keys (GameLogic._balls g)) ->
  let added := GameLogic.add_ball g uuid_hex position velocity radius color_rgb ball_id in
  GameLogic.remove_ball (fst added) (snd added) = (g, true).
Proof.
  intros H. unfold GameLogic.add_ball.
  destruct position as [px py], velocity as [vx vy]. simpl.
  unfold GameLogic.remove_ball, dict_pop. simpl.
  rewrite dict_get_set_same, dict_del_set_fresh by assumption.
  now destruct g.
Qed.

Lemma add_then_remove_restores_witness :
  GameLogic.remove_ball
    (fst (GameLogic.add_ball world_a "f00d" (1, 2) (3, 4) 5 (grey 0.5) (Some "b"%string)))
    (snd (GameLogic.add_ball world_a "f00d" (1, 2) (3, 4) 5 (grey 0.5) (Some "b"%string)))
  = (world_a, true).
Proof.
  apply (add_then_remove_restores world_a "f00d" (1, 2) (3, 4) 5 (grey 0.5)
           (Some "b"%string)).
  simpl. intros [E|[]]. discriminate E.
Defined.

(** ** Snapshots, settings and suction control *)

Lemma keyed_ids (d : dict Ball.t) : keyed d -> map Ball.id (values d) = keys d.
Proof.
  intros [_ HF]. unfold values, keys. rewrite map_map.
  apply map_ext_in. intros kv I. rewrite Forall_forall in HF. now apply HF.
Qed.

(** In every world reached from a fresh one by any sequence of calls, the ids
    of the balls of [get_balls_snapshot] are the keys of the active dict, in
    order and without repetition, and [get_inventory_ids] lists the ids of the
    balls held in the inventory, without repetition. *)
Theorem snapshot_ids_are_the_keys (world_width world_height : R)
    (delete_zone : option Rect.t) (boundary_bounce : bool) (damping mix : R)
    (gravity : Vector) (calls : list call) :
  let g := fst (run (GameLogic.init world_width world_height delete_zone
                       boundary_bounce damping mix gravity) [] calls) in
  map Ball.id (GameLogic.get_balls_snapshot g) = keys (GameLogic._balls g)
  /\ NoDup (map Ball.id (GameLogic.get_balls_snapshot g))
  /\ GameLogic.get_inventory_ids g = map Ball.id (values (GameLogic._inventory g))
  /\ NoDup (GameLogic.get_inventory_ids g).
Proof.
  intros g.
  assert (Hwf : wf g) by (apply wf_run, wf_init).
  destruct Hwf as [Hb Hi]. unfold GameLogic.get_balls_snapshot, GameLogic.get_inventory_ids.
  rewrite (keyed_ids _ Hb), (keyed_ids _ Hi).
  destruct Hb, Hi. auto.
Qed.

Lemma same_settings_refl (g : GameLogic.t) : same_settings g g.
Proof. repeat split. Qed.

Lemma same_settings_trans (g1 g2 g3 : GameLogic.t) :
  same_settings g1 g2 -> same_settings g2 g3 -> same_settings g1 g3.
Proof.
  unfold same_settings. intros (A1 & A2 & A3 & A4 & A5 & A6) (B1 & B2 & B3 & B4 & B5 & B6).
  repeat split; congruence.
Qed.

(** What a step leaves alone, whatever [dt] is. *)
Lemma step_frame (g : GameLogic.t) (dt : R) :
  same_settings g (fst (GameLogic.step g dt))
  /\ GameLogic.delete_zone (fst (GameLogic.step g dt)) = GameLogic.delete_zone g
  /\ GameLogic._suction (fst (GameLogic.step g dt)) = GameLogic._suction g.
Proof.
  destruct (Rle_dec dt 0) as [Hle|Hgt].
  - rewrite step_nonpositive by assumption. simpl. repeat split.
  - destruct (step_phases g dt) as (b1 & inv & cap & b2 & mixed & b3 & del & _ & _ & _ & E);
      [lra|].
    rewrite E. simpl. repeat split.
Qed.

Lemma same_settings_perform (g : GameLogic.t) (c : call) : same_settings g (perform g c).
Proof.
  destruct c as [u p v r col bid | bid | rect | p r s cr | p | | p d s | bid p d s | dt];
    simpl.
  - unfold GameLogic.add_ball. destruct p, v. repeat split.
  - repeat split.
  - repeat split.
  - repeat split.
  - unfold GameLogic.update_suction. destruct (negb _); repeat split.
  - repeat split.
  - unfold GameLogic.spit_next. destruct (GameLogic._inventory g) as [|[k b] rest];
      [repeat split|]. simpl. rewrite release_eq. repeat split.
  - rewrite spit_specific_eq. destruct (dict_get _ _); simpl;
      [rewrite release_eq|]; repeat split.
  - apply step_frame.
Qed.

(** No call changes the settings given to the constructor: after any sequence
    of calls the world has the width, height, boundary policy and gravity it
    was built with, and its damping and mixing rates are the constructor's
    arguments clamped to [[0, 5]]. *)
Theorem settings_are_fixed (world_width world_height : R)
    (delete_zone : option Rect.t) (boundary_bounce : bool) (damping mix : R)
    (gravity : Vector) (calls : list call) :
  let g := fst (run (GameLogic.init world_width world_height delete_zone
                       boundary_bounce damping mix gravity) [] calls) in
  GameLogic.world_width g = world_width
  /\ GameLogic.world_height g = world_height
  /\ GameLogic.boundary_bounce g = boundary_bounce
  /\ GameLogic.gravity g = gravity
  /\ GameLogic.linear_damping_per_second g = _clamp damping 0 5
  /\ GameLogic.max_color_mix_factor_per_second g = _clamp mix 0 5
  /\ 0 <= GameLogic.linear_damping_per_second g <= 5
  /\ 0 <= GameLogic.max_color_mix_factor_per_second g <= 5.
Proof.
  intros g.
  assert (H : same_settings (GameLogic.init world_width world_height delete_zone
                               boundary_bounce damping mix gravity) g).
  { subst g. generalize (@nil string).
    generalize (GameLogic.init world_width world_height delete_zone
                  boundary_bounce damping mix gravity).
    induction calls as [|c calls IH]; intros g0 alive; simpl.
    - apply same_settings_refl.
    - eapply same_settings_trans; [apply (same_settings_perform g0 c) | apply IH]. }
  destruct H as (H1 & H2 & H3 & H4 & H5 & H6). simpl in *.
  rewrite H1, H2, H3, H4, H5, H6.
  repeat split; try reflexivity; apply clamp_range; lra.
Qed.

(** The three suction calls: [update_suction] on an inactive suction changes
    nothing; on an active one it moves the position only.  [stop_suction]
    keeps position, radius, strength and capture radius; a later
    [start_suction] without overrides therefore brings back the parameters of
    the previous activation.  None of the three touches the balls or the
    inventory. *)
Theorem suction_controls (g : GameLogic.t) (p q : Vector)
    (radius strength capture_radius : option R) :
  (Suction.is_active (GameLogic._suction g) = false -> GameLogic.update_suction g q = g)
  /\ (let s := GameLogic._suction (GameLogic.start_suction g p radius strength capture_radius) in
      GameLogic._suction
        (GameLogic.update_suction
           (GameLogic.start_suction g p radius strength capture_radius) q)
      = Suction.mk true (fst q, snd q) (Suction.radius s) (Suction.strength s)
          (Suction.capture_radius s))
  /\ (let s := GameLogic._suction (GameLogic.start_suction g p radius strength capture_radius) in
      GameLogic._suction
        (GameLogic.start_suction
           (GameLogic.stop_suction
              (GameLogic.start_suction g p radius strength capture_radius))
           q None None None)
      = Suction.mk true (fst q, snd q) (Suction.radius s) (Suction.strength s)
          (Suction.capture_radius s))
  /\ GameLogic._suction (GameLogic.update_suction (GameLogic.stop_suction g) q)
     = Suction.mk false (Suction.position (GameLogic._suction g))
         (Suction.radius (GameLogic._suction g)) (Suction.strength (GameLogic._suction g))
         (Suction.capture_radius (GameLogic._suction g))
  /\ (forall g', g' = GameLogic.start_suction g p radius strength capture_radius
                 \/ g' = GameLogic.update_suction g q \/ g' = GameLogic.stop_suction g ->
        GameLogic._balls g' = GameLogic._balls g
        /\ GameLogic._inventory g' = GameLogic._inventory g).
Proof.
  split; [|split; [|split; [|split]]].
  - intros H. unfold GameLogic.update_suction. now rewrite H.
  - reflexivity.
  - reflexivity.
  - reflexivity.
  - intros g' [->|[->| ->]]; try (split; reflexivity).
    unfold GameLogic.update_suction. destruct (negb _); split; reflexivity.
Qed.

Lemma suction_controls_witness :
  GameLogic.update_suction sample_world (7, 7) = sample_world.
Proof.
  apply (proj1 (suction_controls sample_world (0, 0) (7, 7) None None None)).
  reflexivity.
Defined.

(** ** More on spitting *)

(** [spit_specific] with an id that is not in the inventory answers [False]
    and leaves the world as it is; the active set is not searched, so this is
    also what happens for the id of an active ball. *)
Theorem spit_specific_of_absent_id (g : GameLogic.t) (ball_id : string)
    (position direction : Vector) (speed : R) :
  ~ In ball_id (keys (GameLogic._inventory g)) ->
  GameLogic.spit_specific g ball_id position direction speed = (g, false).
Proof.
  intros H. rewrite spit_specific_eq. rewrite dict_del_absent by assumption.
  apply dict_get_none in H. rewrite H. now rewrite with_inventory_same.
Qed.

Lemma spit_specific_of_absent_id_witness :
  In "a"%string (keys (GameLogic._balls world_a))
  /\ GameLogic.spit_specific world_a "a" (1, 2) (1, 0) 5 = (world_a, false).
Proof.
  split; [now left|].
  apply (spit_specific_of_absent_id world_a "a"%string (1, 2) (1, 0) 5).
  intros [].
Defined.

(** Asking [spit_specific] for the first id of the inventory does what
    [spit_next] does: the same world results, with answers [True] and that
    id. *)
Theorem spit_specific_of_first_is_spit_next (g : GameLogic.t) (k : string)
    (b : Ball.t) (rest : dict Ball.t) (position direction : Vector) (speed : R) :
  GameLogic._inventory g = (k, b) :: rest ->
  fst (GameLogic.spit_specific g k position direction speed)
  = fst (GameLogic.spit_next g position direction speed)
  /\ snd (GameLogic.spit_specific g k position direction speed) = true
  /\ snd (GameLogic.spit_next g position direction speed) = Some k.
Proof.
  intros E. rewrite (spit_next_cons g k b rest) by assumption.
  rewrite spit_specific_eq.
  assert (G : dict_get k (GameLogic._inventory g) = Some b)
    by (rewrite E; simpl; now rewrite String.eqb_refl).
  rewrite G. auto.
Qed.

Lemma spit_specific_of_first_is_spit_next_witness :
  fst (GameLogic.spit_specific world_a_captured "a" (1, 2) (1, 0) 5)
  = fst (GameLogic.spit_next world_a_captured (1, 2) (1, 0) 5)
  /\ snd (GameLogic.spit_specific world_a_captured "a" (1, 2) (1, 0) 5) = true
  /\ snd (GameLogic.spit_next world_a_captured (1, 2) (1, 0) 5) = Some "a"%string.
Proof.
  apply (spit_specific_of_first_is_spit_next world_a_captured "a"%string ball_a []
           (1, 2) (1, 0) 5).
  reflexivity.
Defined.

(** ** Radius and mass never change *)

Lemma mass_ok_perform (g : GameLogic.t) (c : call) :
  NoDup (keys (GameLogic._balls g)) ->
  all_balls mass_ok g -> all_balls mass_ok (perform g c).
Proof.
  intros Hnd [Hb Hi].
  destruct c as [u p v r col bid | bid | rect | p r s cr | p | | p d s | bid p d s | dt];
    simpl; try (split; assumption).
  - unfold GameLogic.add_ball. destruct p as [px py], v as [vx vy]. simpl.
    split; simpl; [|assumption]. intros k b I.
    apply in_dict_set in I. destruct I as [[_ ->]|I]; [reflexivity | eauto].
  - split; simpl; [|assumption]. intros k b I. apply in_dict_del_sub in I. eauto.
  - unfold GameLogic.update_suction. destruct (negb _); split; assumption.
  - destruct (GameLogic._inventory g) as [|[k0 b0] rest] eqn:E.
    + rewrite spit_next_nil by assumption. split; [assumption|].
      simpl. rewrite E. exact Hi.
    + rewrite (spit_next_state g k0 b0 rest) by assumption. split; simpl.
      * intros k b I. apply in_dict_set in I. destruct I as [[_ ->]|I]; [|eauto].
        apply (Hi k0 b0). now left.
      * intros k b I. apply (Hi k b). now right.
  - rewrite spit_specific_eq.
    destruct (dict_get bid (GameLogic._inventory g)) as [b0|] eqn:G; simpl fst.
    + rewrite release_eq. split; simpl.
      * intros k b I. apply in_dict_set in I. destruct I as [[_ ->]|I]; [|eauto].
        apply (Hi bid b0). now apply dict_get_in.
      * intros k b I. apply in_dict_del_sub in I. eauto.
    + split; simpl; [assumption|]. intros k b I. apply in_dict_del_sub in I. eauto.
  - destruct (Rle_dec dt 0) as [Hle|Hgt].
    + rewrite step_nonpositive by assumption. split; assumption.
    + assert (Hdt : 0 < dt) by lra.
      destruct (GameLogic.step g dt) as [g' res] eqn:E. simpl.
      destruct (step_effect g dt Hdt Hnd g' res E)
        as (_ & _ & _ & _ & _ & _ & S7 & S8 & _).
      assert (Hm : forall k bm, In (k, bm) (GameLogic.after_motion g dt) -> mass_ok bm).
      { intros k bm I. apply in_after_motion in I. destruct I as (b & I & ->).
        unfold mass_ok. destruct (moved_keeps g dt b) as (_ & -> & _ & ->).
        apply (Hb k b I). }
      split.
      * intros k b' I. destruct (S7 k b' I) as (bm & Im & Hu & _).
        specialize (Hm k bm Im). unfold mass_ok in *.
        pose proof (f_equal Ball.mass Hu) as E1.
        pose proof (f_equal Ball.radius Hu) as E2. simpl in E1, E2.
        now rewrite <- E1, <- E2.
      * intros k b I. destruct (S8 k b I); eauto.
Qed.

Lemma mass_ok_run (calls : list call) :
  forall g alive,
  wf g -> all_balls mass_ok g -> all_balls mass_ok (fst (run g alive calls)).
Proof.
  induction calls as [|c calls IH]; intros g alive Hwf Hok; simpl; [assumption|].
  apply IH; [now apply wf_perform|].
  apply mass_ok_perform; [apply Hwf | assumption].
Qed.

(** In every world reached from a fresh one by any sequence of calls, every
    ball, active or in the inventory, has the mass [max(1e-6, pi r^2)] of its
    radius, which is positive: no call changes a radius or a mass. *)
Theorem mass_follows_radius_everywhere (world_width world_height : R)
    (delete_zone : option Rect.t) (boundary_bounce : bool) (damping mix : R)
    (gravity : Vector) (calls : list call) (k : string) (b : Ball.t) :
  let g := fst (run (GameLogic.init world_width world_height delete_zone
                       boundary_bounce damping mix gravity) [] calls) in
  In (k, b) (GameLogic._balls g) \/ In (k, b) (GameLogic._inventory g) ->
  Ball.mass b = Rmax 1e-6 (PI * Ball.radius b ^ 2) /\ 0 < Ball.mass b.
Proof.
  intros g Hin.
  assert (H : all_balls mass_ok g).
  { apply mass_ok_run; [apply wf_init | split; intros ? ? []]. }
  assert (Hm : mass_ok b) by (destruct H as [Hb Hi]; destruct Hin; eauto).
  unfold mass_ok in Hm. rewrite max_is_Rmax in Hm. split; [assumption|].
  rewrite Hm. apply Rlt_le_trans with 1e-6; [lra | apply Rmax_l].
Qed.

Lemma mass_follows_radius_everywhere_witness :
  Ball.mass ball_a = Rmax 1e-6 (PI * Ball.radius ball_a ^ 2) /\ 0 < Ball.mass ball_a.
Proof.
  apply (mass_follows_radius_everywhere 200 200 None true 0.15 0.85 (0, 0) capture_a
           "a"%string ball_a).
  right. change (GameLogic.init 200 200 None true 0.15 0.85 (0, 0)) with sample_world.
  rewrite run_capture_a. now left.
Defined.

(** ** What a step reports and what it leaves alone *)

Lemma capture_loop_nodup to_capture :
  forall balls inv cap balls' inv' cap',
  GameLogic.capture_loop to_capture (balls, inv, cap) = (balls', inv', cap') ->
  NoDup (keys balls) -> NoDup cap ->
  (forall k, In k cap -> ~ In k (keys balls)) ->
  NoDup cap'.
Proof.
  induction to_capture as [|bid rest IH];
    intros balls inv cap balls' inv' cap' E Hnd Hc Hdis.
  - simpl in E. now inversion E; subst.
  - rewrite capture_loop_cons in E. destruct (dict_get bid balls) as [ball|] eqn:G.
    + assert (Hb : In bid (keys balls))
        by (apply dict_get_in in G; now apply in_keys with ball).
      apply (IH _ _ _ _ _ _ E); [now apply nodup_dict_del | |].
      * apply NoDup_app; [assumption | repeat constructor; intros [] |].
        intros k I [<-|[]]. now apply (Hdis bid).
      * intros k I. rewrite in_keys_dict_del by assumption.
        apply in_app_iff in I. destruct I as [I|[<-|[]]]; [|tauto].
        intros [_ I']. now apply (Hdis k).
    + now apply (IH _ _ _ _ _ _ E).
Qed.

Lemma delete_loop_nodup to_delete :
  forall balls del balls' del',
  GameLogic.delete_loop to_delete (balls, del) = (balls', del') ->
  NoDup (keys balls) -> NoDup del ->
  (forall k, In k del -> ~ In k (keys balls)) ->
  NoDup del'.
Proof.
  induction to_delete as [|bid rest IH]; intros balls del balls' del' E Hnd Hc Hdis.
  - simpl in E. now inversion E; subst.
  - rewrite delete_loop_cons in E. destruct (dict_get bid balls) as [ball|] eqn:G.
    + assert (Hb : In bid (keys balls))
        by (apply dict_get_in in G; now apply in_keys with ball).
      apply (IH _ _ _ _ E); [now apply nodup_dict_del | |].
      * apply NoDup_app; [assumption | repeat constructor; intros [] |].
        intros k I [<-|[]]. now apply (Hdis bid).
      * intros k I. rewrite in_keys_dict_del by assumption.
        apply in_app_iff in I. destruct I as [I|[<-|[]]]; [|tauto].
        intros [_ I']. now apply (Hdis k).
    + now apply (IH _ _ _ _ E).
Qed.

Lemma step_lists_nodup (g : GameLogic.t) (dt : R) :
  0 < dt -> NoDup (keys (GameLogic._balls g)) ->
  NoDup (StepResult.captured_ball_ids (snd (GameLogic.step g dt)))
  /\ NoDup (StepResult.deleted_ball_ids (snd (GameLogic.step g dt))).
Proof.
  intros Hdt Hnd.
  destruct (step_phases g dt Hdt)
    as (b1 & inv & cap & b2 & mixed & b3 & del & E1 & E2 & E3 & E4).
  rewrite E4. simpl.
  assert (Hm : NoDup (keys (GameLogic.after_motion g dt)))
    by now rewrite keys_after_motion.
  destruct (after_capture_spec g _ b1 inv cap E1 Hm) as (tc & _ & C1 & _).
  split.
  - unfold GameLogic.after_capture in E1.
    destruct (Suction.is_active _).
    + apply (capture_loop_nodup _ _ _ _ _ _ _ E1 Hm); [constructor | intros ? []].
    + inversion E1. constructor.
  - destruct (after_mixing_repaints g dt b1) as [_ M2]. rewrite E2 in M2. simpl in M2.
    unfold GameLogic.after_deletion in E3.
    apply (delete_loop_nodup _ _ _ _ _ E3); [now rewrite M2 | constructor | intros ? []].
Qed.

(** The report of a step of positive length on a world whose active dict
    repeats no key: the time advanced is [dt], no id is reported released,
    no id is listed twice among the captured or among the deleted ids, no id is
    both captured and deleted, and every id listed was active before the
    step. *)
Theorem step_report_is_consistent (g : GameLogic.t) (dt : R) :
  0 < dt ->
  NoDup (keys (GameLogic._balls g)) ->
  let res := snd (GameLogic.step g dt) in
  StepResult.time_advanced_s res = dt
  /\ StepResult.released_ball_ids res = []
  /\ NoDup (StepResult.captured_ball_ids res)
  /\ NoDup (StepResult.deleted_ball_ids res)
  /\ (forall k, In k (StepResult.captured_ball_ids res) ->
                ~ In k (StepResult.deleted_ball_ids res))
  /\ (forall k, In k (StepResult.captured_ball_ids res)
                \/ In k (StepResult.deleted_ball_ids res) ->
                In k (keys (GameLogic._balls g))).
Proof.
  intros Hdt Hnd res.
  destruct (step_lists_nodup g dt Hdt Hnd) as [N1 N2]. fold res in N1, N2.
  assert (Hres : StepResult.time_advanced_s res = dt
                 /\ StepResult.released_ball_ids res = []).
  { subst res. destruct (step_phases g dt Hdt)
      as (b1 & inv & cap & b2 & mixed & b3 & del & _ & _ & _ & E4).
    rewrite E4. simpl. auto. }
  destruct Hres as [R1 R2].
  destruct (GameLogic.step g dt) as [g' res'] eqn:E. simpl in res. subst res.
  destruct (step_effect g dt Hdt Hnd g' res' E) as (_ & _ & S3 & _ & S5 & _).
  repeat (split; [assumption|]). split.
  - intros k I J. apply S3 in I. apply S5 in J. tauto.
  - intros k [I|I]; [apply S3 in I | apply S5 in I]; tauto.
Qed.

Lemma step_report_is_consistent_witness :
  StepResult.time_advanced_s (snd (GameLogic.step world_z 1)) = 1
  /\ StepResult.released_ball_ids (snd (GameLogic.step world_z 1)) = [].
Proof.
  destruct (step_report_is_consistent world_z 1) as (H1 & H2 & _).
  - lra.
  - repeat constructor. intros [].
  - split; assumption.
Defined.

(** A step, of any length, on a world whose suction is off captures nothing:
    [captured_ball_ids] is empty and the inventory is the one before. *)
Theorem step_without_suction_captures_nothing (g : GameLogic.t) (dt : R) :
  Suction.is_active (GameLogic._suction g) = false ->
  StepResult.captured_ball_ids (snd (GameLogic.step g dt)) = []
  /\ GameLogic._inventory (fst (GameLogic.step g dt)) = GameLogic._inventory g.
Proof.
  intros Hs. destruct (Rle_dec dt 0) as [Hle|Hgt].
  - rewrite step_nonpositive by assumption. auto.
  - destruct (step_phases g dt)
      as (b1 & inv & cap & b2 & mixed & b3 & del & E1 & _ & _ & E4); [lra|].
    rewrite E4. simpl. unfold GameLogic.after_capture in E1. rewrite Hs in E1.
    inversion E1. auto.
Qed.

Lemma step_without_suction_captures_nothing_witness :
  StepResult.captured_ball_ids (snd (GameLogic.step world_e 1)) = []
  /\ GameLogic._inventory (fst (GameLogic.step world_e 1)) = GameLogic._inventory world_e.
Proof.
  apply (step_without_suction_captures_nothing world_e 1). reflexivity.
Defined.

(** A step never alters a ball that is already in the inventory: in a world
    where no id is both active and in the inventory, every inventory entry is
    found unchanged after the step. *)
Theorem step_leaves_inventory_balls (g : GameLogic.t) (dt : R) (k : string) (b : Ball.t) :
  NoDup (keys (GameLogic._balls g)) ->
  disjoint_homes g ->
  dict_get k (GameLogic._inventory g) = Some b ->
  dict_get k (GameLogic._inventory (fst (GameLogic.step g dt))) = Some b.
Proof.
  intros Hnd Hdis G. destruct (Rle_dec dt 0) as [Hle|Hgt].
  - now rewrite step_nonpositive.
  - destruct (step_phases g dt)
      as (b1 & inv & cap & b2 & mixed & b3 & del & E1 & _ & _ & E4); [lra|].
    rewrite E4. simpl. unfold GameLogic.after_capture in E1.
    destruct (Suction.is_active _).
    + rewrite (capture_loop_keeps_entry _ _ _ _ _ _ _ E1 k); [assumption|].
      rewrite keys_after_motion. intros I. apply (Hdis k I).
      apply dict_get_in in G. now apply in_keys with b.
    + now inversion E1; subst.
Qed.

Lemma step_leaves_inventory_balls_witness :
  dict_get "a"%string (GameLogic._inventory (fst (GameLogic.step world_a_captured 1)))
  = Some ball_a.
Proof.
  apply (step_leaves_inventory_balls world_a_captured 1 "a"%string ball_a).
  - constructor.
  - intros k [].
  - reflexivity.
Defined.

(** A step of positive length neither makes nor loses balls: the balls
    active before it are, after it, active, captured or deleted, each exactly
    one of the three, so the three counts add up to the count before. *)
Theorem step_conserves_balls (g : GameLogic.t) (dt : R) :
  0 < dt ->
  NoDup (keys (GameLogic._balls g)) ->
  let g' := fst (GameLogic.step g dt) in
  let res := snd (GameLogic.step g dt) in
  (List.length (GameLogic._balls g')
   + List.length (StepResult.captured_ball_ids res)
   + List.length (StepResult.deleted_ball_ids res)
   = List.length (GameLogic._balls g))%nat
  /\ (forall k, In k (keys (GameLogic._balls g)) <->
                In k (keys (GameLogic._balls g'))
                \/ In k (StepResult.captured_ball_ids res)
                \/ In k (StepResult.deleted_ball_ids res)).
Proof.
  intros Hdt Hnd g' res.
  destruct (step_lists_nodup g dt Hdt Hnd) as [N1 N2]. fold res in N1, N2.
  destruct (GameLogic.step g dt) as [g0 res0] eqn:E. simpl in g', res. subst g' res.
  destruct (step_effect g dt Hdt Hnd g0 res0 E) as (S1 & _ & S3 & _ & S5 & S6 & _).
  set (tc := if Suction.is_active (GameLogic._suction g) then _ else _) in *.
  assert (Hiff : forall k, In k (keys (GameLogic._balls g)) <->
                 In k (keys (GameLogic._balls g0))
                 \/ In k (StepResult.captured_ball_ids res0)
                 \/ In k (StepResult.deleted_ball_ids res0)).
  { intros k. rewrite S6, S3. specialize (S5 k).
    destruct (in_dec string_dec k tc);
      destruct (in_dec string_dec k (StepResult.deleted_ball_ids res0)); tauto. }
  split; [|exact Hiff].
  assert (P : Permutation
                (keys (GameLogic._balls g0)
                 ++ StepResult.captured_ball_ids res0
                 ++ StepResult.deleted_ball_ids res0)
                (keys (GameLogic._balls g))).
  { apply NoDup_Permutation; [| assumption |].
    - apply NoDup_app; [assumption | |].
      + apply NoDup_app; [assumption | assumption |].
        intros k I J. apply S3 in I. apply S5 in J. tauto.
      + intros k I J. apply S6 in I. apply in_app_iff in J.
        destruct J as [J|J]; [apply S3 in J | ]; tauto.
    - intros k. rewrite !in_app_iff. symmetry. apply Hiff. }
  apply Permutation_length in P.
  rewrite !length_app in P. unfold keys in P. rewrite !length_map in P. lia.
Qed.

Lemma step_conserves_balls_witness :
  (List.length (GameLogic._balls (fst (GameLogic.step world_a 1)))
   + List.length (StepResult.captured_ball_ids (snd (GameLogic.step world_a 1)))
   + List.length (StepResult.deleted_ball_ids (snd (GameLogic.step world_a 1)))
   = List.length (GameLogic._balls world_a))%nat.
Proof.
  apply (step_conserves_balls world_a 1).
  - lra.
  - repeat constructor. intros [].
Defined.

(** ** The delete-zone sweep and the mixing switch *)

Lemma step_sweep (g : GameLogic.t) (dt : R) :
  0 < dt -> keyed (GameLogic._balls g) ->
  exists b2,
    (forall k b', In (k, b') b2 ->
       exists b, In (k, b) (GameLogic._balls g) /\ repainted (moved g dt b) b')
    /\ (forall k b', In (k, b') (GameLogic._balls (fst (GameLogic.step g dt))) <->
          In (k, b') b2
          /\ ~ In k (map Ball.id
                       (filter (fun ball => Rect.contains_point (GameLogic.delete_zone g)
                                              (Ball.position ball)) (values b2))))
    /\ (forall k, In k (StepResult.deleted_ball_ids (snd (GameLogic.step g dt))) <->
          In k (keys b2)
          /\ In k (map Ball.id
                     (filter (fun ball => Rect.contains_point (GameLogic.delete_zone g)
                                            (Ball.position ball)) (values b2)))).
Proof.
  intros Hdt Hkeyed. pose proof Hkeyed as [Hnd _].
  destruct (step_phases g dt Hdt)
    as (b1 & inv & cap & b2 & mixed & b3 & del & E1 & E2 & E3 & E4).
  rewrite E4. simpl. exists b2.
  assert (Hm : NoDup (keys (GameLogic.after_motion g dt)))
    by now rewrite keys_after_motion.
  destruct (after_capture_spec g _ b1 inv cap E1 Hm) as (tc & _ & C1 & C2 & _).
  destruct (after_mixing_repaints g dt b1) as [M1 M2]. rewrite E2 in M1, M2. simpl in M1, M2.
  assert (Hb2 : NoDup (keys b2)) by now rewrite M2.
  unfold GameLogic.after_deletion in E3.
  destruct (delete_loop_balls _ _ _ _ _ E3 Hb2) as [_ D2].
  pose proof (delete_loop_deleted _ _ _ _ _ E3 Hb2) as D3.
  split; [|split].
  - intros k b' I.
    destruct (in_related_dict repainted b1 b2 M2 M1 k b' I) as (bm & Ib & Hr).
    apply C2 in Ib. destruct Ib as [Ib _]. apply in_after_motion in Ib.
    destruct Ib as (b & Ib & ->). eauto.
  - exact D2.
  - intros k. rewrite D3. simpl. tauto.
Qed.

(** The delete-zone sweep of a step of positive length, on a world keyed by
    ball ids: afterwards no active ball has its centre in the delete zone, and
    every id in [deleted_ball_ids] belongs to a ball that was active before the
    step and whose position after the motion phase is in the zone. *)
Theorem step_sweeps_the_delete_zone (g : GameLogic.t) (dt : R) :
  0 < dt ->
  keyed (GameLogic._balls g) ->
  (forall k b', In (k, b') (GameLogic._balls (fst (GameLogic.step g dt))) ->
     Rect.contains_point (GameLogic.delete_zone g) (Ball.position b') = false)
  /\ (forall k, In k (StepResult.deleted_ball_ids (snd (GameLogic.step g dt))) ->
        exists b, In (k, b) (GameLogic._balls g)
                  /\ Rect.contains_point (GameLogic.delete_zone g)
                       (Ball.position (moved g dt b)) = true).
Proof.
  intros Hdt Hkeyed.
  destruct (step_sweep g dt Hdt Hkeyed) as (b2 & H1 & H2 & H3).
  assert (Hid : forall k b', In (k, b') b2 -> Ball.id b' = k).
  { intros k b' I. destruct (H1 k b' I) as (b & Ib & Hu & _).
    apply (f_equal Ball.id) in Hu. simpl in Hu. rewrite <- Hu.
    destruct (moved_keeps g dt b) as (-> & _).
    now apply keyed_entry with (GameLogic._balls g). }
  split.
  - intros k b' I. apply H2 in I. destruct I as [I N].
    apply not_true_is_false. intros Hc. apply N.
    rewrite <- (Hid k b' I). apply in_map. apply filter_In. split; [|assumption].
    change b' with (snd (k, b')). now apply in_map.
  - intros k I. apply H3 in I. destruct I as [_ I].
    apply in_map_iff in I. destruct I as (b' & Eid & I).
    apply filter_In in I. destruct I as [I Hc].
    apply in_map_iff in I. destruct I as ([k' b''] & Eb & I). simpl in Eb. subst b''.
    rewrite (Hid k' b' I) in Eid. subst k'.
    destruct (H1 k b' I) as (b & Ib & Hu & _).
    exists b. split; [assumption|].
    apply (f_equal Ball.position) in Hu. simpl in Hu. now rewrite Hu.
Qed.

Lemma step_sweeps_the_delete_zone_witness :
  Rect.contains_point (GameLogic.delete_zone world_e)
    (Ball.position (moved world_e 1 ball_e)) = false.
Proof.
  destruct (step_sweeps_the_delete_zone world_e 1) as [H _].
  - lra.
  - split; [repeat constructor; intros [] | repeat constructor].
  - apply (H "e"%string). rewrite step_world_e. now left.
Defined.

(** With a mixing rate of zero a step mixes nothing: [mixed_pairs] is empty
    and every ball still active carries the colour it had before the step. *)
Theorem step_without_mixing_rate (g : GameLogic.t) (dt : R) :
  GameLogic.max_color_mix_factor_per_second g = 0 ->
  NoDup (keys (GameLogic._balls g)) ->
  StepResult.mixed_pairs (snd (GameLogic.step g dt)) = []
  /\ forall k b', In (k, b') (GameLogic._balls (fst (GameLogic.step g dt))) ->
       exists b, In (k, b) (GameLogic._balls g)
                 /\ Ball.color_rgb b' = Ball.color_rgb b.
Proof.
  intros Hrate Hnd. destruct (Rle_dec dt 0) as [Hle|Hgt].
  - rewrite step_nonpositive by assumption. simpl. split; [reflexivity|]. eauto.
  - assert (Hdt : 0 < dt) by lra.
    destruct (step_phases g dt Hdt)
      as (b1 & inv & cap & b2 & mixed & b3 & del & E1 & E2 & E3 & E4).
    rewrite E4. simpl.
    assert (Hmix : GameLogic.after_mixing g dt b1 = (b1, [])).
    { unfold GameLogic.after_mixing. rewrite Hrate.
      rewrite (clamp_below (0 * dt) 0 0.75) by lra.
      unfold Py.gtb. now rewrite ltb_false by lra. }
    rewrite Hmix in E2. inversion E2; subst b2 mixed. split; [reflexivity|].
    intros k b' I.
    assert (Hm : NoDup (keys (GameLogic.after_motion g dt)))
      by now rewrite keys_after_motion.
    destruct (after_capture_spec g _ b1 inv cap E1 Hm) as (tc & _ & C1 & C2 & _).
    unfold GameLogic.after_deletion in E3.
    destruct (delete_loop_balls _ _ _ _ _ E3 C1) as [_ D2].
    apply D2 in I. destruct I as [I _]. apply C2 in I. destruct I as [I _].
    apply in_after_motion in I. destruct I as (b & Ib & ->).
    exists b. split; [assumption|]. apply moved_keeps.
Qed.

Lemma step_without_mixing_rate_witness :
  StepResult.mixed_pairs
    (snd (GameLogic.step (GameLogic.init 200 200 None true 0.15 0 (0, 0)) 1)) = [].
Proof.
  apply (step_without_mixing_rate (GameLogic.init 200 200 None true 0.15 0 (0, 0)) 1).
  - simpl. apply clamp_inside. lra.
  - constructor.
Defined.

(** ** Forces, damping and the walls *)

(** In exact arithmetic the suction force changes the velocity by a
    non-negative multiple of the vector from the ball to the suction point. *)
Lemma pull_along_offset (s : Suction.t) (dt : R) (b : Ball.t) :
  0 < dt -> 0 <= Suction.strength s -> 0 < Ball.mass b ->
  exists c, 0 <= c
            /\ Ball.velocity (GameLogic.pull s dt b)
               = (fst (Ball.velocity b)
                  + c * (fst (Suction.position s) - fst (Ball.position b)),
                  snd (Ball.velocity b)
                  + c * (snd (Suction.position s) - snd (Ball.position b))).
Proof.
  intros Hdt Hs Hm. unfold GameLogic.pull.
  destruct (Suction.position s) as [sx sy], (Ball.position b) as [bx by_].
  simpl fst. simpl snd.
  set (dist := Py.hypot (sx - bx) (sy - by_)).
  unfold Py.leb, Py.gtb, Py.ltb.
  destruct (Rle_dec dist (Suction.radius s)) as [H1|H1];
    destruct (Rlt_dec 1e-6 dist) as [H2|H2]; simpl;
    try (exists 0; split; [lra|];
         destruct (Ball.velocity b) as [vx vy]; simpl; f_equal; ring).
  destruct (Ball.velocity b) as [vx vy]. simpl.
  set (f := 1 - dist / Suction.radius s).
  exists (Suction.strength s * (f * (f * 1)) / Ball.mass b / dist * dt).
  split.
  - assert (0 < / Ball.mass b) by now apply Rinv_0_lt_compat.
    assert (0 < / dist) by (apply Rinv_0_lt_compat; lra).
    assert (0 <= f * (f * 1)) by nra.
    set (ff := f * (f * 1)) in *. clearbody ff.
    unfold Rdiv. repeat apply Rmult_le_pos; lra.
  - f_equal; field; lra.
Qed.

(** The suction force on one ball, for a non-negative strength and a ball of
    positive mass, never pushes the ball away: the position is not touched,
    and on each axis the velocity does not decrease when the suction point
    lies on the positive side of the ball and does not increase when it lies
    on the negative side.  A ball farther from the point than the suction
    radius, or within 1e-6 of it, is left exactly as it is. *)
Theorem suction_pulls_toward_the_point (s : Suction.t) (dt : R) (b : Ball.t) :
  0 < dt -> 0 <= Suction.strength s -> 0 < Ball.mass b ->
  let to_sx := fst (Suction.position s) - fst (Ball.position b) in
  let to_sy := snd (Suction.position s) - snd (Ball.position b) in
  Ball.position (GameLogic.pull s dt b) = Ball.position b
  /\ (0 <= to_sx ->
      fst (Ball.velocity b) <= fst (Ball.velocity (GameLogic.pull s dt b)))
  /\ (to_sx <= 0 ->
      fst (Ball.velocity (GameLogic.pull s dt b)) <= fst (Ball.velocity b))
  /\ (0 <= to_sy ->
      snd (Ball.velocity b) <= snd (Ball.velocity (GameLogic.pull s dt b)))
  /\ (to_sy <= 0 ->
      snd (Ball.velocity (GameLogic.pull s dt b)) <= snd (Ball.velocity b))
  /\ (Suction.radius s < Py.hypot to_sx to_sy -> GameLogic.pull s dt b = b)
  /\ (Py.hypot to_sx to_sy <= 1e-6 -> GameLogic.pull s dt b = b).
Proof.
  intros Hdt Hs Hm to_sx to_sy.
  split; [apply pull_keeps|].
  destruct (pull_along_offset s dt b Hdt Hs Hm) as (c & Hc & Hv).
  fold to_sx to_sy in Hv. rewrite Hv. simpl fst. simpl snd.
  split; [intros; nra|]. split; [intros; nra|].
  split; [intros; nra|]. split; [intros; nra|].
  subst to_sx to_sy. unfold GameLogic.pull.
  destruct (Suction.position s) as [sx sy], (Ball.position b) as [bx by_].
  simpl fst. simpl snd.
  set (dist := Py.hypot (sx - bx) (sy - by_)).
  unfold Py.leb, Py.gtb, Py.ltb.
  destruct (Rle_dec dist (Suction.radius s)) as [H1|H1];
    destruct (Rlt_dec 1e-6 dist) as [H2|H2]; simpl;
    split; intros; try reflexivity; lra.
Qed.

Lemma suction_pulls_toward_the_point_witness :
  Ball.position (GameLogic.pull (Suction.mk true (60, 50) 160 1200 28) 1 ball_a)
  = Ball.position ball_a
  /\ fst (Ball.velocity ball_a)
     <= fst (Ball.velocity (GameLogic.pull (Suction.mk true (60, 50) 160 1200 28) 1 ball_a)).
Proof.
  destruct (suction_pulls_toward_the_point (Suction.mk true (60, 50) 160 1200 28) 1 ball_a)
    as (H1 & H2 & _).
  - lra.
  - simpl. lra.
  - unfold ball_a, Ball.init. simpl. rewrite max_is_Rmax.
    apply Rlt_le_trans with 1e-6; [lra | apply Rmax_l].
  - split; [exact H1|]. apply H2.
    change (Ball.position ball_a) with (50, 50). simpl. lra.
Defined.

Lemma damping_factor (ld dt : R) : 0 <= ld -> 0 < dt -> 0 < exp (- ld * dt) <= 1.
Proof.
  intros Hl Hdt. split; [apply exp_pos|].
  destruct (Req_dec_T ld 0) as [->|Hne].
  - replace (- 0 * dt) with 0 by ring. rewrite exp_0. lra.
  - left. rewrite <- exp_0. apply exp_increasing. nra.
Qed.

Lemma bounce_axis_speed (p v r limit : R) :
  Rabs (snd (GameLogic.bounce_axis p v r limit)) = Rabs v.
Proof.
  unfold GameLogic.bounce_axis. destruct (Py.ltb _ _); simpl.
  - apply Rabs_Rabsolu.
  - destruct (Py.gtb _ _); simpl; [|reflexivity].
    rewrite Rabs_Ropp. apply Rabs_Rabsolu.
Qed.

(** Without suction and gravity a step of positive length never makes a ball
    faster: under either boundary policy each velocity component after the
    motion phase is, in absolute value, the component before times the
    damping factor [exp(-damping * dt)], which lies in (0, 1]. *)
Theorem free_ball_never_speeds_up (g : GameLogic.t) (dt : R) (b : Ball.t) :
  Suction.is_active (GameLogic._suction g) = false ->
  GameLogic.gravity g = (0, 0) ->
  0 <= GameLogic.linear_damping_per_second g ->
  0 < dt ->
  let damping := exp (- GameLogic.linear_damping_per_second g * dt) in
  0 < damping <= 1
  /\ Rabs (fst (Ball.velocity (moved g dt b))) = Rabs (fst (Ball.velocity b)) * damping
  /\ Rabs (snd (Ball.velocity (moved g dt b))) = Rabs (snd (Ball.velocity b)) * damping
  /\ Rabs (fst (Ball.velocity (moved g dt b))) <= Rabs (fst (Ball.velocity b))
  /\ Rabs (snd (Ball.velocity (moved g dt b))) <= Rabs (snd (Ball.velocity b)).
Proof.
  intros Hs Hg Hl Hdt damping.
  pose proof (damping_factor _ _ Hl Hdt) as Hd. fold damping in Hd.
  assert (Hv : integrated_velocity g dt b
               = (fst (Ball.velocity b) * damping, snd (Ball.velocity b) * damping)).
  { unfold integrated_velocity, pulled. rewrite Hs, Hg. fold damping. simpl.
    f_equal; ring. }
  assert (Hx : Rabs (fst (Ball.velocity (moved g dt b)))
               = Rabs (fst (Ball.velocity b)) * damping
               /\ Rabs (snd (Ball.velocity (moved g dt b)))
                  = Rabs (snd (Ball.velocity b)) * damping).
  { destruct (GameLogic.boundary_bounce g) eqn:Hb.
    - rewrite (moved_bounce g dt b Hb).
      cbn [Ball.velocity Ball.set_velocity Ball.set_position fst snd].
      rewrite !bounce_axis_speed, Hv. cbn [fst snd].
      rewrite !Rabs_mult, (Rabs_right damping) by lra. auto.
    - rewrite (moved_wrap g dt b Hb).
      cbn [Ball.velocity Ball.set_velocity Ball.set_position fst snd].
      rewrite Hv. cbn [fst snd].
      rewrite !Rabs_mult, (Rabs_right damping) by lra. auto. }
  destruct Hx as [Hx Hy]. split; [assumption|]. split; [assumption|].
  split; [assumption|].
  pose proof (Rabs_pos (fst (Ball.velocity b))).
  pose proof (Rabs_pos (snd (Ball.velocity b))).
  rewrite Hx, Hy. split; nra.
Qed.

Lemma free_ball_never_speeds_up_witness :
  Rabs (fst (Ball.velocity (moved world_w 1 ball_w))) <= Rabs (fst (Ball.velocity ball_w)).
Proof.
  apply (free_ball_never_speeds_up world_w 1 ball_w).
  - reflexivity.
  - reflexivity.
  - change (GameLogic.linear_damping_per_second world_w) with (_clamp 0 0 5).
    rewrite clamp_inside; lra.
  - lra.
Defined.

Lemma bounce_axis_cases (p v r limit : R) :
  (p - r < 0 -> GameLogic.bounce_axis p v r limit = (r, Rabs v))
  /\ (0 <= p - r -> limit < p + r ->
      GameLogic.bounce_axis p v r limit = (limit - r, - Rabs v))
  /\ (0 <= p - r -> p + r <= limit -> GameLogic.bounce_axis p v r limit = (p, v)).
Proof.
  unfold GameLogic.bounce_axis, Py.gtb, Py.ltb.
  destruct (Rlt_dec (p - r) 0); destruct (Rlt_dec limit (p + r));
    repeat split; intros; try reflexivity; lra.
Qed.

(** The bounce policy on the x axis, in terms of the integrated position
    [px] and velocity [vx] of lines 261-266: a ball reaching over the left
    wall is put at [x = radius] with velocity [|vx|], pointing inward; one
    reaching over the right wall only is put at [x = width - radius] with
    velocity [-|vx|]; one within both walls keeps [px] and [vx].  The left test
    comes first, so a ball wider than the world goes to the left wall.  The
    y axis is handled the same way with the height. *)
Theorem bounce_turns_velocity_inward (g : GameLogic.t) (dt : R) (b : Ball.t) :
  GameLogic.boundary_bounce g = true ->
  let px := fst (integrated_position g dt b) in
  let py := snd (integrated_position g dt b) in
  let vx := fst (integrated_velocity g dt b) in
  let vy := snd (integrated_velocity g dt b) in
  let r := Ball.radius b in
  let b' := moved g dt b in
  (px - r < 0 ->
   fst (Ball.position b') = r /\ fst (Ball.velocity b') = Rabs vx
   /\ 0 <= fst (Ball.velocity b'))
  /\ (0 <= px - r -> GameLogic.world_width g < px + r ->
      fst (Ball.position b') = GameLogic.world_width g - r
      /\ fst (Ball.velocity b') = - Rabs vx /\ fst (Ball.velocity b') <= 0)
  /\ (0 <= px - r -> px + r <= GameLogic.world_width g ->
      fst (Ball.position b') = px /\ fst (Ball.velocity b') = vx)
  /\ (py - r < 0 ->
      snd (Ball.position b') = r /\ snd (Ball.velocity b') = Rabs vy
      /\ 0 <= snd (Ball.velocity b'))
  /\ (0 <= py - r -> GameLogic.world_height g < py + r ->
      snd (Ball.position b') = GameLogic.world_height g - r
      /\ snd (Ball.velocity b') = - Rabs vy /\ snd (Ball.velocity b') <= 0)
  /\ (0 <= py - r -> py + r <= GameLogic.world_height g ->
      snd (Ball.position b') = py /\ snd (Ball.velocity b') = vy).
Proof.
  intros Hb px py vx vy r b'. subst b'.
  rewrite (moved_bounce g dt b Hb).
  cbn [Ball.velocity Ball.position Ball.set_velocity Ball.set_position fst snd].
  rewrite pulled_radius. fold px py vx vy r.
  destruct (bounce_axis_cases px vx r (GameLogic.world_width g)) as (X1 & X2 & X3).
  destruct (bounce_axis_cases py vy r (GameLogic.world_height g)) as (Y1 & Y2 & Y3).
  pose proof (Rabs_pos vx). pose proof (Rabs_pos vy).
  repeat split; intros;
    first [ rewrite X1 by assumption | rewrite X2 by assumption
          | rewrite X3 by assumption | rewrite Y1 by assumption
          | rewrite Y2 by assumption | rewrite Y3 by assumption ];
    simpl; lra.
Qed.

Lemma bounce_turns_velocity_inward_witness :
  fst (Ball.position (moved world_e 1 ball_e))
  = GameLogic.world_width world_e - Ball.radius ball_e.
Proof.
  destruct (bounce_turns_velocity_inward world_e 1 ball_e eq_refl)
    as (_ & H & _).
  assert (E : integrated_position world_e 1 ball_e
              = (195 + (0 + 0 * 1) * exp (- GameLogic.linear_damping_per_second world_e * 1) * 1,
                 50 + (0 + 0 * 1) * exp (- GameLogic.linear_damping_per_second world_e * 1) * 1))
    by reflexivity.
  apply H; rewrite E; simpl; lra.
Defined.

(** ** Colour conversions and the mixed colour *)

(** [hsv_to_rgb] on a hue written as sector [i] plus fraction [f]. *)
Lemma hsv_to_rgb_sector (i : Z) (f s v : R) :
  (0 <= i <= 5)%Z -> 0 <= f < 1 -> s <> 0 ->
  hsv_to_rgb ((IZR i + f) / 6, s, v)
  = match i with
    | 0%Z => (v, v * (1 - s * (1 - f)), v * (1 - s))
    | 1%Z => (v * (1 - s * f), v, v * (1 - s))
    | 2%Z => (v * (1 - s), v, v * (1 - s * (1 - f)))
    | 3%Z => (v * (1 - s), v * (1 - s * f), v)
    | 4%Z => (v * (1 - s * (1 - f)), v * (1 - s), v)
    | _ => (v, v * (1 - s), v * (1 - s * f))
    end.
Proof.
  intros Hi Hf Hs. unfold hsv_to_rgb. rewrite eqb_false by assumption.
  replace ((IZR i + f) / 6 * 6) with (IZR i + f) by field.
  assert (E : Py.int (IZR i + f) = i).
  { unfold Py.int. assert (0 <= IZR i) by (apply IZR_le; lia).
    rewrite leb_true by lra. symmetry. apply Int_part_spec. lra. }
  rewrite E. replace (IZR i + f - IZR i) with f by ring.
  assert (Hc : i = 0%Z \/ i = 1%Z \/ i = 2%Z \/ i = 3%Z \/ i = 4%Z \/ i = 5%Z) by lia.
  destruct Hc as [->|[->|[->|[->|[->| ->]]]]]; reflexivity.
Qed.

Lemma hue_sector (h : R) :
  0 <= h < 1 ->
  exists (i : Z) (f : R), (0 <= i <= 5)%Z /\ 0 <= f < 1 /\ h = (IZR i + f) / 6.
Proof.
  intros Hh. destruct (base_Int_part (h * 6)) as [H1 H2].
  exists (Int_part (h * 6)), (h * 6 - IZR (Int_part (h * 6))).
  split; [|split; [lra | field]].
  split.
  - apply le_IZR. apply Rnot_lt_le. intros Hneg.
    assert (IZR (Int_part (h * 6)) <= -1).
    { apply IZR_le. apply lt_IZR in Hneg. lia. }
    lra.
  - apply le_IZR. apply Rnot_lt_le. intros Hbig.
    assert (6 <= IZR (Int_part (h * 6))).
    { apply IZR_le. apply lt_IZR in Hbig. lia. }
    lra.
Qed.

Lemma hsv_to_rgb_between (h s v : R) :
  0 <= h < 1 -> 0 < s <= 1 -> 0 <= v ->
  let '(r, g, b) := hsv_to_rgb (h, s, v) in
  v * (1 - s) <= r <= v /\ v * (1 - s) <= g <= v /\ v * (1 - s) <= b <= v
  /\ (r = v \/ g = v \/ b = v)
  /\ (r = v * (1 - s) \/ g = v * (1 - s) \/ b = v * (1 - s)).
Proof.
  intros Hh Hs Hv.
  destruct (hue_sector h Hh) as (i & f & Hi & Hf & ->).
  rewrite hsv_to_rgb_sector by (try assumption; lra).
  assert (H1 : 0 <= s * f <= s) by nra.
  assert (H2 : 0 <= s * (1 - f) <= s) by nra.
  assert (H3 : 0 <= v * (s * f) <= v * s) by nra.
  assert (H4 : 0 <= v * (s * (1 - f)) <= v * s) by nra.
  assert (Hc : i = 0%Z \/ i = 1%Z \/ i = 2%Z \/ i = 3%Z \/ i = 4%Z \/ i = 5%Z) by lia.
  destruct Hc as [->|[->|[->|[->|[->| ->]]]]]; repeat split; try nra; auto.
Qed.

(** Whatever the two colours and the factor, a colour returned by
    [_mix_color_towards] has every channel between 0 and 0.92 (the final
    clamps to [[0,1]] never act), and its smallest channel is at most 0.65 of
    its largest: the result is never white and never washed out. *)
Theorem mixed_color_is_vivid (src dst : ColorRGB) (t : R) :
  let '(r, g, b) := _mix_color_towards src dst t in
  0 <= r <= 0.92 /\ 0 <= g <= 0.92 /\ 0 <= b <= 0.92
  /\ Rmin (Rmin r g) b <= 0.65 * Rmax (Rmax r g) b.
Proof.
  unfold _mix_color_towards.
  destruct (rgb_to_hsv src) as [[sh ss] sv].
  destruct (rgb_to_hsv dst) as [[dh ds] dv].
  pose proof (angle_lerp_range sh dh t) as Hh.
  pose proof (clamp_range ((1 - t) * ss + t * Py.max ss ds) 0.35 1) as Hs.
  pose proof (clamp_range ((1 - t) * sv + t * dv) 0 0.92) as Hv.
  set (h := _angle_lerp sh dh t) in *.
  set (s := _clamp _ 0.35 1) in *. set (v := _clamp _ 0 0.92) in *.
  clearbody h s v.
  pose proof (hsv_to_rgb_between h s v Hh) as Hb.
  destruct (hsv_to_rgb (h, s, v)) as [[r g] b].
  destruct Hb as (Br & Bg & Bb & Bmax & Bmin); try lra.
  assert (P : 0 <= v * (1 - s) <= 0.65 * v) by nra.
  rewrite !clamp_inside by lra.
  repeat split; try lra.
  assert (Hmax : Rmax (Rmax r g) b = v).
  { unfold Rmax. repeat destruct (Rle_dec _ _); lra. }
  assert (Hmin : Rmin (Rmin r g) b = v * (1 - s)).
  { unfold Rmin. repeat destruct (Rle_dec _ _); lra. }
  rewrite Hmax, Hmin. lra.
Qed.

(** ** The pairs a step reports as mixed *)

Lemma Forall2_nth_error_r {A B : Type} (P : A -> B -> Prop) (l : list A) (l' : list B) :
  Forall2 P l l' ->
  forall i b, nth_error l' i = Some b -> exists a, nth_error l i = Some a /\ P a b.
Proof.
  induction 1 as [|a0 b0 l l' H0 HF IH]; intros [|i] b E; simpl in *; try discriminate.
  - inversion E; subst. eauto.
  - now apply IH.
Qed.

Lemma mix_pair_sound (mix_t : R) (l0 : list Ball.t)
    (st : dict Ball.t * list (string * string)) (ij : nat * nat) :
  fst ij <> snd ij ->
  Forall2 repainted l0 (values (fst st)) ->
  (forall xy, In xy (snd st) -> overlapping_pair_of l0 xy) ->
  forall xy, In xy (snd (GameLogic.mix_pair mix_t st ij)) -> overlapping_pair_of l0 xy.
Proof.
  destruct st as [balls mixed], ij as [i j]. simpl. intros Hne HF Hold xy.
  unfold GameLogic.mix_pair.
  destruct (nth_error (values balls) i) as [a|] eqn:Ea; [|apply Hold].
  destruct (nth_error (values balls) j) as [b|] eqn:Eb; [|apply Hold].
  destruct (Ball.position a) as [ax ay] eqn:Pa, (Ball.position b) as [bx by_] eqn:Pb.
  destruct (Py.leb _ _) eqn:Hleb; [|apply Hold].
  simpl. rewrite in_app_iff. intros [I|[<-|[]]]; [now apply Hold|].
  destruct (Forall2_nth_error_r _ _ _ HF i a Ea) as (a0 & Ea0 & Ha & _).
  destruct (Forall2_nth_error_r _ _ _ HF j b Eb) as (b0 & Eb0 & Hb & _).
  exists i, j, a0, b0.
  pose proof (f_equal Ball.id Ha) as Ia. pose proof (f_equal Ball.id Hb) as Ib.
  pose proof (f_equal Ball.position Ha) as Qa. pose proof (f_equal Ball.position Hb) as Qb.
  pose proof (f_equal Ball.radius Ha) as Ra. pose proof (f_equal Ball.radius Hb) as Rb.
  simpl in *. rewrite Qa, Qb, Ra, Rb, Ia, Ib, Pa, Pb. simpl.
  repeat split; try assumption.
  unfold Py.leb in Hleb. destruct (Rle_dec _ _); [assumption | discriminate].
Qed.

Lemma fold_mix_pair_sound (mix_t : R) (l0 : list Ball.t) (pairs : list (nat * nat)) :
  forall st,
  (forall ij, In ij pairs -> fst ij <> snd ij) ->
  Forall2 repainted l0 (values (fst st)) ->
  (forall xy, In xy (snd st) -> overlapping_pair_of l0 xy) ->
  forall xy, In xy (snd (fold_left (GameLogic.mix_pair mix_t) pairs st)) ->
             overlapping_pair_of l0 xy.
Proof.
  induction pairs as [|ij pairs IH]; intros st Hd HF Hold; simpl; [assumption|].
  apply IH.
  - intros; apply Hd; now right.
  - apply mix_pair_repaints; [apply Hd; now left | assumption].
  - apply mix_pair_sound; [apply Hd; now left | assumption | assumption].
Qed.

(** Every pair in [mixed_pairs] of a step of positive length, on a world
    keyed by ball ids, names two different balls that were active before the
    step and were not captured by it, and whose centres after the motion phase
    are no farther apart than the sum of their radii. *)
Theorem mixed_pairs_are_overlapping_active_balls (g : GameLogic.t) (dt : R)
    (x y : string) :
  0 < dt ->
  keyed (GameLogic._balls g) ->
  In (x, y) (StepResult.mixed_pairs (snd (GameLogic.step g dt))) ->
  x <> y
  /\ ~ In x (StepResult.captured_ball_ids (snd (GameLogic.step g dt)))
  /\ ~ In y (StepResult.captured_ball_ids (snd (GameLogic.step g dt)))
  /\ exists a b,
       In (x, a) (GameLogic._balls g) /\ In (y, b) (GameLogic._balls g)
       /\ Py.hypot
            (fst (Ball.position (moved g dt a)) - fst (Ball.position (moved g dt b)))
            (snd (Ball.position (moved g dt a)) - snd (Ball.position (moved g dt b)))
          <= Ball.radius a + Ball.radius b.
Proof.
  intros Hdt Hkeyed Hin. pose proof Hkeyed as [Hnd _].
  destruct (step_phases g dt Hdt)
    as (b1 & inv & cap & b2 & mixed & b3 & del & E1 & E2 & E3 & E4).
  rewrite E4 in *. simpl in *.
  pose proof (keyed_after_motion g dt Hkeyed) as Hkm. pose proof Hkm as [Hm _].
  destruct (after_capture_spec g _ b1 inv cap E1 Hm) as (tc & _ & C1 & C2 & _ & _ & C5 & _).
  assert (Hk1 : keyed b1).
  { split; [assumption|]. rewrite Forall_forall. intros [k b] I. simpl.
    apply C2 in I. destruct I as [I _]. now apply keyed_entry with (GameLogic.after_motion g dt). }
  assert (Hpair : overlapping_pair_of (values b1) (x, y)).
  { unfold GameLogic.after_mixing in E2. destruct (Py.gtb _ _).
    - apply (fold_mix_pair_sound
               (_clamp (GameLogic.max_color_mix_factor_per_second g * dt) 0 0.75)
               (values b1) (combinations2 (seq 0 (List.length b1))) (b1, [])).
      + intros [i j] I. simpl. eapply combinations2_seq_distinct; eassumption.
      + apply Forall2_refl_repainted.
      + intros ? [].
      + rewrite E2. exact Hin.
    - inversion E2; subst. contradiction. }
  destruct Hpair as (i & j & a1 & c1 & Hij & Ea & Ec & Exy & Hov).
  inversion Exy; subst x y. clear Exy.
  assert (Hentry : forall n v, nth_error (values b1) n = Some v ->
            In (Ball.id v, v) b1 /\ nth_error (keys b1) n = Some (Ball.id v)).
  { intros n v E. unfold values in E.
    destruct (nth_error b1 n) as [[k v']|] eqn:En;
      [|rewrite nth_error_map, En in E; discriminate].
    rewrite nth_error_map, En in E. simpl in E. inversion E; subst v'.
    pose proof (nth_error_In _ _ En) as I.
    rewrite (keyed_entry k v b1 Hk1 I). split; [assumption|].
    unfold keys. now rewrite nth_error_map, En. }
  destruct (Hentry i a1 Ea) as [Ia Ka]. destruct (Hentry j c1 Ec) as [Ic Kc].
  split.
  - intros Heq. apply Hij.
    apply (proj1 (NoDup_nth_error (keys b1)) C1).
    + apply nth_error_Some. rewrite Ka. discriminate.
    + rewrite Ka, Kc. now f_equal.
  - apply C2 in Ia. apply C2 in Ic. destruct Ia as [Ia Na], Ic as [Ic Nc].
    split; [rewrite C5; tauto|]. split; [rewrite C5; tauto|].
    apply in_after_motion in Ia. destruct Ia as (a & Ia & ->).
    apply in_after_motion in Ic. destruct Ic as (c & Ic & ->).
    destruct (moved_keeps g dt a) as (Ha1 & Ha2 & _).
    destruct (moved_keeps g dt c) as (Hc1 & Hc2 & _).
    exists a, c. rewrite <- Ha2, <- Hc2. auto.
Qed.

Lemma mixed_pairs_world_m :
  StepResult.mixed_pairs (snd (GameLogic.step world_m 1)) = [("a"%string, "b"%string)].
Proof.
  rewrite step_positive by lra.
  change (GameLogic._balls world_m) with [("a"%string, ball_ma); ("b"%string, ball_mb)].
  cbn [dict_update_all map fst snd].
  rewrite !moved_at_rest; try reflexivity; try (left; reflexivity);
    try (simpl; lra).
  unfold GameLogic.after_capture.
  change (Suction.is_active (GameLogic._suction world_m)) with false.
  cbv iota.
  unfold GameLogic.after_mixing. rewrite mix_t_world_m.
  unfold Py.gtb. rewrite (ltb_true 0 0.5) by lra.
  cbn [combinations2 seq List.length map app fold_left].
  unfold GameLogic.mix_pair. cbn [values map nth_error snd].
  change (Ball.position ball_ma) with (50, 50).
  change (Ball.position ball_mb) with (55, 50).
  change (Ball.radius ball_ma) with 10.
  change (Ball.radius ball_mb) with 10.
  cbv iota beta.
  rewrite leb_true by (apply hypot_le; lra).
  destruct (GameLogic.after_deletion world_m _) as [b3 del]. reflexivity.
Qed.

Lemma mixed_pairs_are_overlapping_active_balls_witness :
  "a"%string <> "b"%string
  /\ ~ In "a"%string (StepResult.captured_ball_ids (snd (GameLogic.step world_m 1))).
Proof.
  destruct (mixed_pairs_are_overlapping_active_balls world_m 1 "a"%string "b"%string)
    as (H1 & H2 & _).
  - lra.
  - split; [|repeat constructor].
    repeat constructor; simpl; intuition discriminate.
  - rewrite mixed_pairs_world_m. now left.
  - split; assumption.
Defined.

(** ** Edge cases and compositions *)

(** A step on a world without active balls, whatever [dt], the suction and
    the inventory: the world is returned as it is and the report has the
    clamped [dt] and four empty lists. *)
Theorem step_on_empty_world (g : GameLogic.t) (dt : R) :
  GameLogic._balls g = [] ->
  GameLogic.step g dt = (g, StepResult.mk (Rmax 0 dt) [] [] [] []).
Proof.
  intros H. destruct (Rle_dec dt 0) as [Hle|Hgt].
  - rewrite step_nonpositive by assumption. now rewrite Rmax_left.
  - rewrite step_positive by lra. rewrite H. cbn [dict_update_all map].
    assert (E : GameLogic.after_capture g [] = ([], GameLogic._inventory g, [])).
    { unfold GameLogic.after_capture. now destruct (Suction.is_active _). }
    rewrite E. rewrite after_mixing_lone by (simpl; lia).
    unfold GameLogic.after_deletion. cbn.
    rewrite Rmax_right by lra. rewrite <- H at 1.
    now rewrite with_balls_same, with_inventory_same.
Qed.

Lemma step_on_empty_world_witness :
  GameLogic.step world_a_captured 1
  = (world_a_captured, StepResult.mk (Rmax 0 1) [] [] [] []).
Proof. apply (step_on_empty_world world_a_captured 1). reflexivity. Defined.

Lemma step_sweep_clears (g : GameLogic.t) (dt : R) :
  0 < dt -> keyed (GameLogic._balls g) ->
  forall k b', In (k, b') (GameLogic._balls (fst (GameLogic.step g dt))) ->
    Rect.contains_point (GameLogic.delete_zone g) (Ball.position b') = false.
Proof.
  intros Hdt Hkeyed k b' I.
  destruct (step_sweep g dt Hdt Hkeyed) as (b2 & H1 & H2 & _).
  apply H2 in I. destruct I as [I N].
  apply not_true_is_false. intros Hc. apply N.
  assert (Hid : Ball.id b' = k).
  { destruct (H1 k b' I) as (b & Ib & Hu & _).
    apply (f_equal Ball.id) in Hu. simpl in Hu. rewrite <- Hu.
    destruct (moved_keeps g dt b) as (-> & _).
    now apply keyed_entry with (GameLogic._balls g). }
  rewrite <- Hid. apply in_map. apply filter_In. split; [|assumption].
  change b' with (snd (k, b')). now apply in_map.
Qed.

(** [set_delete_zone] replaces the zone and nothing else, the last of two
    calls wins, and the next step of positive length sweeps with the new
    zone: after it no active ball has its centre in the new rectangle. *)
Theorem set_delete_zone_takes_effect (g : GameLogic.t) (old rect : Rect.t) (dt : R) :
  0 < dt ->
  keyed (GameLogic._balls g) ->
  GameLogic.delete_zone (GameLogic.set_delete_zone g rect) = rect
  /\ GameLogic._balls (GameLogic.set_delete_zone g rect) = GameLogic._balls g
  /\ GameLogic._inventory (GameLogic.set_delete_zone g rect) = GameLogic._inventory g
  /\ GameLogic._suction (GameLogic.set_delete_zone g rect) = GameLogic._suction g
  /\ same_settings g (GameLogic.set_delete_zone g rect)
  /\ GameLogic.set_delete_zone (GameLogic.set_delete_zone g old) rect
     = GameLogic.set_delete_zone g rect
  /\ forall k b',
       In (k, b') (GameLogic._balls
                     (fst (GameLogic.step (GameLogic.set_delete_zone g rect) dt))) ->
       Rect.contains_point rect (Ball.position b') = false.
Proof.
  intros Hdt Hkeyed. repeat (split; [reflexivity|]). split; [repeat split|].
  split; [reflexivity|].
  intros k b' I.
  apply (step_sweep_clears (GameLogic.set_delete_zone g rect) dt Hdt Hkeyed k b' I).
Qed.

Lemma set_delete_zone_takes_effect_witness :
  GameLogic.delete_zone (GameLogic.set_delete_zone world_e (Rect.mk 0 0 10 10))
  = Rect.mk 0 0 10 10.
Proof.
  apply (set_delete_zone_takes_effect world_e (Rect.mk 1 1 1 1) (Rect.mk 0 0 10 10) 1).
  - lra.
  - split; [repeat constructor; intros [] | repeat constructor].
Defined.

(** A ball captured by a step can be released at once: for an id listed in
    [captured_ball_ids], [spit_specific] on the world after the step answers
    [True], and the id is then active again, at the given position, and no
    longer in the inventory. *)
Theorem captured_ball_can_be_spat (g : GameLogic.t) (dt : R) (k : string)
    (position direction : Vector) (speed : R) :
  0 < dt ->
  NoDup (keys (GameLogic._balls g)) ->
  NoDup (keys (GameLogic._inventory g)) ->
  In k (StepResult.captured_ball_ids (snd (GameLogic.step g dt))) ->
  let g' := fst (GameLogic.step g dt) in
  snd (GameLogic.spit_specific g' k position direction speed) = true
  /\ (exists b, dict_get k (GameLogic._balls
                             (fst (GameLogic.spit_specific g' k position direction speed)))
                = Some b
                /\ Ball.position b = (fst position, snd position))
  /\ ~ In k (keys (GameLogic._inventory
                     (fst (GameLogic.spit_specific g' k position direction speed)))).
Proof.
  intros Hdt Hnd Hni Hin g'. subst g'.
  destruct (GameLogic.step g dt) as [g' res] eqn:E. simpl in *.
  destruct (step_effect g dt Hdt Hnd g' res E) as (_ & S2 & _ & S4 & _).
  assert (Hk : In k (keys (GameLogic._inventory g'))) by (apply S4; now right).
  rewrite spit_specific_eq.
  destruct (dict_get k (GameLogic._inventory g')) as [b|] eqn:G;
    [|apply dict_get_none in G; contradiction].
  simpl. rewrite release_eq. simpl. split; [reflexivity|]. split.
  - eexists. split; [apply dict_get_set_same | reflexivity].
  - rewrite in_keys_dict_del by auto. tauto.
Qed.

Lemma captured_ball_can_be_spat_witness :
  snd (GameLogic.spit_specific (fst (GameLogic.step world_a 1)) "a" (20, 30) (1, 0) 5)
  = true.
Proof.
  apply (captured_ball_can_be_spat world_a 1 "a"%string (20, 30) (1, 0) 5).
  - lra.
  - repeat constructor. intros [].
  - constructor.
  - rewrite step_world_a. now left.
Defined.

(** ** The bounce policy in rounded arithmetic *)

Lemma exact_rounding : rounding (fun x => x) 0.
Proof.
  constructor; intros; try lra; try reflexivity.
  - replace (x + y - (x + y)) with 0 by ring. rewrite Rabs_R0. lra.
  - replace (x - y - (x - y)) with 0 by ring. rewrite Rabs_R0. lra.
Qed.

(** With no rounding the step of [Rounded] is the step of [GameLogic]. *)
Lemma rounded_step_exact (g : GameLogic.t) (dt : R) :
  Rounded.step (fun x => x) g dt = GameLogic.step g dt.
Proof. reflexivity. Qed.

Lemma abs_le_inv (x a : R) : Rabs x <= a -> - a <= x <= a.
Proof. unfold Rabs. destruct (Rcase_abs x); lra. Qed.

Lemma rounding_zero (rnd : R -> R) (u r : R) :
  rounding rnd u -> rnd r = r -> rnd 0 = 0.
Proof.
  intros H Hr. pose proof (rnd_sub_error rnd u H r r Hr Hr) as E.
  replace (r - r) with 0 in E by ring.
  rewrite Rabs_R0, Rmult_0_r in E. apply abs_le_inv in E. lra.
Qed.

(** One axis of the bounce policy, for a representable integrated position,
    radius and world dimension: the lower bound [r <= p'] holds as it stands;
    the test [p + r > limit] is made on the rounded sum, so the upper bound
    holds for [(p' + r) * (1 - u)]. *)
Lemma rounded_bounce_axis_range (rnd : R -> R) (u p v r limit : R) :
  rounding rnd u ->
  rnd p = p -> rnd r = r -> rnd limit = limit ->
  0 <= r -> r <= limit - r ->
  r <= fst (Rounded.bounce_axis rnd p v r limit)
  /\ (fst (Rounded.bounce_axis rnd p v r limit) + r) * (1 - u) <= limit.
Proof.
  intros H Hp Hr Hl H0 Hfit.
  pose proof (roundoff_range rnd u H) as Hu.
  pose proof (rounding_zero rnd u r H Hr) as R0.
  unfold Rounded.bounce_axis, Py.gtb, Py.ltb.
  destruct (Rlt_dec (rnd (p - r)) 0) as [A|A]; simpl.
  - split; [lra | nra].
  - destruct (Rlt_dec limit (rnd (p + r))) as [B|B]; simpl.
    + pose proof (rnd_monotone rnd u H r (limit - r) Hfit) as M. rewrite Hr in M.
      pose proof (rnd_sub_error rnd u H limit r Hl Hr) as E.
      rewrite (Rabs_right (limit - r)) in E by lra. apply abs_le_inv in E.
      split; [lra | nra].
    + assert (Hlow : r <= p).
      { apply Rnot_lt_le. intros Hlt.
        pose proof (rnd_monotone rnd u H (p - r) 0 ltac:(lra)) as M.
        rewrite R0 in M.
        pose proof (rnd_sub_error rnd u H p r Hp Hr) as E.
        replace (rnd (p - r)) with 0 in E by lra.
        rewrite (Rabs_left (p - r)) in E by lra. apply abs_le_inv in E. nra. }
      split; [assumption|].
      pose proof (rnd_add_error rnd u H p r Hp Hr) as E.
      rewrite (Rabs_right (p + r)) in E by lra. apply abs_le_inv in E. nra.
Qed.

Lemma rounded_pull_keeps (rnd : R -> R) (s : Suction.t) (dt : R) (b : Ball.t) :
  Ball.position (Rounded.pull rnd s dt b) = Ball.position b
  /\ Ball.radius (Rounded.pull rnd s dt b) = Ball.radius b.
Proof.
  unfold Rounded.pull.
  destruct (Suction.position s) as [sx sy], (Ball.position b) as [bx by_] eqn:E.
  destruct (_ && _); [|now rewrite E].
  destruct (Ball.velocity b) as [vx vy]. simpl. now rewrite E.
Qed.

(** The position the motion phase stores under the bounce policy: on each
    axis the outcome of [bounce_axis] on a representable position. *)
Lemma rounded_moved_bounce (rnd : R -> R) (u : R) (g : GameLogic.t) (dt : R) (b : Ball.t) :
  rounding rnd u ->
  GameLogic.boundary_bounce g = true ->
  Ball.radius (Rounded.moved rnd g dt b) = Ball.radius b
  /\ exists px vx py vy,
       rnd px = px /\ rnd py = py
       /\ Ball.position (Rounded.moved rnd g dt b)
          = (fst (Rounded.bounce_axis rnd px vx (Ball.radius b) (GameLogic.world_width g)),
             fst (Rounded.bounce_axis rnd py vy (Ball.radius b) (GameLogic.world_height g))).
Proof.
  intros H Hb. unfold Rounded.moved, Rounded.integrate. rewrite Hb.
  set (b1 := if Suction.is_active (GameLogic._suction g)
             then Rounded.pull rnd (GameLogic._suction g) dt b else b).
  assert (Hr : Ball.radius b1 = Ball.radius b).
  { unfold b1. destruct (Suction.is_active _); [|reflexivity].
    apply rounded_pull_keeps. }
  destruct (GameLogic.gravity g) as [gx gy]. rewrite Hr.
  match goal with
  | |- context [Rounded.bounce_axis rnd ?px ?vx _ (GameLogic.world_width g)] =>
      match goal with
      | |- context [Rounded.bounce_axis rnd ?py ?vy _ (GameLogic.world_height g)] =>
          destruct (Rounded.bounce_axis rnd px vx (Ball.radius b) (GameLogic.world_width g))
            as [px' vx'] eqn:Ex;
          destruct (Rounded.bounce_axis rnd py vy (Ball.radius b) (GameLogic.world_height g))
            as [py' vy'] eqn:Ey;
          simpl; split; [assumption|];
          exists px, vx, py, vy
      end
  end.
  rewrite Ex, Ey. simpl.
  split; [apply (rnd_idempotent rnd u H)|].
  split; [apply (rnd_idempotent rnd u H) | reflexivity].
Qed.

Lemma rounded_after_motion_moved (rnd : R -> R) (g : GameLogic.t) (dt : R) :
  Rounded.after_motion rnd g dt
  = dict_update_all (Rounded.moved rnd g dt) (GameLogic._balls g).
Proof.
  unfold Rounded.after_motion, Rounded.moved, dict_update_all.
  destruct (Suction.is_active _); [|reflexivity].
  rewrite map_map. reflexivity.
Qed.

(** A ball that is active after a step in rounded arithmetic is where the
    motion phase put it: the later phases take balls out and recolour them. *)
Lemma rounded_step_active (rnd : R -> R) (g : GameLogic.t) (dt : R) (k : string)
    (b' : Ball.t) :
  0 < dt ->
  NoDup (keys (GameLogic._balls g)) ->
  In (k, b') (GameLogic._balls (fst (Rounded.step rnd g dt))) ->
  exists b, In (k, b) (GameLogic._balls g)
            /\ Ball.position b' = Ball.position (Rounded.moved rnd g dt b)
            /\ Ball.radius b' = Ball.radius (Rounded.moved rnd g dt b).
Proof.
  intros Hdt Hnd Hin. unfold Rounded.step in Hin.
  assert (E : Py.max 0 dt = dt) by (rewrite max_is_Rmax; apply Rmax_right; lra).
  rewrite E in Hin. rewrite eqb_false in Hin by lra.
  set (m := Rounded.after_motion rnd g dt) in *.
  assert (Hm : NoDup (keys m)).
  { unfold m. rewrite rounded_after_motion_moved. now rewrite keys_update_all. }
  destruct (Rounded.after_capture rnd g m) as [[b1 inv] cap] eqn:E1.
  destruct (GameLogic.after_mixing g dt b1) as [b2 mixed] eqn:E2.
  destruct (Rounded.after_deletion rnd g b2) as [b3 del] eqn:E3.
  simpl in Hin.
  assert (C : NoDup (keys b1) /\ forall k0 b0, In (k0, b0) b1 -> In (k0, b0) m).
  { unfold Rounded.after_capture in E1.
    destruct (Suction.is_active (GameLogic._suction g)).
    - destruct (capture_loop_balls _ _ _ _ _ _ _ E1 Hm) as [H1 H2].
      split; [assumption|]. intros k0 b0 I. now apply H2 in I.
    - inversion E1; subst. auto. }
  destruct C as [C1 C2].
  destruct (after_mixing_repaints g dt b1) as [M1 M2].
  rewrite E2 in M1, M2. simpl in M1, M2.
  unfold Rounded.after_deletion in E3.
  assert (Hb2 : NoDup (keys b2)) by now rewrite M2.
  destruct (delete_loop_balls _ _ _ _ _ E3 Hb2) as [_ D2].
  apply D2 in Hin. destruct Hin as [Hin _].
  destruct (in_related_dict repainted b1 b2 M2 M1 k b' Hin) as (bm & Ibm & [Hu _]).
  apply C2 in Ibm. unfold m in Ibm. rewrite rounded_after_motion_moved in Ibm.
  apply in_update_all in Ibm. destruct Ibm as (b & Ib & ->).
  exists b. split; [assumption|].
  unfold unpainted, Ball.set_color_rgb in Hu. inversion Hu. auto.
Qed.

(** *** A rounding that is not exact

    The sample rounding [coarse] has the properties asked of a rounding, with
    unit roundoff 1/256.  In the world [world_o] the ball "o" reaches
    x = 200.5 in the step; [200.5 + 100] is rounded to 300, which is not
    greater than the width, so the ball stays at 200.5. *)

Lemma Int_part_mono (a b : R) : a <= b -> (Int_part a <= Int_part b)%Z.
Proof.
  intros H. destruct (base_Int_part a) as [A1 A2], (base_Int_part b) as [B1 B2].
  assert (L : IZR (Int_part a) < IZR (Int_part b) + 1) by lra.
  rewrite <- plus_IZR in L. apply lt_IZR in L. lia.
Qed.

Lemma coarse_small (x : R) : Rabs x <= 256 -> coarse x = x.
Proof. intros H. unfold coarse. destruct (Rle_dec (Rabs x) 256); [reflexivity | contradiction]. Qed.

Lemma coarse_near (x : R) : Rabs (coarse x - x) <= 1 / 256 * Rabs x.
Proof.
  unfold coarse. destruct (Rle_dec (Rabs x) 256) as [H|H].
  - replace (x - x) with 0 by ring. rewrite Rabs_R0. pose proof (Rabs_pos x). lra.
  - destruct (base_Int_part (x / 2 + 1 / 2)) as [H1 H2].
    apply Rle_trans with 1; [|lra].
    apply Rabs_le. lra.
Qed.

Lemma abs_le_out (x a : R) : ~ Rabs x <= a -> x < - a \/ a < x.
Proof. unfold Rabs. destruct (Rcase_abs x); intros; lra. Qed.

Lemma coarse_rounding : rounding coarse (1 / 256).
Proof.
  constructor.
  - lra.
  - intros x y Hxy. unfold coarse.
    destruct (Rle_dec (Rabs x) 256) as [Hx|Hx];
      destruct (Rle_dec (Rabs y) 256) as [Hy|Hy];
      try apply abs_le_inv in Hx; try apply abs_le_inv in Hy;
      try apply abs_le_out in Hx; try apply abs_le_out in Hy.
    + assumption.
    + assert (Hbig : 256 < y) by lra.
      destruct (base_Int_part (y / 2 + 1 / 2)) as [_ B].
      assert (L : IZR 127 < IZR (Int_part (y / 2 + 1 / 2))) by lra.
      apply lt_IZR in L.
      assert (G : IZR 128 <= IZR (Int_part (y / 2 + 1 / 2))) by (apply IZR_le; lia).
      lra.
    + assert (Hbig : x < - 256) by lra.
      destruct (base_Int_part (x / 2 + 1 / 2)) as [B _].
      assert (L : IZR (Int_part (x / 2 + 1 / 2)) < IZR (-127)) by lra.
      apply lt_IZR in L.
      assert (G : IZR (Int_part (x / 2 + 1 / 2)) <= IZR (-128)) by (apply IZR_le; lia).
      lra.
    + assert (M : (Int_part (x / 2 + 1 / 2) <= Int_part (y / 2 + 1 / 2))%Z)
        by (apply Int_part_mono; lra).
      apply IZR_le in M. lra.
  - intros x.
    destruct (Rle_dec (Rabs x) 256) as [Hx|Hx];
      [now rewrite (coarse_small x Hx), (coarse_small x Hx)|].
    assert (E : coarse x = 2 * IZR (Int_part (x / 2 + 1 / 2))).
    { unfold coarse. destruct (Rle_dec (Rabs x) 256); [contradiction | reflexivity]. }
    rewrite E. set (n := Int_part (x / 2 + 1 / 2)).
    unfold coarse. destruct (Rle_dec (Rabs (2 * IZR n)) 256); [reflexivity|].
    f_equal. f_equal. symmetry. apply Int_part_spec. lra.
  - intros x y _ _. apply coarse_near.
  - intros x y _ _. apply coarse_near.
Qed.

Lemma coarse_300_5 : coarse (200.5 + 100) = 300.
Proof.
  unfold coarse. destruct (Rle_dec (Rabs (200.5 + 100)) 256) as [H|H].
  - apply abs_le_inv in H. lra.
  - replace (Int_part ((200.5 + 100) / 2 + 1 / 2)) with 150%Z; [lra|].
    apply Int_part_spec. lra.
Qed.

Lemma rounded_moved_o :
  Rounded.moved coarse world_o 1 ball_o
  = Ball.set_velocity (Ball.set_position ball_o (200.5, 150)) (1, 0).
Proof.
  unfold Rounded.moved.
  change (Suction.is_active (GameLogic._suction world_o)) with false.
  cbv iota.
  change (GameLogic.linear_damping_per_second world_o) with (_clamp 0 0 5).
  rewrite clamp_inside by lra.
  replace (- 0 * 1) with 0 by ring.
  rewrite (coarse_small 0) by (rewrite Rabs_R0; lra).
  rewrite exp_0.
  rewrite (coarse_small 1) by (rewrite Rabs_R1; lra).
  unfold Rounded.integrate.
  change (GameLogic.gravity world_o) with (0, 0).
  change (GameLogic.boundary_bounce world_o) with true.
  change (Ball.velocity ball_o) with (1, 0).
  change (Ball.position ball_o) with (199.5, 150).
  change (Ball.radius ball_o) with 100.
  change (GameLogic.world_width world_o) with 300.
  change (GameLogic.world_height world_o) with 300.
  cbn [fst snd].
  repeat match goal with
  | |- context [coarse ?x] =>
      let H := fresh in
      assert (H : coarse x = x) by (apply coarse_small; apply Rabs_le; lra);
      rewrite H; clear H
  end.
  replace (199.5 + (1 + 0 * 1) * 1 * 1) with 200.5 by lra.
  replace ((1 + 0 * 1) * 1) with 1 by lra.
  replace (150 + (0 + 0 * 1) * 1 * 1) with 150 by lra.
  replace ((0 + 0 * 1) * 1) with 0 by lra.
  unfold Rounded.bounce_axis. rewrite coarse_300_5.
  rewrite (coarse_small (200.5 - 100)) by (apply Rabs_le; lra).
  rewrite (coarse_small (150 - 100)) by (apply Rabs_le; lra).
  rewrite (coarse_small (150 + 100)) by (apply Rabs_le; lra).
  unfold Py.gtb. decide_cmp. reflexivity.
Qed.

Lemma coarse_300 : coarse 300 = 300.
Proof.
  unfold coarse. destruct (Rle_dec (Rabs 300) 256) as [H|H].
  - apply abs_le_inv in H. lra.
  - replace (Int_part (300 / 2 + 1 / 2)) with 150%Z; [lra|].
    apply Int_part_spec. lra.
Qed.

Lemma rounded_step_world_o :
  GameLogic._balls (fst (Rounded.step coarse world_o 1))
  = [("o"%string, Ball.set_velocity (Ball.set_position ball_o (200.5, 150)) (1, 0))].
Proof.
  unfold Rounded.step.
  assert (E : Py.max 0 1 = 1) by (rewrite max_is_Rmax; apply Rmax_right; lra).
  rewrite E. rewrite eqb_false by lra.
  rewrite rounded_after_motion_moved.
  change (GameLogic._balls world_o) with [("o"%string, ball_o)].
  cbn [dict_update_all map fst snd].
  rewrite rounded_moved_o.
  unfold Rounded.after_capture.
  change (Suction.is_active (GameLogic._suction world_o)) with false.
  cbv iota.
  rewrite after_mixing_lone by (simpl; lia).
  unfold Rounded.after_deletion. cbn [values map filter snd].
  change (GameLogic.delete_zone world_o) with (Rect.mk (300 - 120) (300 - 120) 120 120).
  unfold Rounded.contains_point.
  cbn [Ball.position Ball.set_velocity Ball.set_position Rect.x Rect.y Rect.width Rect.height].
  replace (300 - 120 + 120) with 300 by lra.
  rewrite coarse_300. decide_cmp. reflexivity.
Qed.

(** With [boundary_bounce] on, after a step of positive length in
    rounded arithmetic every ball of the active set whose radius is
    non-negative and at most half the smaller world dimension has
    [radius <= x] and [radius <= y] as they stand, and [x + radius <= width],
    [y + radius <= height] up to the rounding of the sum the code tests:
    [(x + radius) * (1 - u) <= width] and likewise for [y], where [u] is the
    unit roundoff; gravity, damping, suction and velocities are arbitrary.
    With exact arithmetic ([u = 0]) these are the bounds
    [radius <= x <= width - radius] and [radius <= y <= height - radius]. *)
Theorem bounce_keeps_balls_inside_up_to_rounding (rnd : R -> R) (u : R)
    (g : GameLogic.t) (dt : R) (k : string) (b' : Ball.t) :
  rounding rnd u ->
  rnd (GameLogic.world_width g) = GameLogic.world_width g ->
  rnd (GameLogic.world_height g) = GameLogic.world_height g ->
  GameLogic.boundary_bounce g = true ->
  0 < dt ->
  NoDup (keys (GameLogic._balls g)) ->
  In (k, b') (GameLogic._balls (fst (Rounded.step rnd g dt))) ->
  rnd (Ball.radius b') = Ball.radius b' ->
  0 <= Ball.radius b' <= Rmin (GameLogic.world_width g) (GameLogic.world_height g) / 2 ->
  Ball.radius b' <= fst (Ball.position b')
  /\ (fst (Ball.position b') + Ball.radius b') * (1 - u) <= GameLogic.world_width g
  /\ Ball.radius b' <= snd (Ball.position b')
  /\ (snd (Ball.position b') + Ball.radius b') * (1 - u) <= GameLogic.world_height g
  /\ (u = 0 ->
      Ball.radius b' <= fst (Ball.position b') <= GameLogic.world_width g - Ball.radius b'
      /\ Ball.radius b' <= snd (Ball.position b')
         <= GameLogic.world_height g - Ball.radius b').
Proof.
  intros H HW HH Hb Hdt Hnd Hin Hrep Hr.
  destruct (rounded_step_active rnd g dt k b' Hdt Hnd Hin) as (b & Ib & Hp & Hrad).
  destruct (rounded_moved_bounce rnd u g dt b H Hb)
    as (Hrb & px & vx & py & vy & Rx & Ry & Hpos).
  rewrite Hrb in Hrad. rewrite Hrad in Hrep, Hr |- *. rewrite Hp, Hpos. simpl.
  pose proof (Rmin_l (GameLogic.world_width g) (GameLogic.world_height g)) as Hl.
  pose proof (Rmin_r (GameLogic.world_width g) (GameLogic.world_height g)) as Hrr.
  destruct (rounded_bounce_axis_range rnd u px vx (Ball.radius b)
              (GameLogic.world_width g) H Rx Hrep HW) as [X1 X2]; try lra.
  destruct (rounded_bounce_axis_range rnd u py vy (Ball.radius b)
              (GameLogic.world_height g) H Ry Hrep HH) as [Y1 Y2]; try lra.
  repeat split; try assumption; subst u; lra.
Qed.

Lemma bounce_keeps_balls_inside_up_to_rounding_witness :
  (let b' := Ball.set_velocity (Ball.set_position ball_o (200.5, 150)) (1, 0) in
   Ball.radius b' <= fst (Ball.position b')
   /\ (fst (Ball.position b') + Ball.radius b') * (1 - 1 / 256)
      <= GameLogic.world_width world_o
   /\ Ball.radius b' <= snd (Ball.position b')
   /\ (snd (Ball.position b') + Ball.radius b') * (1 - 1 / 256)
      <= GameLogic.world_height world_o
   /\ GameLogic.world_width world_o - Ball.radius b' < fst (Ball.position b'))
  /\ (Ball.radius (moved world_e 1 ball_e)
        <= fst (Ball.position (moved world_e 1 ball_e))
        <= GameLogic.world_width world_e - Ball.radius (moved world_e 1 ball_e)
      /\ Ball.radius (moved world_e 1 ball_e)
        <= snd (Ball.position (moved world_e 1 ball_e))
        <= GameLogic.world_height world_e - Ball.radius (moved world_e 1 ball_e)).
Proof.
  split.
  - destruct (bounce_keeps_balls_inside_up_to_rounding coarse (1 / 256) world_o 1
                "o"%string
                (Ball.set_velocity (Ball.set_position ball_o (200.5, 150)) (1, 0)))
      as (A & B & C & D & _).
    + apply coarse_rounding.
    + apply coarse_300.
    + apply coarse_300.
    + reflexivity.
    + lra.
    + repeat constructor. intros [].
    + rewrite rounded_step_world_o. now left.
    + apply coarse_small. apply Rabs_le. simpl. lra.
    + simpl. rewrite Rmin_left by lra. lra.
    + repeat split; try assumption. simpl. lra.
  - apply (bounce_keeps_balls_inside_up_to_rounding (fun x => x) 0 world_e 1 "e"%string
             (moved world_e 1 ball_e)).
    + apply exact_rounding.
    + reflexivity.
    + reflexivity.
    + reflexivity.
    + lra.
    + repeat constructor. intros [].
    + rewrite rounded_step_exact, step_world_e. now left.
    + reflexivity.
    + destruct (moved_keeps world_e 1 ball_e) as (_ & -> & _).
      simpl. rewrite Rmin_left by lra. lra.
    + reflexivity.
Defined.
